(** * sandbox.ts: grid generation, sign-run analysis, global minimum, report

    A shallow embedding of [src/sandbox.ts].  JavaScript values are modelled
    by the inductive types [number] and [jsval]; the two [while] loops of
    [minReplacementsToAvoidTriples] are index-driven and take fuel; the
    [for] loops of [findGlobalMin] run over their index range; the code that
    draws random numbers, throws or writes to the console lives in a small
    state-and-exception monad over a [World].  The two analysis functions
    are given a second time over a store of mutable arrays, where what they
    read, allocate and change is explicit. *)

From Stdlib Require Import QArith Qcanon Qround.
From stdpp Require Import base numbers list sorting strings pretty gmap.

Local Open Scope Z_scope.

(** ** JavaScript numbers

    A finite number is a canonical rational, so that [=] on [number] is
    the identity of the denoted value.  The program only compares cell
    values; arithmetic is confined to [randInt], where every result is
    rounded to the nearest double and overflows to an infinity as IEEE 754
    prescribes. *)

Inductive number : Type :=
  | Fin (q : Qc)
  | PosInf
  | NegInf
  | NaN.

Definition Qc_ltb (x y : Qc) : bool :=
  Qnum x * QDen y <? Qnum y * QDen x.

Definition Qc_eqb (x y : Qc) : bool := Qeq_bool x y.

Definition int (z : Z) : number := Fin (Qc_of_Z z).

(** [a < b] *)
Definition num_lt (a b : number) : bool :=
  match a, b with
  | NaN, _ | _, NaN => false
  | Fin x, Fin y => Qc_ltb x y
  | _, NegInf => false
  | NegInf, _ => true
  | PosInf, _ => false
  | Fin _, PosInf => true
  end.

(** [a > b] *)
Definition num_gt (a b : number) : bool := num_lt b a.

(** [a <= b] *)
Definition num_le (a b : number) : bool :=
  match a, b with
  | NaN, _ | _, NaN => false
  | _, _ => negb (num_lt b a)
  end.

(** [a === b] on two numbers *)
Definition num_eq (a b : number) : bool :=
  match a, b with
  | Fin x, Fin y => Qc_eqb x y
  | PosInf, PosInf => true
  | NegInf, NegInf => true
  | _, _ => false
  end.

Definition is_NaN (n : number) : bool :=
  match n with NaN => true | _ => false end.

(** ** JavaScript values that can sit in a cell *)

Inductive jsval : Type :=
  | JNum (n : number)
  | JStr (s : string)
  | JUndefined
  | JNull.

(** [typeof v === "number"] *)
Definition typeof_number (v : jsval) : bool :=
  match v with JNum _ => true | _ => false end.

(** [Number.isNaN(v)] *)
Definition Number_isNaN (v : jsval) : bool :=
  match v with JNum n => is_NaN n | _ => false end.

(** [v > 0] and [v < 0], used after the [typeof] guard *)
Definition value_gt0 (v : jsval) : bool :=
  match v with JNum n => num_gt n (int 0) | _ => false end.

Definition value_lt0 (v : jsval) : bool :=
  match v with JNum n => num_lt n (int 0) | _ => false end.

(** A row as the code may find it: an array, or [null]/[undefined]. *)
Inductive rowval : Type :=
  | RArr (cells : list jsval)
  | RNullish.

Definition Array_isArray (r : rowval) : bool :=
  match r with RArr _ => true | RNullish => false end.

(** [row[i]]: reading past the end of an array yields [undefined]. *)
Definition index (row : list jsval) (i : nat) : jsval :=
  default JUndefined (row !! i).

Record Position : Type := mkPos { rowIndex : nat; colIndex : nat }.

Global Instance Position_eq_dec : EqDecision Position.
Proof. solve_decision. Defined.

(** ** signOf *)

Definition signOf (v : jsval) : Z :=
  if negb (typeof_number v) || Number_isNaN v then 0
  else if value_gt0 v then 1
  else if value_lt0 v then -1
  else 0.

(** ** minReplacementsToAvoidTriples

    Both loops advance the shared index [i].  [None] means that the fuel
    ran out before the loop condition became false. *)

(** The inner loop
    [while (i < rowLength && signOf(row[i]) === currentSign) { chain++; i++; }];
    the result is the pair of [i] and [chain] at exit. *)
Fixpoint chain_loop (fuel : nat) (row : list jsval) (rowLength : nat)
    (currentSign : Z) (i chain : nat) : option (nat * nat) :=
  match fuel with
  | O => None
  | S fuel' =>
      if (i <? rowLength)%nat && (signOf (index row i) =? currentSign)
      then chain_loop fuel' row rowLength currentSign (S i) (S chain)
      else Some (i, chain)
  end.

(** The outer loop [while (i < rowLength) { ... }]. *)
Fixpoint scan_loop (fuel : nat) (row : list jsval) (rowLength : nat)
    (i replacements : nat) : option nat :=
  match fuel with
  | O => None
  | S fuel' =>
      if (i <? rowLength)%nat then
        let currentSign := signOf (index row i) in
        if currentSign =? 0 then
          scan_loop fuel' row rowLength (S i) replacements
        else
          match chain_loop fuel row rowLength currentSign i 0 with
          | None => None
          | Some (i', chain) =>
              scan_loop fuel' row rowLength i'
                (if (3 <=? chain)%nat
                 then (replacements + chain / 3)%nat
                 else replacements)
          end
      else Some replacements
  end.

(** With fuel [n], the function as written in the source. *)
Definition minReplacements_fuel (fuel : nat) (row : rowval) : option nat :=
  match row with
  | RNullish => Some O
  | RArr cells =>
      if (length cells =? 0)%nat then Some O
      else scan_loop fuel cells (length cells) 0 0
  end.

Definition row_length (row : rowval) : nat :=
  match row with RArr cells => length cells | RNullish => O end.

(** One unit of fuel per cell and one for the final test is enough
    ([minReplacements_fuel_enough] below: more fuel changes nothing). *)
Definition minReplacementsToAvoidTriples (row : rowval) : option nat :=
  minReplacements_fuel (S (row_length row)) row.

(** *** The rule in the words of the specification

    The row is cut into maximal blocks of equal sign; blocks of neutral
    sign are dropped; a block of length [L] contributes [L / 3]. *)

Fixpoint sign_blocks (signs : list Z) : list (Z * nat) :=
  match signs with
  | [] => []
  | s :: rest =>
      match sign_blocks rest with
      | (s', n) :: blocks =>
          if s =? s' then (s, S n) :: blocks else (s, 1%nat) :: (s', n) :: blocks
      | [] => [(s, 1%nat)]
      end
  end.

Definition is_run (b : Z * nat) : bool := negb (fst b =? 0).

Definition runs (row : list jsval) : list nat :=
  snd <$> filter (λ b, is_run b = true) (sign_blocks (signOf <$> row)).

Definition run_cost (L : nat) : nat := (L / 3)%nat.

Definition replacements_by_runs (row : list jsval) : nat :=
  sum_list (run_cost <$> runs row).


(** ** findGlobalMin *)

Record GlobalMinResult : Type := mkResult {
  value : option number;            (* [null] is [None] *)
  positions : list Position;
  rowsWithMin : gset nat
}.

(** [for (let k = 0; k < n; k++) body], with the loop state threaded
    through the body; [continue] is a body that returns its state. *)
Definition for_range {St : Type} (n : nat) (body : nat → St → St) (st : St) : St :=
  foldl (λ acc k, body k acc) st (seq 0 n).

(** [matrix[rowIndex] ?? []] *)
Definition row_or_empty (r : rowval) : list jsval :=
  match r with RArr cells => cells | RNullish => [] end.

Definition row_at (matrix : list rowval) (rowIndex : nat) : rowval :=
  default RNullish (matrix !! rowIndex).

(** The body of the inner loop on one cell; the state is the pair of
    [minValue] and [minPositions]. *)
Definition visit_cell (rowIndex colIndex : nat) (cellValue : jsval)
    (st : number * list Position) : number * list Position :=
  match cellValue with
  | JNum c =>
      if is_NaN c then st
      else
        let '(minValue, minPositions) := st in
        if num_lt c minValue then (c, [mkPos rowIndex colIndex])
        else if num_eq c minValue
             then (minValue, minPositions ++ [mkPos rowIndex colIndex])
             else st
  | _ => st
  end.

Definition scan_row (rowIndex : nat) (row : list jsval)
    (st : number * list Position) : number * list Position :=
  for_range (length row)
    (λ colIndex acc, visit_cell rowIndex colIndex (index row colIndex) acc) st.

Definition scan_matrix (matrix : list rowval) : number * list Position :=
  for_range (length matrix)
    (λ rowIndex acc, scan_row rowIndex (row_or_empty (row_at matrix rowIndex)) acc)
    (PosInf, []).

Definition findGlobalMin (matrix : list rowval) : GlobalMinResult :=
  let '(minValue, minPositions) := scan_matrix matrix in
  {| value := if num_eq minValue PosInf then None else Some minValue;
     positions := minPositions;
     rowsWithMin := list_to_set (rowIndex <$> minPositions) |}.

(** The cell a position points at, if there is one. *)
Definition cell_at (matrix : list rowval) (p : Position) : option jsval :=
  row_or_empty (row_at matrix (rowIndex p)) !! colIndex p.

(** A cell the scan takes as a candidate: a number that is not NaN. *)
Definition is_candidate (v : jsval) : bool :=
  typeof_number v && negb (Number_isNaN v).

(** All positions of the grid in row-major order, with their cells. *)
Definition row_major (matrix : list rowval) : list (Position * jsval) :=
  mjoin (imap (λ r row, imap (λ c v, (mkPos r c, v)) (row_or_empty row)) matrix).

(** [v === m] for a cell [v] and a number [m] *)
Definition cell_is (m : number) (v : jsval) : bool :=
  match v with JNum c => num_eq c m | _ => false end.

(** Every occurrence of [m] in the grid, in row-major order. *)
Definition occurrences (m : number) (matrix : list rowval) : list Position :=
  fst <$> filter (λ pv, cell_is m (snd pv) = true) (row_major matrix).

(** ** Rounding to a double

    The value of a finite double is a rational [m * 2 ^ q] with
    [|m| < 2 ^ 53] and [-1074 <= q <= 971].  [round64] maps a rational to
    the nearest such value, ties to the even significand, and to an
    infinity from [2 ^ 1024 - 2 ^ 970] on. *)

(** [x * 2 ^ k], for [k] of either sign. *)
Definition scale2 (x : Q) (k : Z) : Q :=
  if 0 <=? k then (x * inject_Z (2 ^ k))%Q else (x / inject_Z (2 ^ (- k)))%Q.

(** The exponent [e] with [2 ^ e <= x < 2 ^ (e + 1)], for positive [x]. *)
Definition ilog2 (x : Q) : Z :=
  if Qle_bool 1 x then Z.log2 (Qfloor x) else - Z.log2_up (Qceiling (/ x)).

(** The integer nearest to [m]; of two equally near ones the even one. *)
Definition round_half_even (m : Q) : Z :=
  let f := Qfloor m in
  match (m - inject_Z f ?= 1 # 2)%Q with
  | Lt => f
  | Gt => f + 1
  | Eq => if Z.even f then f else f + 1
  end.

(** A positive [x] rounded to 53 significant bits, with an exponent not
    below that of the subnormal numbers; [None] when the rounded value
    leaves the range of the finite doubles. *)
Definition round_pos (x : Q) : option Q :=
  let qe := Z.max (ilog2 x - 52) (-1074) in
  let v := scale2 (inject_Z (round_half_even (scale2 x (- qe)))) qe in
  if Qle_bool (inject_Z (2 ^ 1024)) v then None else Some v.

(** The double nearest to the rational [x]. *)
Definition round64 (x : Q) : number :=
  match Qnum x with
  | Z0 => Fin (Qc_of_Z 0)
  | Zpos _ =>
      match round_pos x with Some v => Fin (Q2Qc v) | None => PosInf end
  | Zneg _ =>
      match round_pos (- x) with Some v => Fin (Q2Qc (- v)) | None => NegInf end
  end.

(** [x] is the value of a double: rounding leaves it as it is. *)
Definition is_double (x : Qc) : Prop := num_eq (round64 x) (Fin x) = true.

(** ** Arithmetic on numbers, as [randInt] uses it

    The sum and the product of two finite operands are the exact results
    rounded to a double; negation and [Math.floor] are exact on doubles.
    The special values follow the IEEE rules.  Signed zeros are not
    distinguished. *)

Definition num_neg (a : number) : number :=
  match a with
  | Fin x => Fin (- x)%Qc
  | PosInf => NegInf
  | NegInf => PosInf
  | NaN => NaN
  end.

Definition num_add (a b : number) : number :=
  match a, b with
  | NaN, _ | _, NaN => NaN
  | Fin x, Fin y => round64 (x + y)%Qc
  | PosInf, NegInf | NegInf, PosInf => NaN
  | PosInf, _ | _, PosInf => PosInf
  | NegInf, _ | _, NegInf => NegInf
  end.

Definition num_sub (a b : number) : number := num_add a (num_neg b).

(** The sign of a number that is not NaN: [-1], [0] or [1]. *)
Definition num_sgn (a : number) : Z :=
  match a with
  | Fin x => Z.sgn (Qnum x)
  | PosInf => 1
  | NegInf => -1
  | NaN => 0
  end.

Definition num_mul (a b : number) : number :=
  match a, b with
  | NaN, _ | _, NaN => NaN
  | Fin x, Fin y => round64 (x * y)%Qc
  | _, _ =>
      match num_sgn a * num_sgn b with
      | Z0 => NaN
      | Zpos _ => PosInf
      | Zneg _ => NegInf
      end
  end.

Definition Math_floor (a : number) : number :=
  match a with
  | Fin x => int (Qfloor x)
  | _ => a
  end.

Definition Number_isInteger (a : number) : bool :=
  match a with
  | Fin x => Qc_eqb x (Qc_of_Z (Qfloor x))
  | _ => false
  end.

(** [ToLength(n)], the length [Array.from] reads off an array-like
    [{ length: n }]: the integer part of [n], cut to the range from 0 to
    [2 ^ 53 - 1]. *)
Definition ToLength (n : number) : Z :=
  match n with
  | Fin x => Z.min (Z.max (Qfloor x) 0) (2 ^ 53 - 1)
  | PosInf => 2 ^ 53 - 1
  | _ => 0
  end.

(** ** The world: random source, console, terminal *)

Record World : Type := mkWorld {
  rng : nat → Qc;          (* the values [Math.random()] is going to return *)
  drawn : nat;             (* how many of them have been consumed *)
  console : list string;   (* the arguments of the [console.log] calls so far *)
  isTTY : bool             (* truthiness of [process.stdout.isTTY] *)
}.

(** Every draw is a double in the half-open interval from 0 to 1, as
    [Math.random] promises. *)
Definition unit_draws (w : World) : Prop :=
  ∀ k, is_double (rng w k) ∧ (0 ≤ rng w k)%Qc ∧ (rng w k < 1)%Qc.

Inductive exn : Type :=
  | TypeError (msg : string)
  | RangeError (msg : string).

Inductive result (A : Type) : Type :=
  | Ok (a : A)
  | Throw (e : exn)
  | OutOfFuel.
Global Arguments Ok {A} a.
Global Arguments Throw {A} e.
Global Arguments OutOfFuel {A}.

Definition M (A : Type) : Type := World → result A * World.

Global Instance M_ret : MRet M := λ A a w, (Ok a, w).

Global Instance M_bind : MBind M := λ A B f m w,
  match m w with
  | (Ok a, w') => f a w'
  | (Throw e, w') => (Throw e, w')
  | (OutOfFuel, w') => (OutOfFuel, w')
  end.

Definition throw {A : Type} (e : exn) : M A := λ w, (Throw e, w).

Definition lift_fuel {A : Type} (o : option A) : M A := λ w,
  match o with Some a => (Ok a, w) | None => (OutOfFuel, w) end.

(** [Math.random()]: the next value of the source.  That it is a double
    of the unit interval is the hypothesis [unit_draws] of the theorems
    that depend on it. *)
Definition Math_random : M number := λ w,
  (Ok (Fin (rng w (drawn w))),
   {| rng := rng w; drawn := S (drawn w); console := console w; isTTY := isTTY w |}).

Definition console_log (line : string) : M unit := λ w,
  (Ok tt,
   {| rng := rng w; drawn := drawn w; console := console w ++ [line]; isTTY := isTTY w |}).

Definition get_isTTY : M bool := λ w, (Ok (isTTY w), w).

(** The filling loop of [Array.from]: [f] is called [n] times, in order. *)
Fixpoint map_calls {A : Type} (n : nat) (f : M A) : M (list A) :=
  match n with
  | O => mret []
  | S n' => x ← f; xs ← map_calls n' f; mret (x :: xs)
  end.

(** The error [new Array(len)] throws for a length above [2 ^ 32 - 1]
    (the message is the one of V8). *)
Definition InvalidArrayLength : exn := RangeError "Invalid array length".

(** [Array.from({ length: len }, f)]: the result array is created with
    the length [ToLength(len)] first, which throws for a length no array
    can have, before [f] is called at all; then it is filled.  How much
    memory an engine has for an array is not part of the model. *)
Definition Array_from {A : Type} (len : number) (f : M A) : M (list A) :=
  let n := ToLength len in
  if 2 ^ 32 <=? n then throw InvalidArrayLength
  else map_calls (Z.to_nat n) f.

(** ** randInt and generateMatrix *)

Definition DEFAULT_ROWS : number := int 10.
Definition DEFAULT_COLS : number := int 10.
Definition DEFAULT_MIN_VALUE : number := int (-100).
Definition DEFAULT_MAX_VALUE : number := int 100.

Definition randInt (min max : number) : M number :=
  let '(min, max) := if num_gt min max then (max, min) else (min, max) in
  r ← Math_random;
  mret (num_add (Math_floor (num_mul r (num_add (num_sub max min) (int 1)))) min).

(** The error the specification calls [InvalidDimension]. *)
Definition InvalidDimension : exn :=
  TypeError "строки и колонки должны быть целыми числами".

Definition generateMatrix (rows cols min max : number) : M (list rowval) :=
  if negb (Number_isInteger rows) || negb (Number_isInteger cols)
     || num_le rows (int 0) || num_le cols (int 0)
  then throw InvalidDimension
  else
    Array_from rows
      (cells ← Array_from cols (randInt min max);
       mret (RArr (JNum <$> cells))).

(** ** Strings as the renderer uses them *)

(** [s.length]: the number of UTF-16 code units of a string held as
    UTF-8 bytes.  A continuation byte counts 0, the lead byte of a
    four-byte sequence counts 2, every other byte counts 1. *)
Fixpoint js_length (s : string) : nat :=
  match s with
  | EmptyString => O
  | String a rest =>
      let b := Ascii.nat_of_ascii a in
      ((if (b <? 128)%nat then 1
        else if (b <? 192)%nat then 0
        else if (b <? 240)%nat then 1
        else 2) + js_length rest)%nat
  end.

(** [pad.repeat(n)] *)
Fixpoint js_repeat (pad : string) (n : nat) : string :=
  match n with
  | O => ""
  | S n' => pad +:+ js_repeat pad n'
  end.

(** [s.padStart(width, " ")] *)
Definition padStart (s : string) (width : nat) : string :=
  js_repeat " " (width - js_length s) +:+ s.

(** [parts.join(sep)] *)
Fixpoint js_join (sep : string) (parts : list string) : string :=
  match parts with
  | [] => ""
  | [x] => x
  | x :: rest => x +:+ sep +:+ js_join sep rest
  end.

Definition ESC : string := String (Ascii.ascii_of_nat 27) EmptyString.

Record Colors : Type := mkColors {
  reset : string; bold : string; red : string; yellow : string
}.

Definition COLORS : Colors :=
  {| reset := ESC +:+ "[0m"; bold := ESC +:+ "[1m";
     red := ESC +:+ "[31m"; yellow := ESC +:+ "[43m" |}.

Definition EMPTY_CELL : string := "—".
Definition ROW_MARKER : string := "*".

Record PrettyPrintOptions : Type := mkOptions { useColors : option bool }.

(** The first argument of [prettyPrintMatrix]: an array of rows, or a
    value that is not an array. *)
Inductive matrixval : Type :=
  | MArr (rows : list rowval)
  | MNotArray.

(** [Math.min(...l)] *)
Definition Math_min (l : list number) : number :=
  if existsb is_NaN l then NaN
  else foldl (λ acc a, if num_lt a acc then a else acc) PosInf l.

(** [cellValue === globalMin] *)
Definition strict_eq_min (cellValue : jsval) (globalMin : option number) : bool :=
  match cellValue, globalMin with
  | JNum c, Some m => num_eq c m
  | JNull, None => true
  | _, _ => false
  end.

Definition number_of (v : jsval) : option number :=
  match v with JNum n => Some n | _ => None end.

Section Render.

(** [String(n)] for a finite number that is not an integer of magnitude
    below [2 ^ 53]: the digits JavaScript prints for it, the shortest that
    read back as the same double, are not derived here. *)
Variable Number_toString_other : Qc → string.

Definition Number_toString (n : number) : string :=
  match n with
  | Fin x =>
      if Qc_eqb x (Qc_of_Z (Qfloor x)) && (Z.abs (Qfloor x) <? 2 ^ 53)
      then pretty (Qfloor x)
      else Number_toString_other x
  | PosInf => "Infinity"
  | NegInf => "-Infinity"
  | NaN => "NaN"
  end.

(** [String(v)] *)
Definition String_of (v : jsval) : string :=
  match v with
  | JNum n => Number_toString n
  | JStr s => s
  | JUndefined => "undefined"
  | JNull => "null"
  end.

Definition computeColWidth (matrix : list rowval) : nat :=
  let maxCellLength :=
    foldl (λ acc row,
             match row with
             | RNullish => acc
             | RArr cells =>
                 foldl (λ acc' cell,
                          let cellStr := String_of cell in
                          if (acc' <? js_length cellStr)%nat
                          then js_length cellStr else acc')
                       acc cells
             end)
          1%nat matrix in
  let minWidth := 4%nat in
  let padding := 1%nat in
  (Nat.max minWidth maxCellLength + padding)%nat.

Definition formatCell (v : jsval) (width : nat) (highlight useColors : bool) : string :=
  let s := padStart (String_of v) width in
  if highlight && useColors
  then yellow COLORS +:+ bold COLORS +:+ s +:+ reset COLORS
  else s.

(** [for (let k = 0; k < n; k++) body] for a body with effects. *)
Definition for_rangeM (n : nat) (body : nat → M unit) : M unit :=
  foldr (λ k rest, _ ← body k; rest) (mret tt) (seq 0 n).

(** One iteration of the loop over the rows. *)
Definition print_row (matrix : list rowval) (totalCols colWidth : nat)
    (globalMin : option number) (rowsWithMin : gset nat) (useColors : bool)
    (rowIndex : nat) : M unit :=
  let row := row_or_empty (row_at matrix rowIndex) in
  let rowMarker := if bool_decide (rowIndex ∈ rowsWithMin) then ROW_MARKER else " " in
  let formattedCells :=
    (λ colIndex,
       let cellValue :=
         if (colIndex <? length row)%nat then index row colIndex
         else JStr EMPTY_CELL in
       let isGlobalMinCell := strict_eq_min cellValue globalMin in
       formatCell cellValue colWidth isGlobalMinCell useColors)
    <$> seq 0 totalCols in
  let positiveNumbers :=
    omap number_of (filter (λ v, typeof_number v && value_gt0 v = true) row) in
  let minPositive :=
    if (length positiveNumbers =? 0)%nat then None
    else Some (Math_min positiveNumbers) in
  let minPositiveStr :=
    match minPositive with
    | None => EMPTY_CELL
    | Some m => Number_toString m
    end in
  replacementsCount ← lift_fuel (minReplacementsToAvoidTriples (RArr row));
  console_log
    (rowMarker +:+ " r" +:+ padStart (pretty rowIndex) 2 +:+ " |"
     +:+ js_join "" formattedCells
     +:+ " | " +:+ padStart minPositiveStr 6
     +:+ " | " +:+ padStart (pretty replacementsCount) 4).

Definition NEWLINE : string := String (Ascii.ascii_of_nat 10) EmptyString.

Definition EMPTY_NOTICE : string := "Матрица пуста.".

Definition prettyPrintMatrix (matrix : matrixval) (options : PrettyPrintOptions)
    : M unit :=
  defaultUseColors ← get_isTTY;
  let useColors' := default defaultUseColors (useColors options) in
  match matrix with
  | MNotArray => console_log EMPTY_NOTICE
  | MArr rows =>
      if (length rows =? 0)%nat then console_log EMPTY_NOTICE
      else
        let totalRows := length rows in
        let totalCols := max_list ((λ row, length (row_or_empty row)) <$> rows) in
        let res := findGlobalMin rows in
        let globalMin := value res in
        let minPositions := positions res in
        let colWidth := computeColWidth rows in
        let headerCells :=
          (λ c : nat, padStart ("c" +:+ pretty c) colWidth) <$> seq 0 totalCols in
        let header := "     |" +:+ js_join "" headerCells +:+ "  | minPos | replace" in
        let separator := js_repeat "-" (js_length header) in
        _ ← console_log (NEWLINE +:+ header);
        _ ← console_log separator;
        _ ← for_rangeM totalRows
              (print_row rows totalCols colWidth globalMin (rowsWithMin res) useColors');
        _ ← console_log separator;
        _ ← match globalMin with
            | None =>
                console_log "Глобальный минимум не найден (нет числовых значений)."
            | Some m =>
                let positionsStr :=
                  js_join ", "
                    ((λ p, "(r" +:+ pretty (rowIndex p) +:+ ",c"
                           +:+ pretty (colIndex p) +:+ ")") <$> minPositions) in
                if useColors'
                then console_log
                       ("Глобальный минимум: " +:+ red COLORS +:+ Number_toString m
                        +:+ reset COLORS +:+ " найден в позициях: " +:+ positionsStr)
                else console_log
                       ("Глобальный минимум: " +:+ Number_toString m
                        +:+ " найден в позициях: " +:+ positionsStr)
            end;
        console_log ""
  end.

(** The program: generate one grid with the default parameters and print it. *)
Definition main : M unit :=
  matrix ← generateMatrix DEFAULT_ROWS DEFAULT_COLS DEFAULT_MIN_VALUE DEFAULT_MAX_VALUE;
  prettyPrintMatrix (MArr matrix) {| useColors := Some true |}.

End Render.

(** ** The two analysis functions on a store of arrays

    In the program a grid is an array of references to arrays, and any
    code that holds a reference can change the array behind it.  The
    definitions above read a grid as a value; the ones below are the same
    two functions with the store explicit: every [matrix.length],
    [matrix[rowIndex]], [row[colIndex]] is a read of the store at the time
    it is evaluated, [minPositions] is an array allocated by the call and
    changed in place, and the result of [findGlobalMin] holds references
    to that array and to a new set.  The records [{ rowIndex, colIndex }]
    and the result record, which the code fills once and never changes,
    are values. *)

(** Locations of the store are natural numbers. *)
Abbreviation loc := nat (only parsing).

(** What a row slot of a grid holds: a reference to an array, or
    [null]/[undefined]. *)
Inductive rowref : Type :=
  | RRef (l : loc)
  | RRefNullish.

Inductive object : Type :=
  | OCells (cells : list jsval)       (* an array of cell values, a row *)
  | ORows (rows : list rowref)        (* an array of rows, a grid *)
  | OPositions (ps : list Position)   (* an array of positions *)
  | OSet (members : gset nat).        (* a set of numbers *)

Abbreviation store := (gmap nat object) (only parsing).

(** A computation on the store.  [None]: the fuel of a loop ran out, or an
    operation met a reference that does not lead to an object of the kind
    it needs. *)
Definition ST (A : Type) : Type := store → option (A * store).

Global Instance ST_ret : MRet ST := λ A a h, Some (a, h).

Global Instance ST_bind : MBind ST := λ A B f m h,
  match m h with
  | Some (a, h') => f a h'
  | None => None
  end.

Definition stuck {A : Type} : ST A := λ _, None.

Definition read (l : loc) : ST object := λ h,
  match h !! l with Some o => Some (o, h) | None => None end.

Definition write (l : loc) (o : object) : ST unit := λ h, Some (tt, <[l := o]> h).

(** A new object, at a location not in use. *)
Definition alloc (o : object) : ST loc := λ h,
  let l := fresh (dom h) in Some (l, <[l := o]> h).

(** [a.length] *)
Definition get_length (a : loc) : ST nat :=
  o ← read a;
  match o with
  | OCells cells => mret (length cells)
  | ORows rows => mret (length rows)
  | OPositions ps => mret (length ps)
  | OSet _ => stuck
  end.

(** [matrix[i]] *)
Definition get_row (matrix : loc) (i : nat) : ST rowref :=
  o ← read matrix;
  match o with
  | ORows rows => mret (default RRefNullish (rows !! i))
  | _ => stuck
  end.

(** [row[i]] *)
Definition get_cell (row : loc) (i : nat) : ST jsval :=
  o ← read row;
  match o with
  | OCells cells => mret (index cells i)
  | _ => stuck
  end.

(** [a.length = 0] *)
Definition clear_positions (a : loc) : ST unit :=
  o ← read a;
  match o with
  | OPositions _ => write a (OPositions [])
  | _ => stuck
  end.

(** [a.push(p)] *)
Definition push_position (a : loc) (p : Position) : ST unit :=
  o ← read a;
  match o with
  | OPositions ps => write a (OPositions (ps ++ [p]))
  | _ => stuck
  end.

(** [for (let k = 0; k < len; k++) body], where [len] is evaluated before
    every round and the body may change the store; [st] is what the body
    keeps in local variables. *)
Fixpoint for_st {St : Type} (fuel : nat) (len : ST nat) (body : nat → St → ST St)
    (k : nat) (st : St) : ST St :=
  match fuel with
  | O => stuck
  | S fuel' =>
      n ← len;
      if (k <? n)%nat then st' ← body k st; for_st fuel' len body (S k) st'
      else mret st
  end.

(** The object [findGlobalMin] returns: [positions] and [rowsWithMin] are
    references. *)
Record GlobalMinObject : Type := mkObject {
  value_field : option number;
  positions_field : loc;
  rowsWithMin_field : loc
}.

(** The body of the inner loop of [findGlobalMin]; the local variable
    [minValue] is the loop state, [minPositions] is changed in the store. *)
Definition visit_cell_st (minPositions : loc) (rowIndex colIndex : nat)
    (cellValue : jsval) (minValue : number) : ST number :=
  if negb (typeof_number cellValue) || Number_isNaN cellValue then mret minValue
  else
    match cellValue with
    | JNum c =>
        if num_lt c minValue then
          clear_positions minPositions;;
          push_position minPositions (mkPos rowIndex colIndex);;
          mret c
        else if num_eq c minValue then
          push_position minPositions (mkPos rowIndex colIndex);;
          mret minValue
        else mret minValue
    | _ => mret minValue
    end.

Definition findGlobalMin_st (fuel : nat) (matrix : loc) : ST GlobalMinObject :=
  minPositions ← alloc (OPositions []);
  minValue ←
    for_st fuel (get_length matrix)
      (λ rowIndex minValue,
         slot ← get_row matrix rowIndex;
         row ← match slot with
               | RRef l => mret l
               | RRefNullish => alloc (OCells [])
               end;
         for_st fuel (get_length row)
           (λ colIndex minValue,
              cellValue ← get_cell row colIndex;
              visit_cell_st minPositions rowIndex colIndex cellValue minValue)
           O minValue)
      O PosInf;
  o ← read minPositions;
  match o with
  | OPositions ps =>
      rows ← alloc (OSet (list_to_set (rowIndex <$> ps)));
      mret {| value_field := if num_eq minValue PosInf then None else Some minValue;
              positions_field := minPositions;
              rowsWithMin_field := rows |}
  | _ => stuck
  end.

(** The loops of [minReplacementsToAvoidTriples]: [rowLength] is the
    constant read before the loops, [row[i]] is read from the store. *)
Fixpoint chain_loop_st (fuel : nat) (row : loc) (rowLength : nat)
    (currentSign : Z) (i chain : nat) : ST (nat * nat) :=
  match fuel with
  | O => stuck
  | S fuel' =>
      if (i <? rowLength)%nat then
        v ← get_cell row i;
        if signOf v =? currentSign
        then chain_loop_st fuel' row rowLength currentSign (S i) (S chain)
        else mret (i, chain)
      else mret (i, chain)
  end.

Fixpoint scan_loop_st (fuel : nat) (row : loc) (rowLength : nat)
    (i replacements : nat) : ST nat :=
  match fuel with
  | O => stuck
  | S fuel' =>
      if (i <? rowLength)%nat then
        v ← get_cell row i;
        let currentSign := signOf v in
        if currentSign =? 0 then
          scan_loop_st fuel' row rowLength (S i) replacements
        else
          ic ← chain_loop_st fuel row rowLength currentSign i 0;
          scan_loop_st fuel' row rowLength (fst ic)
            (if (3 <=? snd ic)%nat
             then (replacements + snd ic / 3)%nat
             else replacements)
      else mret replacements
  end.

(** [Array.isArray(row)] *)
Definition Array_isArray_st (row : rowref) : ST bool :=
  match row with
  | RRefNullish => mret false
  | RRef l => o ← read l; mret (match o with OSet _ => false | _ => true end)
  end.

Definition minReplacements_st (fuel : nat) (row : rowref) : ST nat :=
  isArray ← Array_isArray_st row;
  match row with
  | RRef l =>
      if negb isArray then mret O
      else
        n ← get_length l;
        if (n =? 0)%nat then mret O
        else rowLength ← get_length l; scan_loop_st fuel l rowLength 0 0
  | RRefNullish => mret O
  end.

(** What a reference stands for in a store: the row, or the grid, read
    through it. *)
Definition row_in (h : store) (r : rowref) (row : rowval) : Prop :=
  match r, row with
  | RRef l, RArr cells => h !! l = Some (OCells cells)
  | RRefNullish, RNullish => True
  | _, _ => False
  end.

Definition matrix_in (h : store) (m : loc) (grid : list rowval) : Prop :=
  ∃ refs, h !! m = Some (ORows refs) ∧ Forall2 (row_in h) refs grid.

(** The result of [findGlobalMin] as a caller reads it in the store [h]. *)
Definition observe (h : store) (r : GlobalMinObject) : option GlobalMinResult :=
  match h !! positions_field r, h !! rowsWithMin_field r with
  | Some (OPositions ps), Some (OSet s) =>
      Some {| value := value_field r; positions := ps; rowsWithMin := s |}
  | _, _ => None
  end.

(** Fuel that lasts for every loop over the grid. *)
Definition enough_fuel (fuel : nat) (grid : list rowval) : Prop :=
  (length grid < fuel)%nat ∧ Forall (λ row, (row_length row < fuel)%nat) grid.

(** Two calls one after the other, on the same argument, with both
    results kept. *)
Definition twice {A B : Type} (f : A → ST B) (x : A) : ST (B * B) :=
  r1 ← f x; r2 ← f x; mret (r1, r2).

(** ** Auxiliary definitions used in the statements and proofs *)

(** The row in which every cell is replaced by its sign. *)
Definition sign_row (row : rowval) : rowval :=
  match row with
  | RArr cells => RArr ((λ v, JNum (int (signOf v))) <$> cells)
  | RNullish => RNullish
  end.

(** [span s signs]: how many leading entries of [signs] equal [s]. *)
Fixpoint span (s : Z) (signs : list Z) : nat :=
  match signs with
  | x :: rest => if x =? s then S (span s rest) else O
  | [] => O
  end.

(** The specification's total on a list of signs. *)
Definition total (signs : list Z) : nat :=
  sum_list (run_cost <$> (snd <$> filter (λ b, is_run b = true) (sign_blocks signs))).

(** One step of the scan of [findGlobalMin], on a cell with its position. *)
Definition visit (st : number * list Position) (pv : Position * jsval)
    : number * list Position :=
  visit_cell (rowIndex (fst pv)) (colIndex (fst pv)) (snd pv) st.

(** What the scan knows after the cells [scanned]: the running minimum is
    not NaN, the list holds exactly the scanned cells equal to it, in
    order, and no scanned candidate is below it. *)
Definition scan_invariant (scanned : list (Position * jsval))
    (st : number * list Position) : Prop :=
  is_NaN (fst st) = false
  ∧ snd st = fst <$> filter (λ pv, cell_is (fst st) (snd pv) = true) scanned
  ∧ ∀ p c, (p, JNum c) ∈ scanned → is_NaN c = false → num_lt c (fst st) = false.

(** A number that is a positive integer. *)
Definition positive_integer (n : number) : Prop := ∃ z : Z, 0 < z ∧ n = int z.

(** A row of exactly [cols] cells, all of them numbers. *)
Definition numeric_row (cols : number) (row : rowval) : Prop :=
  ∃ cells, row = RArr cells
           ∧ int (Z.of_nat (length cells)) = cols
           ∧ Forall (λ v, typeof_number v = true) cells.


(** The world after one more [console.log]. *)
Definition logged (line : string) (w : World) : World :=
  {| rng := rng w; drawn := drawn w; console := console w ++ [line]; isTTY := isTTY w |}.

(** A world whose random source always returns one half. *)
Definition half_world : World :=
  {| rng := λ _, Q2Qc (1 # 2); drawn := O; console := []; isTTY := false |}.

(** [has_triple signs]: three neighbouring entries of [signs] carry the
    same sign, and that sign is not neutral. *)
Fixpoint has_triple (signs : list Z) : bool :=
  match signs with
  | [] => false
  | a :: rest =>
      match rest with
      | b :: c :: _ => negb (a =? 0) && (a =? b) && (b =? c)
      | _ => false
      end || has_triple rest
  end.

(** Row-major order on positions: an earlier row, or the same row and an
    earlier column. *)
Definition pos_lt (p q : Position) : Prop :=
  (rowIndex p < rowIndex q)%nat
  ∨ (rowIndex p = rowIndex q ∧ (colIndex p < colIndex q)%nat).

(** The world after [k] more draws from the random source. *)
Definition advance (k : nat) (w : World) : World :=
  {| rng := rng w; drawn := k + drawn w; console := console w; isTTY := isTTY w |}.

(** What [randInt(min, max)] returns when [Math.random()] returns [r]. *)
Definition randInt_of (min max : number) (r : Qc) : number :=
  let '(lo, hi) := if num_gt min max then (max, min) else (min, max) in
  num_add (Math_floor (num_mul (Fin r) (num_add (num_sub hi lo) (int 1)))) lo.

(** The grid of [r] rows and [c] columns whose cell in row [i] and column
    [j] is computed from draw number [i * c + j] of those still to come. *)
Definition generated_grid (r c : nat) (min max : number) (w : World) : list rowval :=
  (λ i, RArr ((λ j, JNum (randInt_of min max (rng w (drawn w + i * c + j)))) <$> seq 0 c))
  <$> seq 0 r.

(** The world after the given lines have been logged, in order. *)
Definition log_all (lines : list string) (w : World) : World :=
  {| rng := rng w; drawn := drawn w; console := console w ++ lines; isTTY := isTTY w |}.

Section RenderLines.

Variable Number_toString_other : Qc → string.

(** The header line of the table, without the leading line break. *)
Definition table_header (rows : list rowval) : string :=
  let totalCols := max_list ((λ row, length (row_or_empty row)) <$> rows) in
  let colWidth := computeColWidth Number_toString_other rows in
  "     |"
  +:+ js_join "" ((λ c : nat, padStart ("c" +:+ pretty c) colWidth) <$> seq 0 totalCols)
  +:+ "  | minPos | replace".

(** What follows the row marker on the line of row [rowIndex]. *)
Definition row_line_body (rows : list rowval) (useColors : bool) (rowIndex : nat)
    : string :=
  let totalCols := max_list ((λ row, length (row_or_empty row)) <$> rows) in
  let colWidth := computeColWidth Number_toString_other rows in
  let globalMin := value (findGlobalMin rows) in
  let row := row_or_empty (row_at rows rowIndex) in
  let formattedCells :=
    (λ colIndex,
       let cellValue :=
         if (colIndex <? length row)%nat then index row colIndex
         else JStr EMPTY_CELL in
       formatCell Number_toString_other cellValue colWidth
         (strict_eq_min cellValue globalMin) useColors)
    <$> seq 0 totalCols in
  let positiveNumbers :=
    omap number_of (filter (λ v, typeof_number v && value_gt0 v = true) row) in
  let minPositiveStr :=
    if (length positiveNumbers =? 0)%nat then EMPTY_CELL
    else Number_toString Number_toString_other (Math_min positiveNumbers) in
  " r" +:+ padStart (pretty rowIndex) 2 +:+ " |"
  +:+ js_join "" formattedCells
  +:+ " | " +:+ padStart minPositiveStr 6
  +:+ " | " +:+ padStart (pretty (replacements_by_runs row)) 4.

(** The line of row [rowIndex]: the marker, then the body. *)
Definition row_line (rows : list rowval) (useColors : bool) (rowIndex : nat) : string :=
  (if bool_decide (rowIndex ∈ rowsWithMin (findGlobalMin rows))
   then ROW_MARKER else " ")
  +:+ row_line_body rows useColors rowIndex.

(** The summary line under the table. *)
Definition trailer_line (rows : list rowval) (useColors : bool) : string :=
  match value (findGlobalMin rows) with
  | None => "Глобальный минимум не найден (нет числовых значений)."
  | Some m =>
      let positionsStr :=
        js_join ", "
          ((λ p, "(r" +:+ pretty (rowIndex p) +:+ ",c" +:+ pretty (colIndex p) +:+ ")")
           <$> positions (findGlobalMin rows)) in
      if useColors
      then "Глобальный минимум: " +:+ red COLORS
           +:+ Number_toString Number_toString_other m
           +:+ reset COLORS +:+ " найден в позициях: " +:+ positionsStr
      else "Глобальный минимум: " +:+ Number_toString Number_toString_other m
           +:+ " найден в позициях: " +:+ positionsStr
  end.

(** Everything the renderer logs for a grid with at least one row. *)
Definition table_lines (rows : list rowval) (useColors : bool) : list string :=
  [NEWLINE +:+ table_header rows;
   js_repeat "-" (js_length (table_header rows))]
  ++ (row_line rows useColors <$> seq 0 (length rows))
  ++ [js_repeat "-" (js_length (table_header rows));
      trailer_line rows useColors;
      ""].

End RenderLines.

Global Instance number_eq_dec : EqDecision number.
Proof. solve_decision. Defined.

Global Instance jsval_eq_dec : EqDecision jsval.
Proof. solve_decision. Defined.

(** The number of positions at which two rows hold different cells. *)
Fixpoint changes (row row' : list jsval) : nat :=
  match row, row' with
  | a :: rest, a' :: rest' => ((if bool_decide (a = a') then 0 else 1) + changes rest rest')%nat
  | _, _ => O
  end.

(** The number of positions at which two lists of signs differ. *)
Fixpoint sign_changes (signs signs' : list Z) : nat :=
  match signs, signs' with
  | a :: rest, a' :: rest' =>
      ((if (a =? a')%Z then 0 else 1) + sign_changes rest rest')%nat
  | _, _ => O
  end.

(** The first three signs are equal and not neutral. *)
Definition starts_triple (signs : list Z) : bool :=
  match signs with
  | a :: b :: c :: _ => negb (a =? 0) && (a =? b) && (b =? c)
  | _ => false
  end.

(** The row in which the third cell of every triple met from the left is
    replaced by 0. *)
Fixpoint break_triples (row : list jsval) : list jsval :=
  match row with
  | [] => []
  | a :: rest =>
      match rest with
      | b :: c :: t =>
          if starts_triple [signOf a; signOf b; signOf c]
          then a :: b :: JNum (int 0) :: break_triples t
          else a :: break_triples rest
      | _ => a :: break_triples rest
      end
  end.

(** The cell with the opposite sign: a number is negated, anything else
    is left as it is. *)
Definition negate (v : jsval) : jsval :=
  match v with JNum n => JNum (num_neg n) | _ => v end.

(** A dimension that [Array.from] accepts: a positive integer below
    [2 ^ 32], the largest length an array can have being [2 ^ 32 - 1]. *)
Definition array_dimension (n : number) : Prop :=
  ∃ z : Z, 0 < z < 2 ^ 32 ∧ n = int z.

(** Integer bounds on which the arithmetic of [randInt] is exact: both
    are of magnitude below [2 ^ 53], and so is the number of integers
    from one to the other. *)
Definition safe_bounds (a b : Z) : Prop :=
  Z.abs a < 2 ^ 53 ∧ Z.abs b < 2 ^ 53 ∧ Z.abs (b - a) + 1 < 2 ^ 53.

(** A store with a grid of three rows at location 0, the middle row
    missing, and the grid it holds. *)
Definition sample_store : gmap nat object :=
  <[0%nat := ORows [RRef 1; RRefNullish; RRef 2]]>
    (<[1%nat := OCells [JNum (int 4); JNum (int 1); JNum (int 7)]]>
       (<[2%nat := OCells [JNum (int 1); JNull]]> ∅)).

Definition sample_grid : list rowval :=
  [RArr [JNum (int 4); JNum (int 1); JNum (int 7)]; RNullish;
   RArr [JNum (int 1); JNull]].

(** In a goal about the list [pre ++ x :: suf] read at index
    [S (length pre)], take [x] over to the prefix. *)
Ltac shift_prefix pre x suf :=
  replace (pre ++ x :: suf) with ((pre ++ [x]) ++ suf) by (by rewrite <- app_assoc);
  replace (S (length pre)) with (length (pre ++ [x]))
    by (rewrite length_app; simpl; lia).

(** * Properties *)

(** ** Numbers *)

Lemma Qc_ltb_lt (x y : Qc) : Qc_ltb x y = true ↔ (x < y)%Qc.
Proof. unfold Qc_ltb, Qclt, Qlt. apply Z.ltb_lt. Qed.

Lemma Qc_eqb_eq (x y : Qc) : Qc_eqb x y = true ↔ x = y.
Proof.
  unfold Qc_eqb. rewrite Qeq_bool_iff. split.
  - apply Qc_is_canon.
  - intros ->. reflexivity.
Qed.

Lemma num_eq_eq (a b : number) : num_eq a b = true → a = b.
Proof.
  destruct a, b; simpl; try discriminate; try reflexivity.
  intros H. apply Qc_eqb_eq in H. by subst.
Qed.

Lemma num_eq_refl (a : number) : is_NaN a = false → num_eq a a = true.
Proof. destruct a; simpl; try done. intros _. by apply Qc_eqb_eq. Qed.

Lemma num_lt_irrefl (a : number) : num_lt a a = false.
Proof.
  destruct a; simpl; try done.
  apply not_true_is_false. rewrite Qc_ltb_lt. apply (irreflexivity (<)%Qc).
Qed.

Lemma num_lt_trans (a b c : number) :
  num_lt a b = true → num_lt b c = true → num_lt a c = true.
Proof.
  destruct a, b, c; simpl; try done.
  rewrite !Qc_ltb_lt. apply Qclt_trans.
Qed.

(** ** The sign-run analyzer *)

(** Zero, NaN and everything that is not a number are neutral. *)
Lemma signOf_neutral :
  signOf (JNum (int 0)) = 0 ∧ signOf (JNum NaN) = 0 ∧ signOf JUndefined = 0
  ∧ signOf JNull = 0 ∧ ∀ s, signOf (JStr s) = 0.
Proof. repeat split. Qed.

Lemma signOf_range (v : jsval) : signOf v = 0 ∨ signOf v = 1 ∨ signOf v = -1.
Proof. unfold signOf. repeat case_match; auto. Qed.


Lemma span_le (s : Z) (signs : list Z) : (span s signs ≤ length signs)%nat.
Proof. induction signs as [|x rest IH]; simpl; [lia|]. case_match; lia. Qed.

Lemma sign_blocks_step (s : Z) (rest : list Z) :
  sign_blocks (s :: rest) =
  match sign_blocks rest with
  | (s', n) :: blocks =>
      if s =? s' then (s, S n) :: blocks else (s, 1%nat) :: (s', n) :: blocks
  | [] => [(s, 1%nat)]
  end.
Proof. reflexivity. Qed.

Lemma sign_blocks_cons (s : Z) (rest : list Z) :
  sign_blocks (s :: rest) = (s, S (span s rest)) :: sign_blocks (drop (span s rest) rest).
Proof.
  revert s. induction rest as [|y rest IH]; intros s; [done|].
  rewrite sign_blocks_step, (IH y). cbn [span].
  rewrite (Z.eqb_sym y s). destruct (Z.eqb_spec s y) as [->|Hne].
  - done.
  - cbn [drop]. by rewrite (IH y).
Qed.

Lemma total_cons (s : Z) (rest : list Z) :
  total (s :: rest) =
  ((if (s =? 0)%Z then 0 else S (span s rest) / 3) + total (drop (span s rest) rest))%nat.
Proof.
  unfold total. rewrite sign_blocks_cons.
  destruct (Z.eqb_spec s 0) as [->|Hne].
  - by rewrite filter_cons_False by (unfold is_run; simpl; done).
  - rewrite filter_cons_True; [done|].
    unfold is_run. simpl. by rewrite (proj2 (Z.eqb_neq s 0)).
Qed.

Lemma total_cons_neutral (rest : list Z) : total (0 :: rest) = total rest.
Proof.
  rewrite total_cons. simpl. destruct rest as [|y rest]; [done|].
  cbn [span]. destruct (Z.eqb_spec y 0) as [->|Hne]; [|done].
  cbn [drop]. rewrite total_cons. done.
Qed.

Lemma index_middle (pre : list jsval) (x : jsval) (suf : list jsval) :
  index (pre ++ x :: suf) (length pre) = x.
Proof. unfold index. by rewrite list_lookup_middle. Qed.

Lemma chain_loop_spec (suf pre : list jsval) (s : Z) (chain fuel : nat) :
  (length suf < fuel)%nat →
  chain_loop fuel (pre ++ suf) (length (pre ++ suf)) s (length pre) chain
  = Some ((length pre + span s (signOf <$> suf))%nat,
          (chain + span s (signOf <$> suf))%nat).
Proof.
  revert pre chain fuel. induction suf as [|x suf IH]; intros pre chain fuel Hfuel;
    (destruct fuel as [|fuel]; [simpl in Hfuel; lia|]); cbn [chain_loop].
  - rewrite app_nil_r. rewrite (proj2 (Nat.ltb_ge _ _)) by lia. simpl.
    do 2 f_equal; lia.
  - rewrite (proj2 (Nat.ltb_lt _ _)) by (rewrite length_app; simpl; lia).
    rewrite index_middle. cbn [fmap list_fmap span andb].
    destruct (signOf x =? s).
    + shift_prefix pre x suf.
      rewrite IH by (simpl in Hfuel; lia).
      rewrite length_app. simpl. do 2 f_equal; lia.
    + do 2 f_equal; lia.
Qed.

Lemma run_cost_guard (r k : nat) :
  (if (3 <=? k)%nat then (r + k / 3)%nat else r) = (r + k / 3)%nat.
Proof.
  destruct (Nat.leb_spec 3 k) as [H|H]; [done|].
  rewrite Nat.div_small by lia. lia.
Qed.

Lemma scan_loop_spec (n : nat) :
  ∀ (suf pre : list jsval) (r fuel : nat),
    (length suf ≤ n)%nat → (length suf < fuel)%nat →
    scan_loop fuel (pre ++ suf) (length (pre ++ suf)) (length pre) r
    = Some (r + total (signOf <$> suf))%nat.
Proof.
  induction n as [|n IH]; intros suf pre r fuel Hn Hfuel;
    (destruct fuel as [|fuel]; [lia|]).
  - destruct suf; [|simpl in Hn; lia]. cbn [scan_loop].
    rewrite app_nil_r, (proj2 (Nat.ltb_ge _ _)) by lia. f_equal. unfold total. simpl. lia.
  - destruct suf as [|x suf].
    { cbn [scan_loop].
      rewrite app_nil_r, (proj2 (Nat.ltb_ge _ _)) by lia. f_equal. unfold total. simpl. lia. }
    cbn [scan_loop].
    rewrite (proj2 (Nat.ltb_lt _ _)) by (rewrite length_app; simpl; lia).
    rewrite index_middle. cbn zeta.
    destruct (Z.eqb_spec (signOf x) 0) as [H0|H0].
    + shift_prefix pre x suf.
      rewrite IH by (simpl in *; lia).
      cbn [fmap list_fmap]. rewrite H0, total_cons_neutral. done.
    + rewrite chain_loop_spec by done.
      cbn [fmap list_fmap span]. rewrite Z.eqb_refl.
      set (k := span (signOf x) (signOf <$> suf)).
      assert (Hk : (k ≤ length suf)%nat).
      { unfold k. etrans; [apply span_le|]. by rewrite length_fmap. }
      rewrite run_cost_guard.
      replace (pre ++ x :: suf) with ((pre ++ x :: take k suf) ++ drop k suf)
        by (rewrite <- app_assoc; simpl; by rewrite take_drop).
      replace (length pre + S k)%nat with (length (pre ++ x :: take k suf))
        by (rewrite length_app; simpl; rewrite length_take; lia).
      rewrite IH by (rewrite length_drop; simpl in *; lia).
      rewrite total_cons, fmap_drop. fold k.
      destruct (Z.eqb_spec (signOf x) 0); [done|]. f_equal. simpl. lia.
Qed.

(** Any amount of fuel above the length of the row gives the same result. *)
Lemma minReplacements_fuel_enough (fuel : nat) (cells : list jsval) :
  (length cells < fuel)%nat →
  minReplacements_fuel fuel (RArr cells) = Some (replacements_by_runs cells).
Proof.
  intros Hfuel. unfold minReplacements_fuel.
  destruct cells as [|x cells]; [done|].
  cbn [length Nat.eqb].
  change (scan_loop fuel (x :: cells) (S (length cells)) 0 0)
    with (scan_loop fuel ([] ++ x :: cells) (length ([] ++ x :: cells)) (length (@nil jsval)) 0).
  rewrite (scan_loop_spec (length (x :: cells))) by done.
  done.
Qed.

(** The blocks of [sign_blocks] are a faithful cutting of the row: laid
    end to end they give the row back, no block is empty, and two
    neighbouring blocks differ in sign (so every block is maximal). *)
Lemma sign_blocks_expand (signs : list Z) :
  mjoin ((λ b, replicate (snd b) (fst b)) <$> sign_blocks signs) = signs.
Proof.
  induction signs as [|s rest IH]; [done|].
  rewrite sign_blocks_step.
  destruct (sign_blocks rest) as [|[s' n] blocks]; simpl in *.
  - by rewrite <- IH.
  - destruct (Z.eqb_spec s s') as [->|Hne]; simpl; by rewrite <- IH.
Qed.

Lemma sign_blocks_nonempty (signs : list Z) :
  Forall (λ b, (1 ≤ snd b)%nat) (sign_blocks signs).
Proof.
  induction signs as [|s rest IH]; [constructor|].
  rewrite sign_blocks_step.
  destruct (sign_blocks rest) as [|[s' n] blocks].
  - repeat constructor.
  - inversion IH; subst. destruct (s =? s'); repeat constructor; simpl; auto; lia.
Qed.

Lemma sign_blocks_maximal (signs : list Z) (k : nat) (b1 b2 : Z * nat) :
  sign_blocks signs !! k = Some b1 →
  sign_blocks signs !! S k = Some b2 →
  fst b1 ≠ fst b2.
Proof.
  revert k b1 b2. induction signs as [|s rest IH]; intros k b1 b2; [done|].
  rewrite sign_blocks_step.
  destruct (sign_blocks rest) as [|[s' n] blocks] eqn:E; [done|].
  destruct (Z.eqb_spec s s') as [->|Hne].
  - destruct k as [|k]; simpl.
    + intros [= <-] H2. simpl. apply (IH O (s', n) b2); done.
    + intros H1 H2. apply (IH (S k) b1 b2); done.
  - destruct k as [|k]; simpl.
    + intros [= <-] [= <-]. done.
    + intros H1 H2. apply (IH k b1 b2); done.
Qed.

Lemma div3_add_le (a b : nat) : (a / 3 + b / 3 ≤ (a + b) / 3)%nat.
Proof.
  pose proof (Nat.div_mod_eq a 3). pose proof (Nat.div_mod_eq b 3).
  pose proof (Nat.div_mod_eq (a + b) 3).
  pose proof (Nat.mod_upper_bound a 3). pose proof (Nat.mod_upper_bound b 3).
  pose proof (Nat.mod_upper_bound (a + b) 3). lia.
Qed.

Lemma total_le_length (n : nat) :
  ∀ signs : list Z, (length signs ≤ n)%nat → (total signs ≤ length signs / 3)%nat.
Proof.
  induction n as [|n IH]; intros [|s rest] Hn; try (simpl in Hn; lia);
    try (unfold total; simpl; lia).
  rewrite total_cons.
  pose proof (span_le s rest) as Hk.
  assert (Hrec : (total (drop (span s rest) rest) ≤ (length rest - span s rest) / 3)%nat).
  { rewrite <- length_drop. apply IH. rewrite length_drop. simpl in Hn. lia. }
  assert (Hhead : ((if (s =? 0)%Z then 0 else S (span s rest) / 3) ≤ S (span s rest) / 3)%nat).
  { destruct (s =? 0)%Z; lia. }
  etrans; [apply Nat.add_le_mono; [apply Hhead | apply Hrec]|].
  etrans; [apply div3_add_le|].
  apply Nat.Div0.div_le_mono. simpl. lia.
Qed.

Lemma replacements_by_runs_total (row : list jsval) :
  replacements_by_runs row = total (signOf <$> row).
Proof. reflexivity. Qed.

Lemma minReplacements_array (cells : list jsval) :
  minReplacementsToAvoidTriples (RArr cells) = Some (replacements_by_runs cells).
Proof. apply minReplacements_fuel_enough. simpl. lia. Qed.

Lemma signOf_idem (v : jsval) : signOf (JNum (int (signOf v))) = signOf v.
Proof. destruct (signOf_range v) as [-> | [-> | ->]]; reflexivity. Qed.


(** C6. The function returns a natural number on every input, whatever
    the cells are, and returns 0 on an empty row and on an input that is
    not an array. *)
Theorem minReplacements_total (row : rowval) :
  (∃ n : nat, minReplacementsToAvoidTriples row = Some n)
  ∧ minReplacementsToAvoidTriples (RArr []) = Some 0%nat
  ∧ minReplacementsToAvoidTriples RNullish = Some 0%nat.
Proof.
  split; [|split; reflexivity].
  destruct row as [cells|]; [|by exists 0%nat].
  eexists. apply minReplacements_array.
Qed.

(** C9. The result depends on the signs of the cells only: replacing
    every cell by its sign leaves the result unchanged. *)
Theorem minReplacements_sign_only (row : rowval) :
  minReplacementsToAvoidTriples row = minReplacementsToAvoidTriples (sign_row row).
Proof.
  destruct row as [cells|]; [|done]. cbn [sign_row].
  rewrite !minReplacements_array, !replacements_by_runs_total.
  do 2 f_equal. rewrite <- list_fmap_compose.
  apply list_fmap_ext. intros _ v _. simpl. by rewrite signOf_idem.
Qed.

(** C10. On a row of [n] cells the result is at most [n / 3]. *)
Theorem minReplacements_upper_bound (row : rowval) :
  ∃ r : nat,
    minReplacementsToAvoidTriples row = Some r ∧ (r ≤ row_length row / 3)%nat.
Proof.
  destruct row as [cells|]; [|exists 0%nat; split; [done|simpl; lia]].
  exists (replacements_by_runs cells). split; [apply minReplacements_array|].
  rewrite replacements_by_runs_total. cbn [row_length].
  rewrite <- (length_fmap signOf cells). by apply (total_le_length (length (signOf <$> cells))).
Qed.

(** ** The minimum locator *)

Lemma for_range_imap {A B St : Type} (d : A) (g : nat → A → B) (f : St → B → St) :
  ∀ (suf pre : list A) (st : St),
    foldl (λ acc k, f acc (g k (default d ((pre ++ suf) !! k)))) st
          (seq (length pre) (length suf))
    = foldl f st (imap (λ k x, g (length pre + k)%nat x) suf).
Proof.
  induction suf as [|x suf IH]; intros pre st; [done|].
  cbn [length seq foldl]. rewrite imap_cons. cbn [foldl].
  rewrite list_lookup_middle by done. cbn [default]. rewrite Nat.add_0_r.
  shift_prefix pre x suf.
  rewrite IH. f_equal. apply imap_ext. intros k y _. simpl.
  f_equal. rewrite length_app. simpl. lia.
Qed.

Lemma foldl_mjoin {B St : Type} (f : St → B → St) (ls : list (list B)) (st : St) :
  foldl (λ acc l, foldl f acc l) st ls = foldl f st (mjoin ls).
Proof.
  revert st. induction ls as [|l ls IH]; intros st; [done|].
  simpl. by rewrite foldl_app, IH.
Qed.

Lemma scan_row_imap (r : nat) (row : list jsval) (st : number * list Position) :
  scan_row r row st = foldl visit st (imap (λ c v, (mkPos r c, v)) row).
Proof.
  unfold scan_row, for_range.
  exact (for_range_imap JUndefined (λ c v, (mkPos r c, v)) visit row [] st).
Qed.

Lemma foldl_ext_seq {St : Type} (f g : St → nat → St) (l : list nat) (st : St) :
  (∀ acc k, f acc k = g acc k) → foldl f st l = foldl g st l.
Proof.
  intros Hfg. revert st. induction l as [|k l IH]; intros st; [done|].
  simpl. by rewrite Hfg, IH.
Qed.

Lemma scan_matrix_row_major (matrix : list rowval) :
  scan_matrix matrix = foldl visit (PosInf, []) (row_major matrix).
Proof.
  unfold scan_matrix, for_range, row_major.
  rewrite <- foldl_mjoin.
  etrans; [|exact (for_range_imap RNullish
                     (λ r row, imap (λ c v, (mkPos r c, v)) (row_or_empty row))
                     (λ acc l, foldl visit acc l) matrix [] (PosInf, []))].
  apply foldl_ext_seq. intros acc k. apply scan_row_imap.
Qed.

Lemma elem_of_row_major (matrix : list rowval) (p : Position) (v : jsval) :
  (p, v) ∈ row_major matrix ↔ cell_at matrix p = Some v.
Proof.
  unfold row_major, cell_at, row_at. rewrite list_elem_of_join. split.
  - intros (l & Hin & Hl).
    apply elem_of_lookup_imap in Hl as (r & row & -> & Hrow).
    apply elem_of_lookup_imap in Hin as (c & v' & [= -> ->] & Hc).
    simpl. by rewrite Hrow.
  - destruct p as [r c]. simpl. intros Hc.
    destruct (matrix !! r) as [row|] eqn:Hrow; [|done].
    exists (imap (λ c v, (mkPos r c, v)) (row_or_empty row)). split.
    + by apply (elem_of_lookup_imap_2 (λ c v, (mkPos r c, v))).
    + by apply (elem_of_lookup_imap_2
                  (λ r row, imap (λ c v, (mkPos r c, v)) (row_or_empty row))).
Qed.

Lemma cell_is_eq (m : number) (v : jsval) : cell_is m v = true → v = JNum m.
Proof.
  destruct v as [c| | |]; simpl; try done. intros H. by rewrite (num_eq_eq _ _ H).
Qed.

Lemma filter_cell_is_below (c m : number) (scanned : list (Position * jsval)) :
  num_lt c m = true →
  (∀ p c', (p, JNum c') ∈ scanned → is_NaN c' = false → num_lt c' m = false) →
  filter (λ pv, cell_is c (snd pv) = true) scanned = [].
Proof.
  intros Hlt Hlow. induction scanned as [|[p v] scanned IH]; [done|].
  rewrite filter_cons_False.
  - apply IH. intros p' c' Hin. apply (Hlow p'). by right.
  - simpl. intros Hv. apply cell_is_eq in Hv as ->.
    assert (Hnan : is_NaN c = false) by (by destruct c).
    rewrite (Hlow p c) in Hlt; [done| by left | done].
Qed.

Lemma visit_invariant (scanned : list (Position * jsval))
    (st : number * list Position) (pv : Position * jsval) :
  scan_invariant scanned st → scan_invariant (scanned ++ [pv]) (visit st pv).
Proof.
  destruct st as [m ps], pv as [[r k] v]. intros (Hnan & Hps & Hlow). simpl in *.
  assert (Hskip : cell_is m v = false →
                  (∀ c, v = JNum c → is_NaN c = false → num_lt c m = false) →
                  scan_invariant (scanned ++ [(mkPos r k, v)]) (m, ps)).
  { intros Hv Hc. split; [done|]. split; simpl.
    - rewrite filter_app, filter_cons_False, filter_nil, app_nil_r; [done|].
      simpl. by rewrite Hv.
    - intros p c [Hin|Hin%list_elem_of_singleton]%elem_of_app Hcn; [by eapply Hlow|].
      inversion Hin; subst. by apply (Hc c). }
  unfold visit, visit_cell. simpl.
  destruct v as [c| | |]; try (apply Hskip; [done|congruence]).
  destruct (is_NaN c) eqn:Hc.
  { apply Hskip; [by destruct c|]. intros ? [= <-]. congruence. }
  destruct (num_lt c m) eqn:Hlt.
  - split; [done|]. split; simpl.
    + rewrite filter_app, (filter_cell_is_below c m) by done.
      rewrite filter_cons_True; [done|]. simpl. by apply num_eq_refl.
    + intros p c' [Hin|Hin%list_elem_of_singleton]%elem_of_app Hcn.
      * destruct (num_lt c' c) eqn:Hlt'; [|done].
        pose proof (num_lt_trans _ _ _ Hlt' Hlt) as Habs.
        by rewrite (Hlow p c' Hin Hcn) in Habs.
      * injection Hin as -> ->. apply num_lt_irrefl.
  - destruct (num_eq c m) eqn:Heq.
    + split; [done|]. split; simpl.
      * rewrite filter_app, fmap_app, <- Hps.
        rewrite filter_cons_True; [done|]. done.
      * intros p c' [Hin|Hin%list_elem_of_singleton]%elem_of_app Hcn; [by eapply Hlow|].
        injection Hin as -> ->. done.
    + apply Hskip; [done|]. intros ? [= <-] _. done.
Qed.

Lemma foldl_visit_invariant (l scanned : list (Position * jsval))
    (st : number * list Position) :
  scan_invariant scanned st → scan_invariant (scanned ++ l) (foldl visit st l).
Proof.
  revert scanned st. induction l as [|pv l IH]; intros scanned st Hinv.
  - by rewrite app_nil_r.
  - simpl. rewrite (cons_middle pv scanned l), app_assoc.
    apply IH. by apply visit_invariant.
Qed.

Lemma scan_matrix_invariant (matrix : list rowval) :
  scan_invariant (row_major matrix) (scan_matrix matrix).
Proof.
  rewrite scan_matrix_row_major.
  apply (foldl_visit_invariant (row_major matrix) [] (PosInf, [])).
  split; [done|]. split; [done|]. intros p c Hin. by apply elem_of_nil in Hin.
Qed.

Lemma findGlobalMin_fields (matrix : list rowval) :
  value (findGlobalMin matrix)
  = (if num_eq (fst (scan_matrix matrix)) PosInf then None
     else Some (fst (scan_matrix matrix)))
  ∧ positions (findGlobalMin matrix) = snd (scan_matrix matrix).
Proof. unfold findGlobalMin. by destruct (scan_matrix matrix). Qed.

(** The list of positions is the list of all occurrences of the running
    minimum, in row-major order. *)
Lemma findGlobalMin_positions (matrix : list rowval) :
  positions (findGlobalMin matrix) = occurrences (fst (scan_matrix matrix)) matrix.
Proof.
  destruct (findGlobalMin_fields matrix) as [_ ->].
  by destruct (scan_matrix_invariant matrix) as (_ & -> & _).
Qed.

Lemma findGlobalMin_value_Some (matrix : list rowval) (m : number) :
  value (findGlobalMin matrix) = Some m → fst (scan_matrix matrix) = m ∧ m ≠ PosInf.
Proof.
  destruct (findGlobalMin_fields matrix) as [-> _].
  destruct (num_eq _ PosInf) eqn:E; [done|]. intros [= <-]. split; [done|].
  intros Hm. by rewrite Hm in E.
Qed.

(** When a minimum is reported, the positions are all its occurrences in
    row-major order, every one of them points at a cell equal to it, and no
    candidate cell is smaller. *)
Lemma findGlobalMin_reported (matrix : list rowval) (m : number) :
  value (findGlobalMin matrix) = Some m →
  positions (findGlobalMin matrix) = occurrences m matrix
  ∧ (∀ p, p ∈ positions (findGlobalMin matrix) → cell_at matrix p = Some (JNum m))
  ∧ (∀ p c, cell_at matrix p = Some (JNum c) → is_NaN c = false → num_lt c m = false).
Proof.
  intros Hv. apply findGlobalMin_value_Some in Hv as [Hm _].
  pose proof (findGlobalMin_positions matrix) as Hpos. rewrite Hm in Hpos.
  split; [done|]. split.
  - intros p. rewrite Hpos. unfold occurrences.
    intros ([p' v] & -> & [Hv Hin]%list_elem_of_filter)%list_elem_of_fmap.
    simpl in *. apply cell_is_eq in Hv as ->. by apply elem_of_row_major.
  - intros p c Hc Hnan.
    destruct (scan_matrix_invariant matrix) as (_ & _ & Hlow).
    rewrite Hm in Hlow. apply (Hlow p c); [|done]. by apply elem_of_row_major.
Qed.

Example findGlobalMin_example :
  let grid := [RArr [JNum (int 5); JNum (int 1)]; RArr [JNum (int 1); JNum (int 3)]] in
  value (findGlobalMin grid) = Some (int 1)
  ∧ positions (findGlobalMin grid) = [mkPos 0 1; mkPos 1 0].
Proof. split; reflexivity. Qed.

(** C2. On the grid whose only cell is [Infinity] the returned value is
    [null] although one position is returned, and that position points at
    a cell that holds a number: the returned positions do not all point at
    cells equal to the returned value. *)
Theorem findGlobalMin_infinity_cell :
  let grid := [RArr [JNum PosInf]] in
  value (findGlobalMin grid) = None
  ∧ positions (findGlobalMin grid) = [mkPos 0 0]
  ∧ cell_at grid (mkPos 0 0) = Some (JNum PosInf).
Proof. repeat split. Qed.

Lemma foldl_visit_no_candidate (l : list (Position * jsval))
    (st : number * list Position) :
  (∀ pv, pv ∈ l → is_candidate (snd pv) = false) → foldl visit st l = st.
Proof.
  revert st. induction l as [|[p v] l IH]; intros st Hl; [done|].
  simpl. rewrite IH by (intros pv Hin; apply Hl; by right).
  assert (Hv : is_candidate v = false) by (apply (Hl (p, v)); by left).
  unfold visit, visit_cell. simpl.
  destruct v as [c| | |]; try done. by destruct c.
Qed.

(** C3. On a grid none of whose cells is a number other than NaN, the
    returned value is [null] and the list of positions is empty. *)
Theorem findGlobalMin_no_candidate (matrix : list rowval) :
  (∀ p v, cell_at matrix p = Some v → is_candidate v = false) →
  value (findGlobalMin matrix) = None ∧ positions (findGlobalMin matrix) = [].
Proof.
  intros Hnone.
  destruct (findGlobalMin_fields matrix) as [-> ->].
  rewrite scan_matrix_row_major, foldl_visit_no_candidate; [done|].
  intros [p v] Hin. apply (Hnone p). by apply elem_of_row_major.
Qed.

Lemma findGlobalMin_no_candidate_witness :
  let grid := [RArr [JNum NaN; JStr "x"]; RNullish; RArr [JUndefined; JNull]] in
  value (findGlobalMin grid) = None ∧ positions (findGlobalMin grid) = [].
Proof.
  apply findGlobalMin_no_candidate.
  intros [r c] v.
  destruct r as [|[|[|r]]]; destruct c as [|[|c]]; simpl;
    intros [= <-] || (intros; done); reflexivity.
Defined.

(** ** Rounding *)

Lemma scale2_nonneg (x : Q) (k : Z) : (0 <= x)%Q → (0 <= scale2 x k)%Q.
Proof.
  intros Hx. unfold scale2. destruct (Z.leb_spec 0 k).
  - apply Qmult_le_0_compat; [done|]. rewrite <- (Zle_Qle 0). apply Z.pow_nonneg. lia.
  - apply Qle_shift_div_l.
    + rewrite <- (Zlt_Qlt 0). apply Z.pow_pos_nonneg; lia.
    + by rewrite Qmult_0_l.
Qed.

Lemma scale2_int_down (z j : Z) :
  0 ≤ j → (scale2 (inject_Z (z * 2 ^ j)) (- j) == inject_Z z)%Q.
Proof.
  intros Hj. unfold scale2. destruct (Z.leb_spec 0 (- j)) as [H0|H0].
  - replace j with 0 by lia. simpl. rewrite Z.mul_1_r. apply Qmult_1_r.
  - rewrite Z.opp_involutive, inject_Z_mult. apply Qdiv_mult_l.
    intros H.
    assert (Hp : 0 < 2 ^ j) by (apply Z.pow_pos_nonneg; lia).
    rewrite (Zlt_Qlt 0) in Hp. rewrite H in Hp. by apply Qlt_irrefl in Hp.
Qed.

Lemma round_half_even_int (k : Z) : round_half_even (inject_Z k) = k.
Proof.
  unfold round_half_even. rewrite Qfloor_Z.
  assert (H : (inject_Z k - inject_Z k ?= 1 # 2)%Q = Lt).
  { apply Qlt_alt. unfold Qminus. rewrite Qplus_opp_r. done. }
  by rewrite H.
Qed.

Lemma round_half_even_nonneg (m : Q) : (0 <= m)%Q → 0 ≤ round_half_even m.
Proof.
  intros Hm. unfold round_half_even.
  assert (Hf : 0 ≤ Qfloor m) by (change 0 with (Qfloor 0); by apply Qfloor_resp_le).
  destruct (_ ?= _)%Q; [destruct (Z.even _)| |]; lia.
Qed.

Lemma round_half_even_below (m : Q) (K : Z) :
  (m + (1 # 2) < inject_Z K)%Q → round_half_even m < K.
Proof.
  intros Hm. pose proof (Qfloor_le m) as Hf.
  assert (Hlt : Qfloor m < K).
  { rewrite Zlt_Qlt. eapply Qle_lt_trans; [exact Hf|].
    eapply Qle_lt_trans; [|exact Hm]. rewrite <- (Qplus_0_r m) at 1.
    apply Qplus_le_r. done. }
  assert (Hup : (1 # 2 <= m - inject_Z (Qfloor m))%Q → Qfloor m + 1 < K).
  { intros Hd. rewrite Zlt_Qlt. eapply Qle_lt_trans; [|exact Hm].
    rewrite inject_Z_plus.
    assert (Hsplit : (m + (1 # 2)
                      == inject_Z (Qfloor m) + (m - inject_Z (Qfloor m) + (1 # 2)))%Q)
      by ring.
    rewrite Hsplit. apply Qplus_le_r.
    change (inject_Z 1) with 1%Q.
    assert (Hhalf : (1 == (1 # 2) + (1 # 2))%Q) by reflexivity.
    rewrite Hhalf at 1. by apply Qplus_le_l. }
  unfold round_half_even.
  destruct (_ ?= _)%Q eqn:E.
  - apply Qeq_alt in E. destruct (Z.even _); [done|].
    apply Hup. rewrite E. apply Qle_refl.
  - done.
  - apply Qgt_alt in E. apply Hup. by apply Qlt_le_weak.
Qed.

(** [2 ^ e <= x] for the exponent of a positive [x]. *)
Lemma ilog2_lower (x : Q) :
  (0 < x)%Q → (1 <= scale2 x (- ilog2 x))%Q.
Proof.
  intros Hx. unfold ilog2.
  destruct (Qle_bool 1 x) eqn:H1.
  - apply Qle_bool_iff in H1.
    assert (Hf : 1 ≤ Qfloor x) by (change 1 with (Qfloor 1); by apply Qfloor_resp_le).
    pose proof (Z.log2_nonneg (Qfloor x)) as Hl.
    destruct (Z.log2_spec (Qfloor x)) as [Hlo _]; [lia|].
    unfold scale2. destruct (Z.leb_spec 0 (- Z.log2 (Qfloor x))) as [H0|H0].
    + replace (- Z.log2 (Qfloor x)) with 0 by lia. simpl. by rewrite Qmult_1_r.
    + rewrite Z.opp_involutive. apply Qle_shift_div_l.
      * rewrite <- (Zlt_Qlt 0). apply Z.pow_pos_nonneg; lia.
      * rewrite Qmult_1_l. eapply Qle_trans; [|apply Qfloor_le]. by rewrite <- Zle_Qle.
  - assert (Hlt : (x < 1)%Q).
    { apply Qnot_le_lt. intros H. apply Qle_bool_iff in H. congruence. }
    rewrite Z.opp_involutive.
    pose proof (Z.log2_up_nonneg (Qceiling (/ x))) as Hl.
    unfold scale2. rewrite (proj2 (Z.leb_le _ _) Hl).
    assert (Hc : (/ x <= inject_Z (2 ^ Z.log2_up (Qceiling (/ x))))%Q).
    { eapply Qle_trans; [apply Qle_ceiling|]. rewrite <- Zle_Qle.
      destruct (Z.le_gt_cases (Qceiling (/ x)) 1) as [Hc1|Hc1].
      - etrans; [exact Hc1|]. pose proof (Z.pow_pos_nonneg 2 (Z.log2_up (Qceiling (/ x)))).
        lia.
      - by destruct (Z.log2_up_spec (Qceiling (/ x))). }
    apply (Qmult_le_l _ _ x) in Hc; [|done].
    rewrite Qmult_inv_r in Hc; [done|].
    intros H0. rewrite H0 in Hx. by apply Qlt_irrefl in Hx.
Qed.

Lemma ilog2_lt (x : Q) (K : Z) :
  0 < K → (x < inject_Z (2 ^ K))%Q → ilog2 x < K.
Proof.
  intros HK Hx. unfold ilog2. destruct (Qle_bool 1 x) eqn:H1.
  - apply Qle_bool_iff in H1.
    assert (Hf : 1 ≤ Qfloor x) by (change 1 with (Qfloor 1); by apply Qfloor_resp_le).
    apply Z.log2_lt_pow2; [lia|]. rewrite Zlt_Qlt.
    eapply Qle_lt_trans; [apply Qfloor_le|done].
  - pose proof (Z.log2_up_nonneg (Qceiling (/ x))). lia.
Qed.

Lemma pow2_pos (j : Z) : 0 ≤ j → 0 < 2 ^ j.
Proof. intros. apply Z.pow_pos_nonneg; lia. Qed.

Lemma scale2_up (x : Q) (j : Z) : 0 ≤ j → scale2 x j = (x * inject_Z (2 ^ j))%Q.
Proof. intros Hj. unfold scale2. by rewrite (proj2 (Z.leb_le 0 j)). Qed.

Lemma scale2_down_lt (M n j : Z) :
  0 ≤ j → M < n * 2 ^ j → (scale2 (inject_Z M) (- j) < inject_Z n)%Q.
Proof.
  intros Hj HM. pose proof (pow2_pos j Hj) as Hp.
  assert (HMQ : (inject_Z M < inject_Z n * inject_Z (2 ^ j))%Q)
    by (by rewrite <- inject_Z_mult, <- Zlt_Qlt).
  unfold scale2. destruct (Z.leb_spec 0 (- j)) as [H0|H0].
  - replace j with 0 in * by lia. change (- 0) with 0. simpl in *.
    by rewrite Qmult_1_r in *.
  - rewrite Z.opp_involutive. apply Qlt_shift_div_r; [by rewrite <- (Zlt_Qlt 0)|done].
Qed.

Lemma round_pos_int (z : Z) :
  0 < z < 2 ^ 53 →
  ∃ v, round_pos (inject_Z z) = Some v ∧ (v == inject_Z z)%Q.
Proof.
  intros [Hz0 Hz]. unfold round_pos.
  assert (He : ilog2 (inject_Z z) < 53) by (apply ilog2_lt; [lia|by rewrite <- Zlt_Qlt]).
  set (qe := Z.max (ilog2 (inject_Z z) - 52) (-1074)).
  assert (Hqe : qe ≤ 0) by (unfold qe; lia).
  rewrite (scale2_up _ (- qe)) by lia. rewrite <- inject_Z_mult, round_half_even_int.
  pose proof (scale2_int_down z (- qe) ltac:(lia)) as Hv.
  rewrite Z.opp_involutive in Hv.
  destruct (Qle_bool _ _) eqn:Hover.
  - apply Qle_bool_iff in Hover. rewrite Hv, <- Zle_Qle in Hover.
    assert (2 ^ 53 < 2 ^ 1024) by (apply Z.pow_lt_mono_r; lia). lia.
  - eexists. split; [reflexivity|exact Hv].
Qed.

Lemma Qdiv_ge_1 (x c : Q) : (0 < c)%Q → (1 <= x / c)%Q → (c <= x)%Q.
Proof.
  intros Hc H. apply (proj2 (Qmult_le_r _ _ c Hc)) in H.
  rewrite Qmult_1_l in H.
  assert (Hx : (x / c * c == x)%Q).
  { field. intros H0. rewrite H0 in Hc. by apply Qlt_irrefl in Hc. }
  by rewrite Hx in H.
Qed.

Lemma round_pos_below (x : Q) (n : Z) :
  (0 < x)%Q → 1 ≤ n < 2 ^ 53 →
  (x * inject_Z (2 ^ 53) <= inject_Z n * inject_Z (2 ^ 53 - 1))%Q →
  ∃ v, round_pos x = Some v ∧ (0 <= v)%Q ∧ (v < inject_Z n)%Q.
Proof.
  intros Hx [Hn1 Hn] Hr. unfold round_pos.
  assert (H53 : (0 < inject_Z (2 ^ 53))%Q) by done.
  assert (Hxn : (x < inject_Z n)%Q).
  { apply (Qmult_lt_r _ _ (inject_Z (2 ^ 53))); [done|].
    eapply Qle_lt_trans; [exact Hr|]. apply Qmult_lt_l; [rewrite <- (Zlt_Qlt 0); lia|].
    by rewrite <- Zlt_Qlt. }
  assert (He : ilog2 x < 53).
  { apply ilog2_lt; [lia|]. eapply Qlt_trans; [exact Hxn|]. by rewrite <- Zlt_Qlt. }
  pose proof (ilog2_lower x Hx) as Hlow.
  set (e := ilog2 x) in *. clearbody e. set (qe := Z.max (e - 52) (-1074)).
  assert (Hqe : qe ≤ 0) by (unfold qe; lia).
  set (j := - qe). assert (Hj : 0 ≤ j) by (unfold j; lia).
  pose proof (pow2_pos j Hj) as Hp.
  assert (HN : 2 ^ 52 < n * 2 ^ j).
  { destruct (Z.le_gt_cases 0 e) as [He0|He0].
    - assert (Hje : j = 52 - e) by (unfold j, qe; lia).
      assert (Hen : 2 ^ e < n).
      { rewrite Zlt_Qlt. eapply Qle_lt_trans; [|exact Hxn].
        unfold scale2 in Hlow. destruct (Z.leb_spec 0 (- e)) as [H0|H0].
        - assert (e = 0) as -> by lia. simpl in *. by rewrite Qmult_1_r in Hlow.
        - rewrite Z.opp_involutive in Hlow.
          apply Qdiv_ge_1 in Hlow; [done|].
          rewrite <- (Zlt_Qlt 0). by apply pow2_pos. }
      assert (Hpow : 2 ^ 52 = 2 ^ e * 2 ^ j)
        by (rewrite <- Z.pow_add_r by lia; f_equal; lia).
      rewrite Hpow. apply Z.mul_lt_mono_pos_r; lia.
    - assert (Hj53 : 53 ≤ j) by (unfold j, qe; lia).
      assert (2 ^ 53 ≤ 2 ^ j) by (apply Z.pow_le_mono_r; lia).
      assert (2 ^ 52 < 2 ^ 53) by (apply Z.pow_lt_mono_r; lia).
      nia. }
  replace (- qe) with j by done. rewrite (scale2_up _ j) by done.
  set (M := round_half_even (x * inject_Z (2 ^ j))).
  assert (HM0 : 0 ≤ M).
  { apply round_half_even_nonneg. apply Qmult_le_0_compat; [by apply Qlt_le_weak|].
    rewrite <- (Zle_Qle 0). lia. }
  assert (HM : M < n * 2 ^ j).
  { apply round_half_even_below.
    apply (Qmult_lt_r _ _ (inject_Z (2 ^ 53))); [done|].
    assert (Hstep : ((x * inject_Z (2 ^ j) + (1 # 2)) * inject_Z (2 ^ 53)
                     == x * inject_Z (2 ^ 53) * inject_Z (2 ^ j) + inject_Z (2 ^ 52))%Q).
    { change (2 ^ 53) with (2 * 2 ^ 52). rewrite inject_Z_mult. field. }
    rewrite Hstep.
    eapply Qle_lt_trans.
    { apply Qplus_le_l. apply Qmult_le_compat_r; [exact Hr|].
      rewrite <- (Zle_Qle 0). lia. }
    rewrite <- !inject_Z_mult, <- inject_Z_plus, <- Zlt_Qlt.
    change (2 ^ 53) with 9007199254740992 in *.
    change (2 ^ 52) with 4503599627370496 in *. nia. }
  replace qe with (- j) by (unfold j; lia).
  pose proof (scale2_down_lt M n j Hj HM) as Hv.
  assert (Hv0 : (0 <= scale2 (inject_Z M) (- j))%Q)
    by (apply scale2_nonneg; by rewrite <- (Zle_Qle 0)).
  destruct (Qle_bool _ _) eqn:Hover.
  - apply Qle_bool_iff in Hover.
    assert (Hbig : (inject_Z (2 ^ 1024) < inject_Z n)%Q) by (by eapply Qle_lt_trans).
    rewrite <- Zlt_Qlt in Hbig.
    assert (2 ^ 53 < 2 ^ 1024) by (apply Z.pow_lt_mono_r; lia). lia.
  - eexists. split; [reflexivity|]. by split.
Qed.

Lemma Qnum_sign (x : Q) :
  match Qnum x with
  | Z0 => (x == 0)%Q
  | Zpos _ => (0 < x)%Q
  | Zneg _ => (x < 0)%Q
  end.
Proof.
  destruct x as [[|p|p] d]; unfold Qeq, Qlt; simpl; lia.
Qed.

Lemma round64_pos (x : Q) (v : Q) :
  (0 < x)%Q → round_pos x = Some v → round64 x = Fin (Q2Qc v).
Proof.
  intros Hx Hv. unfold round64. pose proof (Qnum_sign x) as Hs.
  destruct (Qnum x).
  - rewrite Hs in Hx. by apply Qlt_irrefl in Hx.
  - by rewrite Hv.
  - exfalso. apply (Qlt_irrefl 0). by eapply Qlt_trans.
Qed.

(** Integers of magnitude below [2 ^ 53] are doubles. *)
Lemma round64_int (z : Z) :
  - 2 ^ 53 < z < 2 ^ 53 → round64 (Qc_of_Z z) = int z.
Proof.
  intros Hz. unfold round64, int. change (this (Qc_of_Z z)) with (inject_Z z).
  destruct z as [|p|p]; simpl Qnum; cbv iota.
  - done.
  - destruct (round_pos_int (Zpos p)) as (v & -> & Hv); [lia|].
    f_equal. apply Qc_is_canon. simpl. by rewrite Qred_correct.
  - change (- inject_Z (Zneg p))%Q with (inject_Z (Zpos p)).
    destruct (round_pos_int (Zpos p)) as (v & -> & Hv); [lia|].
    f_equal. apply Qc_is_canon. simpl. rewrite Qred_correct, Hv. done.
Qed.

Lemma ilog2_below_1 (x : Q) :
  (0 < x)%Q → (x < 1)%Q →
  ilog2 x < 0 ∧ (x * inject_Z (2 ^ (- ilog2 x - 1)) < 1)%Q.
Proof.
  intros Hx H1. unfold ilog2.
  assert (Hb : Qle_bool 1 x = false).
  { apply not_true_is_false. intros H%Qle_bool_iff.
    apply (Qlt_irrefl x). by eapply Qlt_le_trans. }
  rewrite Hb, Z.opp_involutive.
  assert (Hinv : (1 < / x)%Q).
  { apply (Qmult_lt_l _ _ x); [done|]. rewrite Qmult_1_r, Qmult_inv_r; [done|].
    intros H0. rewrite H0 in Hx. by apply Qlt_irrefl in Hx. }
  assert (Hc : 1 < Qceiling (/ x)).
  { rewrite Zlt_Qlt. eapply Qlt_le_trans; [exact Hinv|apply Qle_ceiling]. }
  destruct (Z.log2_up_spec (Qceiling (/ x)) Hc) as [Hlo Hhi].
  pose proof (Z.log2_up_pos (Qceiling (/ x)) Hc) as Hk.
  split; [lia|].
  replace (Z.log2_up (Qceiling (/ x)) - 1) with (Z.pred (Z.log2_up (Qceiling (/ x))))
    by lia.
  assert (Hle : (inject_Z (2 ^ Z.pred (Z.log2_up (Qceiling (/ x)))) < / x)%Q).
  { eapply Qle_lt_trans; [|apply Qceiling_lt]. rewrite <- Zle_Qle. lia. }
  apply (Qmult_lt_l _ _ x) in Hle; [|done].
  rewrite Qmult_inv_r in Hle; [done|].
  intros H0. rewrite H0 in Hx. by apply Qlt_irrefl in Hx.
Qed.

(** A double below 1 is at most [1 - 2 ^ -53]. *)
Lemma double_below_1 (x : Qc) :
  is_double x → (0 ≤ x)%Qc → (x < 1)%Qc →
  (x * inject_Z (2 ^ 53) <= inject_Z (2 ^ 53 - 1))%Q.
Proof.
  intros Hd H0 H1.
  assert (Hx0 : (0 <= x)%Q) by exact H0.
  assert (Hx1 : (x < 1)%Q) by exact H1.
  apply Qle_lt_or_eq in Hx0 as [Hpos|Hzero].
  2:{ rewrite <- Hzero. by rewrite Qmult_0_l. }
  destruct (ilog2_below_1 x Hpos Hx1) as [He Hup].
  unfold is_double in Hd.
  destruct (round_pos x) as [v|] eqn:Hv.
  2:{ unfold round64 in Hd. rewrite Hv in Hd.
      pose proof (Qnum_sign x) as Hs. destruct (Qnum x); [|done|].
      - rewrite Hs in Hpos. by apply Qlt_irrefl in Hpos.
      - exfalso. apply (Qlt_irrefl 0). by eapply Qlt_trans. }
  rewrite (round64_pos x v Hpos Hv) in Hd. simpl in Hd.
  apply Qeq_bool_iff in Hd. simpl in Hd. rewrite Qred_correct in Hd.
  unfold round_pos in Hv.
  set (e := ilog2 x) in *. clearbody e.
  set (qe := Z.max (e - 52) (-1074)) in *.
  set (j := - qe). assert (Hj : 53 ≤ j) by (unfold j, qe; lia).
  assert (Hje : j ≤ 52 - e) by (unfold j, qe; lia).
  pose proof (pow2_pos j ltac:(lia)) as Hp.
  replace (- qe) with j in Hv by done. rewrite (scale2_up _ j) in Hv by lia.
  set (M := round_half_even (x * inject_Z (2 ^ j))) in *. clearbody M.
  replace qe with (- j) in Hv by (unfold j; lia).
  destruct (Qle_bool _ _); [done|]. injection Hv as <-.
  unfold scale2 in Hd. rewrite (proj2 (Z.leb_gt 0 (- j))) in Hd by lia.
  rewrite Z.opp_involutive in Hd.
  assert (HxM : (x * inject_Z (2 ^ j) == inject_Z M)%Q).
  { rewrite <- Hd. field. intros Hz. rewrite (Zlt_Qlt 0), Hz in Hp.
    by apply Qlt_irrefl in Hp. }
  assert (HM1 : M < 2 ^ j).
  { rewrite Zlt_Qlt, <- HxM. rewrite <- (Qmult_1_l (inject_Z (2 ^ j))) at 2.
    apply Qmult_lt_compat_r; [by rewrite <- (Zlt_Qlt 0)|done]. }
  assert (HM2 : M < 2 ^ 53).
  { rewrite Zlt_Qlt, <- HxM.
    assert (Hpow : 2 ^ (52 - e) = 2 ^ (- e - 1) * 2 ^ 53)
      by (rewrite <- Z.pow_add_r by lia; f_equal; lia).
    eapply Qle_lt_trans.
    { apply Qmult_le_l; [done|]. rewrite <- Zle_Qle. apply Z.pow_le_mono_r; [lia|exact Hje]. }
    rewrite Hpow, inject_Z_mult, Qmult_assoc.
    rewrite <- (Qmult_1_l (inject_Z (2 ^ 53))) at 2.
    apply Qmult_lt_compat_r; [done|exact Hup]. }
  assert (Hgoal : M * 2 ^ 53 ≤ (2 ^ 53 - 1) * 2 ^ j).
  { destruct (Z.eq_dec j 53) as [->|Hne]; [lia|].
    assert (2 ^ 54 ≤ 2 ^ j) by (apply Z.pow_le_mono_r; lia).
    change (2 ^ 53) with 9007199254740992 in *.
    change (2 ^ 54) with 18014398509481984 in *. nia. }
  apply (Qmult_le_r _ _ (inject_Z (2 ^ j))); [by rewrite <- (Zlt_Qlt 0)|].
  assert (Hre : (x * inject_Z (2 ^ 53) * inject_Z (2 ^ j)
                 == inject_Z M * inject_Z (2 ^ 53))%Q) by (rewrite <- HxM; ring).
  rewrite Hre, <- !inject_Z_mult, <- Zle_Qle. exact Hgoal.
Qed.

(** ** The grid generator *)

Lemma Qc_of_Z_add (a b : Z) : (Qc_of_Z a + Qc_of_Z b)%Qc = Qc_of_Z (a + b).
Proof.
  apply Qc_is_canon. simpl. rewrite Qred_correct. by rewrite inject_Z_plus.
Qed.

Lemma Qc_of_Z_opp (a : Z) : (- Qc_of_Z a)%Qc = Qc_of_Z (- a).
Proof.
  apply Qc_is_canon. simpl. rewrite Qred_correct. by rewrite inject_Z_opp.
Qed.

Lemma num_lt_int (a b : Z) : num_lt (int a) (int b) = (a <? b).
Proof. unfold int, num_lt, Qc_ltb. simpl. by rewrite !Z.mul_1_r. Qed.

Lemma Number_isInteger_int (z : Z) : Number_isInteger (int z) = true.
Proof. unfold int, Number_isInteger. apply Qc_eqb_eq. simpl. by rewrite Zdiv_1_r. Qed.

Lemma Number_isInteger_inv (n : number) :
  Number_isInteger n = true → ∃ z, n = int z.
Proof.
  destruct n as [x| | |]; simpl; try done.
  intros H%Qc_eqb_eq. exists (Qfloor x). unfold int. by rewrite <- H.
Qed.

Lemma num_le_int (a b : Z) : num_le (int a) (int b) = (a <=? b).
Proof.
  unfold int, num_le, num_lt, Qc_ltb. simpl. rewrite !Z.mul_1_r.
  symmetry. apply Z.leb_antisym.
Qed.

Lemma dimensions_guard (rows cols : number) :
  negb (Number_isInteger rows) || negb (Number_isInteger cols)
  || num_le rows (int 0) || num_le cols (int 0) = false
  ↔ positive_integer rows ∧ positive_integer cols.
Proof.
  split.
  - intros H. apply orb_false_elim in H as [H Hc0].
    apply orb_false_elim in H as [H Hr0]. apply orb_false_elim in H as [Hr Hc].
    apply negb_false_iff, Number_isInteger_inv in Hr as [r ->].
    apply negb_false_iff, Number_isInteger_inv in Hc as [c ->].
    rewrite num_le_int in Hr0, Hc0.
    split; eexists; (split; [|reflexivity]); lia.
  - intros [(r & Hr & ->) (c & Hc & ->)].
    rewrite !Number_isInteger_int, !num_le_int. simpl.
    rewrite (proj2 (Z.leb_gt r 0)), (proj2 (Z.leb_gt c 0)) by done. done.
Qed.

Lemma int_inj (a b : Z) : int a = int b → a = b.
Proof. unfold int. intros [= H]. done. Qed.


Lemma ToLength_int (z : Z) : ToLength (int z) = Z.min (Z.max z 0) (2 ^ 53 - 1).
Proof. unfold ToLength, int. simpl. by rewrite Zdiv_1_r. Qed.

(** A length below [2 ^ 32]: the array is created and filled. *)
Lemma Array_from_fits {A : Type} (z : Z) (f : M A) :
  0 ≤ z < 2 ^ 32 → Array_from (int z) f = map_calls (Z.to_nat z) f.
Proof.
  intros Hz. unfold Array_from. rewrite ToLength_int.
  assert (2 ^ 32 < 2 ^ 53 - 1) by done.
  replace (Z.min (Z.max z 0) (2 ^ 53 - 1)) with z by lia.
  by rewrite (proj2 (Z.leb_gt (2 ^ 32) z)) by lia.
Qed.

(** A length from [2 ^ 32] on: the creation of the array throws, and the
    function that would fill it is never called. *)
Lemma Array_from_too_long {A : Type} (z : Z) (f : M A) (w : World) :
  2 ^ 32 ≤ z → Array_from (int z) f w = (Throw InvalidArrayLength, w).
Proof.
  intros Hz. unfold Array_from. rewrite ToLength_int.
  assert (2 ^ 32 < 2 ^ 53 - 1) by done.
  by rewrite (proj2 (Z.leb_le (2 ^ 32) _)) by lia.
Qed.

Lemma map_calls_ok {A : Type} (I : World → Prop) (P : A → Prop) (f : M A) :
  (∀ w, I w → ∃ a w', f w = (Ok a, w') ∧ P a ∧ I w') →
  ∀ n w, I w →
    ∃ l w', map_calls n f w = (Ok l, w') ∧ length l = n ∧ Forall P l ∧ I w'.
Proof.
  intros Hf. induction n as [|n IH]; intros w Hw.
  - exists [], w. repeat split; [constructor|done].
  - destruct (Hf w Hw) as (a & w1 & Ha & HP & Hw1).
    destruct (IH w1 Hw1) as (l & w2 & Hl & Hlen & HPl & Hw2).
    exists (a :: l), w2. cbn [map_calls]. unfold mbind, M_bind at 1. rewrite Ha.
    unfold mbind, M_bind at 1. rewrite Hl.
    repeat split; [simpl; lia | by constructor | done].
Qed.

Lemma randInt_ok (min max : number) (w : World) :
  ∃ n w', randInt min max w = (Ok n, w').
Proof. unfold randInt. destruct (num_gt min max); eexists _, _; reflexivity. Qed.

Lemma num_add_int (a b : Z) :
  - 2 ^ 53 < a + b < 2 ^ 53 → num_add (int a) (int b) = int (a + b).
Proof.
  intros H. unfold int at 1 2. cbn [num_add]. rewrite Qc_of_Z_add.
  by apply round64_int.
Qed.

Lemma num_sub_int (a b : Z) :
  - 2 ^ 53 < a - b < 2 ^ 53 → num_sub (int a) (int b) = int (a - b).
Proof.
  intros H. unfold num_sub. unfold int at 2. cbn [num_neg]. rewrite Qc_of_Z_opp.
  fold (int (- b)). by rewrite num_add_int by lia.
Qed.

(** The product of a draw and a count [n] of values, rounded and then
    floored, is one of [0 .. n - 1]: rounding never carries it up to [n]. *)
Lemma floor_scaled_draw (r : Qc) (n : Z) :
  1 ≤ n < 2 ^ 53 → is_double r → (0 ≤ r)%Qc → (r < 1)%Qc →
  ∃ k, Math_floor (num_mul (Fin r) (int n)) = int k ∧ 0 ≤ k ≤ n - 1.
Proof.
  intros Hn Hd H0 H1. pose proof (double_below_1 r Hd H0 H1) as Hr.
  assert (Hr0 : (0 <= r)%Q) by exact H0.
  unfold int at 1. cbn [num_mul].
  set (x := this (r * Qc_of_Z n)%Qc).
  assert (Hx : (x == r * inject_Z n)%Q) by (unfold x; simpl; apply Qred_correct).
  assert (Hx0 : (0 <= x)%Q).
  { rewrite Hx. apply Qmult_le_0_compat; [done|]. rewrite <- (Zle_Qle 0). lia. }
  apply Qle_lt_or_eq in Hx0 as [Hpos|Hzero].
  - destruct (round_pos_below x n Hpos Hn) as (v & Hv & Hv0 & Hvn).
    { rewrite Hx.
      assert (Hre : (r * inject_Z n * inject_Z (2 ^ 53)
                     == inject_Z n * (r * inject_Z (2 ^ 53)))%Q) by ring.
      rewrite Hre. apply Qmult_le_l; [rewrite <- (Zlt_Qlt 0); lia|done]. }
    rewrite (round64_pos x v Hpos Hv). cbn [Math_floor].
    exists (Qfloor (Q2Qc v)). split; [done|].
    assert (Hfl : Qfloor (Q2Qc v) = Qfloor v) by (simpl; by rewrite Qred_correct).
    rewrite Hfl. split.
    + change 0 with (Qfloor 0). by apply Qfloor_resp_le.
    + cut (Qfloor v < n); [lia|]. rewrite Zlt_Qlt.
      eapply Qle_lt_trans; [apply Qfloor_le|done].
  - exists 0. split; [|lia].
    assert (Hq : Qnum x = 0).
    { symmetry in Hzero. unfold Qeq in Hzero. simpl in Hzero. lia. }
    unfold round64. by rewrite Hq.
Qed.

Lemma randInt_value (lo hi : Z) (r : Qc) :
  lo ≤ hi → safe_bounds lo hi → is_double r → (0 ≤ r)%Qc → (r < 1)%Qc →
  ∃ z, num_add (Math_floor (num_mul (Fin r) (num_add (num_sub (int hi) (int lo)) (int 1))))
               (int lo) = int z
       ∧ lo ≤ z ≤ hi.
Proof.
  intros Hle (Hlo & Hhi & Hspan) Hd H0 H1.
  rewrite num_sub_int, num_add_int by lia.
  destruct (floor_scaled_draw r (hi - lo + 1)) as (k & -> & Hk); [lia|done..|].
  rewrite num_add_int by lia. exists (k + lo). split; [done|lia].
Qed.


Lemma safe_bounds_sym (a b : Z) : safe_bounds a b → safe_bounds b a.
Proof. unfold safe_bounds. lia. Qed.


Lemma generate_row_ok (I : World → Prop) (P : number → Prop) (f : M number) (c : Z) :
  0 ≤ c < 2 ^ 32 →
  (∀ w, I w → ∃ a w', f w = (Ok a, w') ∧ P a ∧ I w') →
  ∀ w, I w →
    ∃ cells w', (cells ← Array_from (int c) f; mret (RArr (JNum <$> cells))) w
                = (Ok (RArr (JNum <$> cells)), w')
                ∧ length cells = Z.to_nat c ∧ Forall P cells ∧ I w'.
Proof.
  intros Hc Hf w Hw. rewrite Array_from_fits by done.
  destruct (map_calls_ok I P f Hf (Z.to_nat c) w Hw) as (cells & w' & Hrun & Hlen & HP & Hw').
  exists cells, w'. unfold mbind, M_bind. by rewrite Hrun.
Qed.

(** A row count or a column count no array can have: the call fails
    before the first draw. *)
Lemma generateMatrix_too_long (r c : Z) (min max : number) (w : World) :
  0 < r → 0 < c → 2 ^ 32 ≤ r ∨ 2 ^ 32 ≤ c →
  generateMatrix (int r) (int c) min max w = (Throw InvalidArrayLength, w).
Proof.
  intros Hr Hc Hbig. unfold generateMatrix.
  rewrite (proj2 (dimensions_guard (int r) (int c)))
    by (split; eexists; (split; [|reflexivity]); done).
  destruct (Z.le_gt_cases (2 ^ 32) r) as [Hr32|Hr32].
  - by apply Array_from_too_long.
  - destruct Hbig as [?|Hc32]; [lia|].
    rewrite Array_from_fits by lia.
    destruct (Z.to_nat r) as [|n] eqn:En; [lia|].
    cbn [map_calls]. unfold mbind, M_bind at 1. unfold mbind, M_bind at 1.
    by rewrite Array_from_too_long.
Qed.

Lemma half_world_unit_draws : unit_draws half_world.
Proof. intros k. repeat split; by vm_compute. Qed.

(** C4, as the specification states it, fails for a dimension no array
    can have: [2 ^ 32] rows of one cell are positive integer dimensions,
    and the call throws the [RangeError] of the array creation instead of
    returning a grid. *)
Lemma generateMatrix_dimensions_counterexample :
  positive_integer (int (2 ^ 32)) ∧ positive_integer (int 1)
  ∧ generateMatrix (int (2 ^ 32)) (int 1) DEFAULT_MIN_VALUE DEFAULT_MAX_VALUE half_world
    = (Throw InvalidArrayLength, half_world)
  ∧ ¬ ∃ grid w',
        generateMatrix (int (2 ^ 32)) (int 1) DEFAULT_MIN_VALUE DEFAULT_MAX_VALUE half_world
        = (Ok grid, w').
Proof.
  assert (Hrun : generateMatrix (int (2 ^ 32)) (int 1) DEFAULT_MIN_VALUE DEFAULT_MAX_VALUE
                   half_world = (Throw InvalidArrayLength, half_world))
    by (by apply generateMatrix_too_long; [| |left]).
  split; [exists (2 ^ 32); by split|]. split; [exists 1; by split|].
  split; [done|]. intros (grid & w' & Hok). rewrite Hrun in Hok. discriminate.
Qed.

(** C4, amended.  The call throws the dimension error exactly when [rows]
    or [cols] is not a positive integer.  For positive integers of which
    one is [2 ^ 32] or more it throws the [RangeError] of the array
    creation.  In both cases the world is left as it was: no grid, no
    random draw.  For positive integers below [2 ^ 32] it returns a grid
    of exactly [rows] rows, each of exactly [cols] cells that are numbers. *)
Theorem generateMatrix_dimensions (rows cols min max : number) (w : World) :
  (¬ (positive_integer rows ∧ positive_integer cols)
   ∧ generateMatrix rows cols min max w = (Throw InvalidDimension, w))
  ∨ (positive_integer rows ∧ positive_integer cols
     ∧ ¬ (array_dimension rows ∧ array_dimension cols)
     ∧ generateMatrix rows cols min max w = (Throw InvalidArrayLength, w))
  ∨ (array_dimension rows ∧ array_dimension cols
     ∧ ∃ grid w', generateMatrix rows cols min max w = (Ok grid, w')
                  ∧ int (Z.of_nat (length grid)) = rows
                  ∧ Forall (numeric_row cols) grid).
Proof.
  destruct (negb (Number_isInteger rows) || negb (Number_isInteger cols)
            || num_le rows (int 0) || num_le cols (int 0)) eqn:Hguard.
  { left. split; [intros H%dimensions_guard; congruence|].
    unfold generateMatrix. by rewrite Hguard. }
  right. pose proof Hguard as [Hr Hc]%dimensions_guard.
  destruct Hr as (r & Hr & ->), Hc as (c & Hc & ->).
  destruct (decide (r < 2 ^ 32 ∧ c < 2 ^ 32)) as [[Hr32 Hc32]|Hbig].
  - right. split; [exists r; by repeat split|]. split; [exists c; by repeat split|].
    unfold generateMatrix. rewrite Hguard, Array_from_fits by lia.
    destruct (map_calls_ok (λ _, True) (numeric_row (int c))
                (cells ← Array_from (int c) (randInt min max);
                 mret (RArr (JNum <$> cells))))
      with (n := Z.to_nat r) (w := w) as (grid & w' & Hrun & Hlen & Hrows & _); [|done|].
    + intros w0 _.
      destruct (generate_row_ok (λ _, True) (λ _, True) (randInt min max) c)
        with (w := w0) as (cells & w1 & Hcells & Hlen & _ & _); [lia| |done|].
      { intros w1 _. destruct (randInt_ok min max w1) as (n & w2 & Hn). by exists n, w2. }
      exists (RArr (JNum <$> cells)), w1. split; [done|]. split; [|done].
      exists (JNum <$> cells). split; [done|]. split.
      * rewrite length_fmap, Hlen, Z2Nat.id by lia. done.
      * apply Forall_fmap, Forall_true. done.
    + exists grid, w'. split; [done|]. split; [|done].
      rewrite Hlen, Z2Nat.id by lia. done.
  - left. split; [exists r; by split|]. split; [exists c; by split|]. split.
    + intros [(r' & Hr' & Er) (c' & Hc' & Ec)].
      apply int_inj in Er, Ec. subst r' c'. apply Hbig. lia.
    + apply generateMatrix_too_long; [done..|]. lia.
Qed.




(** ** The two analysis functions on a store: what a call reads and changes *)

Lemma for_st_invariant {St : Type} (Inv : nat → St → store → Prop)
    (len : ST nat) (body : nat → St → ST St) (n : nat) :
  (∀ k st h, Inv k st h → len h = Some (n, h)) →
  (∀ k st h, (k < n)%nat → Inv k st h →
     ∃ st' h', body k st h = Some (st', h') ∧ Inv (S k) st' h') →
  ∀ fuel k st h, (k ≤ n)%nat → (n - k < fuel)%nat → Inv k st h →
    ∃ st' h', for_st fuel len body k st h = Some (st', h') ∧ Inv n st' h'.
Proof.
  intros Hlen Hbody. induction fuel as [|fuel IH]; intros k st h Hk Hfuel HI; [lia|].
  cbn [for_st]. unfold mbind, ST_bind at 1. rewrite (Hlen _ _ _ HI).
  destruct (Nat.ltb_spec k n) as [Hlt|Hge].
  - destruct (Hbody k st h Hlt HI) as (st1 & h1 & Hrun & HI1).
    unfold mbind, ST_bind. rewrite Hrun. apply IH; [lia|lia|done].
  - assert (k = n) as -> by lia. by exists st, h.
Qed.

Lemma get_length_cells (h : store) (l : loc) (cells : list jsval) :
  h !! l = Some (OCells cells) → get_length l h = Some (length cells, h).
Proof. intros H. unfold get_length, mbind, ST_bind, read. by rewrite H. Qed.

Lemma get_length_rows (h : store) (l : loc) (rows : list rowref) :
  h !! l = Some (ORows rows) → get_length l h = Some (length rows, h).
Proof. intros H. unfold get_length, mbind, ST_bind, read. by rewrite H. Qed.

Lemma get_cell_cells (h : store) (l : loc) (cells : list jsval) (i : nat) :
  h !! l = Some (OCells cells) → get_cell l i h = Some (index cells i, h).
Proof. intros H. unfold get_cell, mbind, ST_bind, read. by rewrite H. Qed.

Lemma get_row_rows (h : store) (l : loc) (rows : list rowref) (i : nat) :
  h !! l = Some (ORows rows) →
  get_row l i h = Some (default RRefNullish (rows !! i), h).
Proof. intros H. unfold get_row, mbind, ST_bind, read. by rewrite H. Qed.

(** One cell of the inner loop: the local [minValue] and the array
    [minPositions] in the store move as [visit_cell] says, and nothing
    else in the store changes. *)
Lemma visit_cell_st_run (h : store) (mp : loc) (ps : list Position)
    (i j : nat) (v : jsval) (m : number) :
  visit_cell_st mp i j v m (<[mp := OPositions ps]> h)
  = Some (fst (visit_cell i j v (m, ps)),
          <[mp := OPositions (snd (visit_cell i j v (m, ps)))]> h).
Proof.
  unfold visit_cell_st, visit_cell.
  destruct v as [c| | |]; try done. simpl.
  destruct (is_NaN c); [done|]. simpl.
  destruct (num_lt c m).
  - unfold mbind, ST_bind, clear_positions, push_position, read, write, mbind, ST_bind.
    rewrite lookup_insert_eq. simpl. rewrite lookup_insert_eq. simpl.
    by rewrite !insert_insert_eq.
  - destruct (num_eq c m); [|done].
    unfold mbind, ST_bind, push_position, read, write, mbind, ST_bind.
    rewrite lookup_insert_eq. simpl. by rewrite insert_insert_eq.
Qed.

(** The inner loop over a row held in the store. *)
Lemma scan_row_st_run (fuel : nat) (h : store) (rl mp : loc) (cells : list jsval)
    (ps : list Position) (i : nat) (m : number) :
  h !! rl = Some (OCells cells) → h !! mp = Some (OPositions ps) →
  (length cells < fuel)%nat →
  for_st fuel (get_length rl)
    (λ colIndex minValue,
       cellValue ← get_cell rl colIndex;
       visit_cell_st mp i colIndex cellValue minValue) O m h
  = Some (fst (scan_row i cells (m, ps)),
          <[mp := OPositions (snd (scan_row i cells (m, ps)))]> h).
Proof.
  intros Hrl Hmp Hfuel.
  assert (Hne : rl ≠ mp) by (intros ->; congruence).
  set (pure := λ k, for_range k (λ colIndex acc,
                 visit_cell i colIndex (index cells colIndex) acc) (m, ps)).
  destruct (for_st_invariant
              (λ k mv hk, mv = fst (pure k) ∧ hk = <[mp := OPositions (snd (pure k))]> h)
              (get_length rl)
              (λ colIndex minValue,
                 cellValue ← get_cell rl colIndex;
                 visit_cell_st mp i colIndex cellValue minValue)
              (length cells)) with (fuel := fuel) (k := O) (st := m) (h := h)
    as (m' & h' & Hrun & -> & ->).
  - intros k mv hk [_ ->]. apply get_length_cells. by rewrite lookup_insert_ne.
  - intros k mv hk Hk [-> ->].
    eexists _, _. split.
    + unfold mbind, ST_bind at 1.
      rewrite (get_cell_cells _ _ cells) by (by rewrite lookup_insert_ne).
      apply visit_cell_st_run.
    + unfold pure, for_range. rewrite seq_S, foldl_app. simpl.
      by destruct (foldl _ _ _).
  - lia.
  - lia.
  - split; [done|]. unfold pure, for_range. simpl. by rewrite insert_id.
  - exact Hrun.
Qed.

Lemma fresh_lookup (h : gmap nat object) : h !! fresh (dom h) = None.
Proof. apply not_elem_of_dom, is_fresh. Qed.

(** The outer loop over a grid held in the store: the objects that were
    there before stay as they were, except the array [minPositions]. *)
Lemma scan_matrix_st_run (fuel : nat) (h : gmap nat object) (m mp : nat)
    (refs : list rowref) (grid : list rowval) :
  h !! m = Some (ORows refs) → Forall2 (row_in h) refs grid →
  h !! mp = Some (OPositions []) → enough_fuel fuel grid →
  ∃ h',
    for_st fuel (get_length m)
      (λ rowIndex minValue,
         slot ← get_row m rowIndex;
         row ← match slot with
               | RRef l => mret l
               | RRefNullish => alloc (OCells [])
               end;
         for_st fuel (get_length row)
           (λ colIndex minValue,
              cellValue ← get_cell row colIndex;
              visit_cell_st mp rowIndex colIndex cellValue minValue)
           O minValue)
      O PosInf h
    = Some (fst (scan_matrix grid), h')
    ∧ h' !! mp = Some (OPositions (snd (scan_matrix grid)))
    ∧ ∀ l o, l ≠ mp → h !! l = Some o → h' !! l = Some o.
Proof.
  intros Hm Hrows Hmp [Hfuel Hfuels].
  assert (Hne : m ≠ mp) by (intros ->; congruence).
  pose proof (Forall2_length _ _ _ Hrows) as Hlen.
  set (pure := λ k, for_range k (λ rowIndex acc,
                 scan_row rowIndex (row_or_empty (row_at grid rowIndex)) acc)
                 (PosInf, [])).
  destruct (for_st_invariant
              (λ k mv hk, mv = fst (pure k)
                          ∧ hk !! mp = Some (OPositions (snd (pure k)))
                          ∧ ∀ l o, l ≠ mp → h !! l = Some o → hk !! l = Some o)
              (get_length m)
              (λ rowIndex minValue,
                 slot ← get_row m rowIndex;
                 row ← match slot with
                       | RRef l => mret l
                       | RRefNullish => alloc (OCells [])
                       end;
                 for_st fuel (get_length row)
                   (λ colIndex minValue,
                      cellValue ← get_cell row colIndex;
                      visit_cell_st mp rowIndex colIndex cellValue minValue)
                   O minValue)
              (length refs)) with (fuel := fuel) (k := O) (st := PosInf) (h := h)
    as (m' & h' & Hrun & -> & Hps & Hframe).
  - intros k mv hk (_ & _ & Hfr). apply get_length_rows. by apply Hfr.
  - intros k mv hk Hk (-> & Hps & Hfr).
    destruct (lookup_lt_is_Some_2 refs k Hk) as [slot Hslot].
    destruct (Forall2_lookup_l _ _ _ _ _ Hrows Hslot) as (row & Hrow & Hin).
    assert (Hstep : pure (S k) = scan_row k (row_or_empty row) (pure k)).
    { unfold pure, for_range. rewrite seq_S, foldl_app. simpl.
      unfold row_at. by rewrite Hrow. }
    assert (Hrowfuel : (row_length row < fuel)%nat).
    { eapply Forall_lookup_1 in Hfuels; [|exact Hrow]. done. }
    unfold mbind, ST_bind at 1.
    rewrite (get_row_rows _ _ refs) by (by apply Hfr). rewrite Hslot. simpl.
    destruct slot as [l|], row as [cells|]; try done; simpl in Hin.
    + unfold mbind, ST_bind at 1. unfold mret, ST_ret at 1.
      assert (Hl : l ≠ mp) by (intros ->; congruence).
      eexists _, _. split.
      { apply (scan_row_st_run fuel hk l mp cells (snd (pure k)) k (fst (pure k)));
          [by apply Hfr|done|done]. }
      rewrite Hstep. simpl. rewrite <- surjective_pairing.
      split; [done|]. split; [by rewrite lookup_insert_eq|].
      intros l' o Hl' Ho. rewrite lookup_insert_ne by done. by apply Hfr.
    + unfold mbind, ST_bind at 1. unfold alloc.
      set (l := fresh (dom hk)).
      assert (Hfresh : hk !! l = None) by apply fresh_lookup.
      assert (Hl : l ≠ mp) by (intros E; rewrite E in Hfresh; congruence).
      eexists _, _. split.
      { apply (scan_row_st_run fuel _ l mp [] (snd (pure k)) k (fst (pure k)));
          [by rewrite lookup_insert_eq|by rewrite lookup_insert_ne|simpl; lia]. }
      rewrite Hstep. simpl. unfold scan_row, for_range. simpl.
      split; [done|]. split; [by rewrite lookup_insert_eq|].
      intros l' o Hl' Ho. rewrite lookup_insert_ne by done.
      rewrite lookup_insert_ne; [by apply Hfr|].
      intros <-. apply Hfr in Ho; [|done]. congruence.
  - lia.
  - lia.
  - split; [done|]. split; [done|]. done.
  - exists h'. rewrite Hlen in Hps, Hrun. done.
Qed.

Lemma row_in_mono (h h' : gmap nat object) (r : rowref) (row : rowval) :
  h ⊆ h' → row_in h r row → row_in h' r row.
Proof.
  intros Hsub. destruct r as [l|], row as [cells|]; simpl; try done.
  intros Hl. by eapply lookup_weaken.
Qed.

Lemma matrix_in_mono (h h' : gmap nat object) (m : nat) (grid : list rowval) :
  h ⊆ h' → matrix_in h m grid → matrix_in h' m grid.
Proof.
  intros Hsub (refs & Hm & Hrows). exists refs. split; [by eapply lookup_weaken|].
  eapply Forall2_impl; [exact Hrows|]. intros r row. by apply row_in_mono.
Qed.

Lemma observe_mono (h h' : gmap nat object) (r : GlobalMinObject) (x : GlobalMinResult) :
  h ⊆ h' → observe h r = Some x → observe h' r = Some x.
Proof.
  intros Hsub. unfold observe.
  destruct (h !! positions_field r) as [[| |ps|]|] eqn:Hp; try done.
  destruct (h !! rowsWithMin_field r) as [[| | |s]|] eqn:Hs; try done.
  by rewrite (lookup_weaken _ _ _ _ Hp Hsub), (lookup_weaken _ _ _ _ Hs Hsub).
Qed.

(** One call of [findGlobalMin] on a grid held in the store: it returns,
    it leaves every object that was in the store as it was, and what the
    caller reads from the result is the result computed from the grid as a
    value. *)
Lemma findGlobalMin_st_run (fuel : nat) (h : gmap nat object) (m : nat)
    (grid : list rowval) :
  matrix_in h m grid → enough_fuel fuel grid →
  ∃ r h', findGlobalMin_st fuel m h = Some (r, h')
          ∧ h ⊆ h'
          ∧ observe h' r = Some (findGlobalMin grid).
Proof.
  intros (refs & Hm & Hrows) Hfuel.
  unfold findGlobalMin_st. unfold mbind, ST_bind at 1. unfold alloc at 1.
  cbv beta iota zeta. set (mp := fresh (dom h)).
  assert (Hfresh : h !! mp = None) by apply fresh_lookup.
  assert (Hsub0 : h ⊆ <[mp := OPositions []]> h) by (by apply insert_subseteq).
  destruct (scan_matrix_st_run fuel (<[mp := OPositions []]> h) m mp refs grid)
    as (h1 & Hrun & Hps & Hframe).
  { rewrite lookup_insert_ne; [done|]. intros <-. congruence. }
  { eapply Forall2_impl; [exact Hrows|]. intros r row. by apply row_in_mono. }
  { by rewrite lookup_insert_eq. }
  { done. }
  unfold mbind in Hrun. unfold ST_bind at 1. rewrite Hrun.
  unfold mbind, ST_bind at 1. unfold read. rewrite Hps.
  unfold mbind, ST_bind, alloc, mret, ST_ret.
  set (rows := fresh (dom h1)).
  assert (Hrowsfresh : h1 !! rows = None) by apply fresh_lookup.
  eexists _, _. split; [reflexivity|]. split.
  - apply map_subseteq_spec. intros l o Ho.
    assert (Hl : l ≠ mp) by (intros ->; congruence).
    rewrite lookup_insert_ne.
    + apply Hframe; [done|]. by rewrite lookup_insert_ne.
    + intros <-. apply (lookup_weaken _ _ _ _ Ho) in Hsub0.
      apply Hframe in Hsub0; [|done]. congruence.
  - unfold observe. simpl.
    rewrite lookup_insert_ne by (intros E; rewrite E in Hrowsfresh; congruence).
    rewrite Hps, lookup_insert_eq. unfold findGlobalMin.
    by destruct (scan_matrix grid).
Qed.

Lemma chain_loop_st_run (h : gmap nat object) (l : nat) (cells : list jsval)
    (rowLength : nat) (s : Z) :
  h !! l = Some (OCells cells) →
  ∀ fuel i chain,
    chain_loop_st fuel l rowLength s i chain h
    = (λ ic, (ic, h)) <$> chain_loop fuel cells rowLength s i chain.
Proof.
  intros Hl. induction fuel as [|fuel IH]; intros i chain; [done|].
  cbn [chain_loop_st chain_loop].
  destruct (i <? rowLength)%nat; [|done]. simpl.
  unfold mbind, ST_bind. rewrite (get_cell_cells _ _ cells) by done.
  destruct (signOf (index cells i) =? s); [apply IH|done].
Qed.

Lemma scan_loop_st_run (h : gmap nat object) (l : nat) (cells : list jsval)
    (rowLength : nat) :
  h !! l = Some (OCells cells) →
  ∀ fuel i replacements,
    scan_loop_st fuel l rowLength i replacements h
    = (λ n, (n, h)) <$> scan_loop fuel cells rowLength i replacements.
Proof.
  intros Hl. induction fuel as [|fuel IH]; intros i replacements; [done|].
  cbn [scan_loop_st scan_loop].
  destruct (i <? rowLength)%nat; [|done].
  unfold mbind, ST_bind at 1. rewrite (get_cell_cells _ _ cells) by done.
  cbv zeta.
  destruct (signOf (index cells i) =? 0); [apply IH|].
  unfold mbind, ST_bind. rewrite (chain_loop_st_run h l cells) by done.
  destruct (chain_loop (S fuel) cells rowLength (signOf (index cells i)) i 0)
    as [[i' chain]|]; [|done].
  simpl. apply IH.
Qed.

(** One call of [minReplacementsToAvoidTriples] on a row held in the
    store: it returns what the function computes from the row as a value
    and leaves the store as it was. *)
Lemma minReplacements_st_run (fuel : nat) (h : gmap nat object) (r : rowref)
    (row : rowval) :
  row_in h r row → (row_length row < fuel)%nat →
  ∃ n, minReplacements_st fuel r h = Some (n, h)
       ∧ minReplacementsToAvoidTriples row = Some n.
Proof.
  intros Hin Hfuel. destruct r as [l|], row as [cells|]; try done; simpl in Hin.
  - exists (replacements_by_runs cells). split; [|apply minReplacements_array].
    pose proof (minReplacements_fuel_enough fuel cells Hfuel) as Hpure.
    unfold minReplacements_fuel in Hpure.
    unfold minReplacements_st, Array_isArray_st, read.
    unfold mbind, ST_bind at 1. unfold mbind, ST_bind at 1. rewrite Hin. simpl.
    unfold mbind, ST_bind at 1. rewrite (get_length_cells _ _ cells) by done.
    destruct (length cells =? 0)%nat; [by injection Hpure as <-|].
    unfold mbind, ST_bind. rewrite (get_length_cells _ _ cells) by done.
    rewrite (scan_loop_st_run h l cells) by done. by rewrite Hpure.
  - by exists O.
Qed.

(** C7. Two calls one after the other on the same input, held in a store
    that nothing else changes in between, return identical results: for
    [findGlobalMin] the caller reads the same value, the same list of
    positions in the same order and the same set of rows from both result
    objects, namely what the function computes from the grid; for
    [minReplacementsToAvoidTriples] the two counts are equal.  Both calls
    return, and every object that was in the store before, the input among
    them, is unchanged after them. *)
Theorem analysis_deterministic (fuel : nat) (h : gmap nat object) (m : nat)
    (grid : list rowval) (r : rowref) (row : rowval) :
  matrix_in h m grid → enough_fuel fuel grid →
  row_in h r row → (row_length row < fuel)%nat →
  (∃ r1 r2 h2,
     twice (findGlobalMin_st fuel) m h = Some ((r1, r2), h2)
     ∧ h ⊆ h2
     ∧ observe h2 r1 = Some (findGlobalMin grid)
     ∧ observe h2 r2 = Some (findGlobalMin grid))
  ∧ (∃ n, twice (minReplacements_st fuel) r h = Some ((n, n), h)
          ∧ minReplacementsToAvoidTriples row = Some n).
Proof.
  intros Hm Hfuel Hr Hrowfuel. split.
  - destruct (findGlobalMin_st_run fuel h m grid Hm Hfuel) as (r1 & h1 & Hrun1 & Hsub1 & Hobs1).
    destruct (findGlobalMin_st_run fuel h1 m grid) as (r2 & h2 & Hrun2 & Hsub2 & Hobs2);
      [by eapply matrix_in_mono|done|].
    exists r1, r2, h2. unfold twice, mbind, ST_bind. rewrite Hrun1, Hrun2.
    split; [done|]. split; [by etrans|]. split; [by eapply observe_mono|done].
  - destruct (minReplacements_st_run fuel h r row Hr Hrowfuel) as (n & Hrun & Hpure).
    exists n. unfold twice, mbind, ST_bind. rewrite Hrun, Hrun. done.
Qed.

Lemma analysis_deterministic_witness :
  (∃ r1 r2 h2,
     twice (findGlobalMin_st 4) O sample_store = Some ((r1, r2), h2)
     ∧ sample_store ⊆ h2
     ∧ observe h2 r1 = Some (findGlobalMin sample_grid)
     ∧ observe h2 r2 = Some (findGlobalMin sample_grid))
  ∧ (∃ n, twice (minReplacements_st 4) (RRef 1) sample_store = Some ((n, n), sample_store)
          ∧ minReplacementsToAvoidTriples
              (RArr [JNum (int 4); JNum (int 1); JNum (int 7)]) = Some n).
Proof.
  apply (analysis_deterministic 4 sample_store O sample_grid (RRef 1)
           (RArr [JNum (int 4); JNum (int 1); JNum (int 7)])).
  - exists [RRef 1; RRefNullish; RRef 2]. split; [by vm_compute|].
    repeat constructor; by vm_compute.
  - split; [simpl; lia|]. repeat constructor; simpl; lia.
  - by vm_compute.
  - simpl. lia.
Defined.

(** ** The renderer *)

(** C8. On a grid with no rows, and on an argument that is not an array,
    the renderer logs the empty-grid notice and nothing else, and returns. *)
Theorem prettyPrintMatrix_empty (Number_toString_other : Qc → string)
    (matrix : matrixval) (options : PrettyPrintOptions) (w : World) :
  matrix = MArr [] ∨ matrix = MNotArray →
  prettyPrintMatrix Number_toString_other matrix options w
  = (Ok tt, logged EMPTY_NOTICE w).
Proof. intros [-> | ->]; reflexivity. Qed.

Lemma prettyPrintMatrix_empty_witness :
  prettyPrintMatrix (λ _, "") (MArr []) {| useColors := None |} half_world
  = (Ok tt, logged EMPTY_NOTICE half_world).
Proof.
  apply (prettyPrintMatrix_empty (λ _, "") (MArr []) {| useColors := None |} half_world).
  left. reflexivity.
Defined.

(** A grid with rows is drawn as a table: the notice is not printed, and
    the header, the separator, one line per row, the separator, the
    summary and the closing empty line are. *)
Example prettyPrintMatrix_table :
  let grid := [RArr [JNum (int 3); JNum (int 3); JNum (int 3); JNum (int (-1))];
               RArr [JNum (int 5); JNum (int (-5)); JNum (int 5)]] in
  minReplacementsToAvoidTriples (row_at grid 0) = Some 1%nat
  ∧ minReplacementsToAvoidTriples (row_at grid 1) = Some 0%nat
  ∧ value (findGlobalMin grid) = Some (int (-5))
  ∧ positions (findGlobalMin grid) = [mkPos 1 1]
  ∧ length (console (snd (prettyPrintMatrix (λ _, "") (MArr grid)
                            {| useColors := Some false |} half_world))) = 7%nat.
Proof. repeat split; vm_compute; reflexivity. Qed.

(** * Further properties *)

(** ** The sign-run analyzer: triples, uniform rows, splitting, reversal *)

Lemma has_triple_neutral (rest : list Z) : has_triple (0 :: rest) = has_triple rest.
Proof. destruct rest as [|b [|c rest]]; reflexivity. Qed.

Lemma has_triple_cons (s : Z) (rest : list Z) :
  has_triple (s :: rest)
  = negb (s =? 0) && (2 <=? span s rest)%nat || has_triple (drop (span s rest) rest).
Proof.
  destruct (Z.eqb_spec s 0) as [->|Hs].
  - rewrite has_triple_neutral. simpl.
    induction rest as [|b rest IH]; [done|]. cbn [span].
    destruct (Z.eqb_spec b 0) as [->|Hb]; [|done].
    cbn [drop]. by rewrite has_triple_neutral.
  - cbn [negb andb]. induction rest as [|b rest IH]; [done|].
    cbn [span]. destruct (Z.eqb_spec b s) as [->|Hb].
    + cbn [drop]. change (has_triple (s :: s :: rest))
        with (match rest with
              | c :: _ => negb (s =? 0) && (s =? s) && (s =? c)
              | [] => false
              end || has_triple (s :: rest)).
      rewrite IH. rewrite (proj2 (Z.eqb_neq s 0)) by done. rewrite Z.eqb_refl.
      destruct rest as [|c rest]; [done|]. cbn [span negb andb].
      rewrite (Z.eqb_sym s c). destruct (c =? s); [|done].
      cbn [drop]. by destruct (span s rest) as [|[|k]].
    + change (has_triple (s :: b :: rest))
        with (match rest with
              | c :: _ => negb (s =? 0) && (s =? b) && (b =? c)
              | [] => false
              end || has_triple (b :: rest)).
      rewrite (proj2 (Z.eqb_neq s b)) by done.
      rewrite andb_false_r. by destruct rest.
Qed.

Lemma total_zero_iff (n : nat) :
  ∀ signs : list Z, (length signs ≤ n)%nat → total signs = 0%nat ↔ has_triple signs = false.
Proof.
  induction n as [|n IH]; intros [|s rest] Hn; try done; try (simpl in Hn; lia).
  rewrite total_cons, has_triple_cons.
  pose proof (span_le s rest) as Hk.
  specialize (IH (drop (span s rest) rest)).
  rewrite length_drop in IH. specialize (IH ltac:(simpl in Hn; lia)).
  rewrite orb_false_iff, <- IH, Nat.eq_add_0.
  apply and_iff_compat_r.
  destruct (Z.eqb_spec s 0) as [->|Hs]; [done|]. cbn [negb andb].
  destruct (span s rest) as [|[|k]]; [done|done|].
  split; [|done]. intros Hdiv. exfalso.
  pose proof (Nat.div_mod_eq (S (S (S k))) 3). pose proof (Nat.mod_upper_bound (S (S (S k))) 3).
  lia.
Qed.

Lemma has_triple_spec (signs : list Z) :
  has_triple signs = true
  ↔ ∃ i s, s ≠ 0 ∧ signs !! i = Some s ∧ signs !! S i = Some s
           ∧ signs !! S (S i) = Some s.
Proof.
  induction signs as [|a rest IH].
  - split; [done|]. by intros (i & s & _ & H & _).
  - change (has_triple (a :: rest))
      with (match rest with
            | b :: c :: _ => negb (a =? 0) && (a =? b) && (b =? c)
            | _ => false
            end || has_triple rest).
    rewrite orb_true_iff, IH. split.
    + intros [Hhead | (i & s & Hs & H1 & H2 & H3)].
      * destruct rest as [|b [|c rest]]; try done.
        apply andb_true_iff in Hhead as [[Ha Hab]%andb_true_iff Hbc].
        apply Z.eqb_eq in Hab as ->, Hbc as ->. apply negb_true_iff, Z.eqb_neq in Ha.
        by exists O, c.
      * by exists (S i), s.
    + intros ([|i] & s & Hs & H1 & H2 & H3).
      * left. destruct rest as [|b [|c rest]]; try done. simpl in *.
        injection H1 as ->. injection H2 as ->. injection H3 as ->.
        rewrite Z.eqb_refl, (proj2 (Z.eqb_neq s 0)) by done. done.
      * right. by exists i, s.
Qed.

(** X1. The result is 0 exactly when the row has no three neighbouring
    cells of one and the same non-neutral sign. *)
Theorem minReplacements_zero_iff_no_triple (row : list jsval) :
  minReplacementsToAvoidTriples (RArr row) = Some 0%nat
  ↔ ¬ ∃ i, signOf (index row i) ≠ 0
           ∧ signOf (index row (S i)) = signOf (index row i)
           ∧ signOf (index row (S (S i))) = signOf (index row i).
Proof.
  rewrite minReplacements_array, replacements_by_runs_total.
  assert (Hidx : ∀ i s, s ≠ 0 →
            (signOf <$> row) !! i = Some s ↔ signOf (index row i) = s).
  { intros i s Hs. unfold index. rewrite list_lookup_fmap.
    destruct (row !! i) as [v|]; simpl; [|done]. split; congruence. }
  split.
  - intros [= Hz] (i & H0 & H1 & H2).
    apply (total_zero_iff (length (signOf <$> row))) in Hz; [|done].
    apply not_true_iff_false in Hz. apply Hz, has_triple_spec.
    exists i, (signOf (index row i)). split; [done|].
    rewrite !Hidx by done. done.
  - intros Hno. f_equal.
    apply (total_zero_iff (length (signOf <$> row))); [done|].
    apply not_true_iff_false. intros (i & s & Hs & H1 & H2 & H3)%has_triple_spec.
    apply Hno. exists i. apply Hidx in H1, H2, H3; try done. by rewrite H1, H2, H3.
Qed.

Lemma span_replicate_app (s : Z) (k : nat) (rest : list Z) :
  head rest ≠ Some s → span s (replicate k s ++ rest) = k.
Proof.
  intros Hhead. induction k as [|k IH]; simpl.
  - destruct rest as [|y rest]; [done|]. simpl.
    destruct (Z.eqb_spec y s) as [->|]; [by destruct Hhead|done].
  - by rewrite Z.eqb_refl, IH.
Qed.

(** The cells in front of position [span s signs] all equal [s], and the
    cell at that position does not. *)
Lemma span_split (s : Z) (signs : list Z) :
  signs = replicate (span s signs) s ++ drop (span s signs) signs
  ∧ head (drop (span s signs) signs) ≠ Some s.
Proof.
  induction signs as [|x rest [IH1 IH2]]; [done|]. cbn [span].
  destruct (Z.eqb_spec x s) as [->|Hx]; simpl.
  - split; [by rewrite <- IH1|done].
  - split; [done|congruence].
Qed.

Lemma total_nil : total [] = 0%nat.
Proof. reflexivity. Qed.

Lemma total_replicate (s : Z) (n : nat) :
  total (replicate n s) = if s =? 0 then 0%nat else (n / 3)%nat.
Proof.
  destruct n as [|n]; [by destruct (s =? 0)|].
  cbn [replicate]. rewrite total_cons.
  assert (Hspan : span s (replicate n s) = n).
  { rewrite <- (app_nil_r (replicate n s)). by apply span_replicate_app. }
  rewrite Hspan, drop_replicate, Nat.sub_diag. simpl.
  rewrite total_nil. destruct (s =? 0); lia.
Qed.

Lemma sign_blocks_app_change (l1 : list Z) (y : Z) (l2 : list Z) :
  last l1 ≠ Some y →
  sign_blocks (l1 ++ y :: l2) = sign_blocks l1 ++ sign_blocks (y :: l2).
Proof.
  induction l1 as [|s rest IH]; intros Hlast; [done|].
  cbn [app]. rewrite (sign_blocks_step s (rest ++ y :: l2)), (sign_blocks_step s rest).
  destruct rest as [|r rest].
  - change (sign_blocks []) with (@nil (Z * nat)). cbn [app].
    rewrite (sign_blocks_cons y l2).
    rewrite (proj2 (Z.eqb_neq s y)); [done|]. simpl in Hlast. congruence.
  - rewrite IH by (by rewrite last_cons_cons in Hlast).
    rewrite (sign_blocks_cons r rest). cbn [app].
    by destruct (s =? r).
Qed.

Lemma total_blocks_app (l1 l2 : list Z) :
  sign_blocks (l1 ++ l2) = sign_blocks l1 ++ sign_blocks l2 →
  total (l1 ++ l2) = (total l1 + total l2)%nat.
Proof.
  intros H. unfold total. by rewrite H, filter_app, !fmap_app, sum_list_with_app.
Qed.

Lemma total_app_change (l1 : list Z) (y : Z) (l2 : list Z) :
  last l1 ≠ Some y → total (l1 ++ y :: l2) = (total l1 + total (y :: l2))%nat.
Proof. intros H. by apply total_blocks_app, sign_blocks_app_change. Qed.

Lemma total_app_neutral (l1 l2 : list Z) :
  total (l1 ++ 0 :: l2) = (total l1 + total l2)%nat.
Proof.
  revert l2. induction l1 as [|x l1 IH] using rev_ind; intros l2.
  - cbn [app]. by rewrite total_cons_neutral, total_nil.
  - destruct (decide (x = 0)) as [->|Hx].
    + rewrite <- app_assoc. cbn [app]. rewrite !IH, total_cons_neutral, total_nil. lia.
    + rewrite total_app_change, total_cons_neutral; [done|].
      rewrite last_snoc. congruence.
Qed.

Lemma reverse_cons_span (s : Z) (rest : list Z) :
  reverse (s :: rest)
  = reverse (drop (span s rest) rest) ++ s :: replicate (span s rest) s.
Proof.
  destruct (span_split s rest) as [H _]. rewrite H at 1.
  rewrite reverse_cons, reverse_app, reverse_replicate, <- app_assoc. f_equal.
  by rewrite <- replicate_S_end.
Qed.

Lemma total_reverse (n : nat) :
  ∀ signs : list Z, (length signs ≤ n)%nat → total (reverse signs) = total signs.
Proof.
  induction n as [|n IH]; intros [|s rest] Hn; try done; try (simpl in Hn; lia).
  destruct (span_split s rest) as [_ Hhead].
  pose proof (span_le s rest) as Hk.
  rewrite reverse_cons_span, total_cons.
  rewrite total_app_change by (by rewrite last_reverse).
  change (s :: replicate (span s rest) s) with (replicate (S (span s rest)) s).
  rewrite total_replicate, IH; [lia|].
  rewrite length_drop. simpl in Hn. lia.
Qed.

(** X2. A row all of whose cells carry one non-neutral sign costs a third
    of its length, rounded down. *)
Theorem minReplacements_uniform (s : Z) (row : list jsval) :
  s ≠ 0 → Forall (λ v, signOf v = s) row →
  minReplacementsToAvoidTriples (RArr row) = Some (length row / 3)%nat.
Proof.
  intros Hs Hrow. rewrite minReplacements_array, replacements_by_runs_total.
  replace (signOf <$> row) with (replicate (length row) s).
  - rewrite total_replicate. by rewrite (proj2 (Z.eqb_neq s 0)).
  - induction Hrow as [|v row Hv _ IH]; [done|]. simpl. by rewrite Hv, IH.
Qed.

Lemma minReplacements_uniform_witness :
  minReplacementsToAvoidTriples
    (RArr [JNum (int (-7)); JNum NegInf; JNum (int (-1)); JNum (int (-2)); JNum (int (-9))])
  = Some (5 / 3)%nat.
Proof.
  apply (minReplacements_uniform (-1)
           [JNum (int (-7)); JNum NegInf; JNum (int (-1)); JNum (int (-2)); JNum (int (-9))]).
  - lia.
  - repeat constructor.
Defined.

(** X3. A neutral cell cuts the row in two independent parts: the result
    for the whole row is the sum of the results for the part in front of
    the neutral cell and the part behind it. *)
Theorem minReplacements_split_at_neutral (front back : list jsval) (v : jsval) :
  signOf v = 0 →
  ∃ a b, minReplacementsToAvoidTriples (RArr front) = Some a
         ∧ minReplacementsToAvoidTriples (RArr back) = Some b
         ∧ minReplacementsToAvoidTriples (RArr (front ++ v :: back)) = Some (a + b)%nat.
Proof.
  intros Hv. eexists _, _. rewrite !minReplacements_array.
  split; [done|]. split; [done|]. f_equal.
  rewrite !replacements_by_runs_total, fmap_app, fmap_cons, Hv.
  by rewrite total_app_neutral.
Qed.

Lemma minReplacements_split_at_neutral_witness :
  ∃ a b,
    minReplacementsToAvoidTriples (RArr [JNum (int 1); JNum (int 2); JNum (int 3)]) = Some a
    ∧ minReplacementsToAvoidTriples (RArr [JNum (int 4); JNum (int 5); JNum (int 6)])
      = Some b
    ∧ minReplacementsToAvoidTriples
        (RArr ([JNum (int 1); JNum (int 2); JNum (int 3)] ++ JNum NaN
                 :: [JNum (int 4); JNum (int 5); JNum (int 6)]))
      = Some (a + b)%nat.
Proof.
  apply (minReplacements_split_at_neutral
           [JNum (int 1); JNum (int 2); JNum (int 3)]
           [JNum (int 4); JNum (int 5); JNum (int 6)] (JNum NaN)).
  reflexivity.
Defined.

(** X4. Between two neighbouring cells of different sign the row can be
    cut as well: the result is the sum of the results for the two parts. *)
Theorem minReplacements_split_at_sign_change (front back : list jsval) (x y : jsval) :
  signOf x ≠ signOf y →
  ∃ a b, minReplacementsToAvoidTriples (RArr (front ++ [x])) = Some a
         ∧ minReplacementsToAvoidTriples (RArr (y :: back)) = Some b
         ∧ minReplacementsToAvoidTriples (RArr ((front ++ [x]) ++ y :: back))
           = Some (a + b)%nat.
Proof.
  intros Hxy. eexists _, _. rewrite !minReplacements_array.
  split; [done|]. split; [done|]. f_equal.
  rewrite !replacements_by_runs_total, (fmap_app _ (front ++ [x])), fmap_cons.
  apply total_app_change. rewrite fmap_app. simpl. rewrite last_snoc. congruence.
Qed.

Lemma minReplacements_split_at_sign_change_witness :
  ∃ a b,
    minReplacementsToAvoidTriples
      (RArr ([JNum (int 1); JNum (int 2)] ++ [JNum (int 3)])) = Some a
    ∧ minReplacementsToAvoidTriples
        (RArr (JNum (int (-4)) :: [JNum (int (-5)); JNum (int (-6))])) = Some b
    ∧ minReplacementsToAvoidTriples
        (RArr (([JNum (int 1); JNum (int 2)] ++ [JNum (int 3)])
               ++ JNum (int (-4)) :: [JNum (int (-5)); JNum (int (-6))]))
      = Some (a + b)%nat.
Proof.
  apply (minReplacements_split_at_sign_change
           [JNum (int 1); JNum (int 2)] [JNum (int (-5)); JNum (int (-6))]
           (JNum (int 3)) (JNum (int (-4)))).
  by vm_compute.
Defined.

(** X5. Reading the row from the other end gives the same result. *)
Theorem minReplacements_reverse (row : list jsval) :
  minReplacementsToAvoidTriples (RArr (reverse row))
  = minReplacementsToAvoidTriples (RArr row).
Proof.
  rewrite !minReplacements_array, !replacements_by_runs_total, fmap_reverse.
  f_equal. by apply (total_reverse (length (signOf <$> row))).
Qed.

(** ** The minimum locator: what a result says about the grid *)

Lemma visit_attained (st : number * list Position) (pv : Position * jsval) :
  fst st = PosInf ∨ snd st ≠ [] →
  fst (visit st pv) = PosInf ∨ snd (visit st pv) ≠ [].
Proof.
  destruct st as [m ps], pv as [[r k] v]. unfold visit, visit_cell. simpl.
  intros H. destruct v as [c| | |]; try done.
  destruct (is_NaN c); [done|]. destruct (num_lt c m); [by right|].
  destruct (num_eq c m); [|done]. right. by destruct ps.
Qed.

Lemma scan_matrix_attained (matrix : list rowval) :
  fst (scan_matrix matrix) = PosInf ∨ snd (scan_matrix matrix) ≠ [].
Proof.
  rewrite scan_matrix_row_major.
  assert (H : ∀ l st, fst st = PosInf ∨ snd st ≠ [] →
                      fst (foldl visit st l) = PosInf ∨ snd (foldl visit st l) ≠ []).
  { induction l as [|pv l IH]; intros st Hst; [done|]. simpl.
    by apply IH, visit_attained. }
  apply H. by left.
Qed.

Lemma not_below_infinity (c : number) :
  is_NaN c = false → num_lt c PosInf = false → c = PosInf.
Proof. by destruct c. Qed.

Lemma elem_of_occurrences (m : number) (matrix : list rowval) (p : Position) :
  p ∈ occurrences m matrix ↔ cell_at matrix p = Some (JNum m) ∧ is_NaN m = false.
Proof.
  unfold occurrences. rewrite list_elem_of_fmap. split.
  - intros ([p' v] & -> & [Hv Hin]%list_elem_of_filter). simpl in *.
    pose proof (cell_is_eq _ _ Hv) as ->. split; [by apply elem_of_row_major|].
    simpl in Hv. by destruct m.
  - intros [Hcell Hnan]. exists (p, JNum m). split; [done|].
    apply list_elem_of_filter. split; [|by apply elem_of_row_major].
    simpl. by apply num_eq_refl.
Qed.

(** X6. A reported minimum is a number other than NaN and [Infinity]; it
    occurs in the grid; the positions are exactly its occurrences, in
    row-major order; and no cell that is a number other than NaN is
    smaller. *)
Theorem findGlobalMin_minimum (matrix : list rowval) (m : number) :
  value (findGlobalMin matrix) = Some m →
  is_NaN m = false ∧ m ≠ PosInf
  ∧ positions (findGlobalMin matrix) ≠ []
  ∧ positions (findGlobalMin matrix) = occurrences m matrix
  ∧ (∀ p, p ∈ positions (findGlobalMin matrix) ↔ cell_at matrix p = Some (JNum m))
  ∧ (∀ p c, cell_at matrix p = Some (JNum c) → is_NaN c = false → num_lt c m = false).
Proof.
  intros Hv.
  destruct (findGlobalMin_reported matrix m Hv) as (Hocc & _ & Hlow).
  apply findGlobalMin_value_Some in Hv as [Hm Hinf].
  destruct (scan_matrix_invariant matrix) as (Hnan & _ & _). rewrite Hm in Hnan.
  split; [done|]. split; [done|]. split.
  - destruct (findGlobalMin_fields matrix) as [_ ->].
    destruct (scan_matrix_attained matrix) as [H|H]; [congruence|done].
  - split; [done|]. split; [|done].
    intros p. rewrite Hocc, elem_of_occurrences. split; [by intros [? _]|by split].
Qed.

Lemma findGlobalMin_minimum_witness :
  let grid := [RArr [JNum (int 5); JStr "x"; JNum (int (-2))]; RNullish;
               RArr [JNum NaN; JNum (int (-2))]] in
  is_NaN (int (-2)) = false ∧ int (-2) ≠ PosInf
  ∧ positions (findGlobalMin grid) ≠ []
  ∧ positions (findGlobalMin grid) = occurrences (int (-2)) grid
  ∧ (∀ p, p ∈ positions (findGlobalMin grid) ↔ cell_at grid p = Some (JNum (int (-2))))
  ∧ (∀ p c, cell_at grid p = Some (JNum c) → is_NaN c = false
            → num_lt c (int (-2)) = false).
Proof.
  intros grid. apply (findGlobalMin_minimum grid (int (-2))). reflexivity.
Defined.

(** X7. The result is [null] exactly when no cell is a number below
    [Infinity]: every cell is [Infinity], NaN or not a number. *)
Theorem findGlobalMin_null_iff (matrix : list rowval) :
  value (findGlobalMin matrix) = None
  ↔ ∀ p c, cell_at matrix p = Some (JNum c) → num_lt c PosInf = false.
Proof.
  destruct (findGlobalMin_fields matrix) as [Hval Hpos].
  destruct (scan_matrix_invariant matrix) as (Hnan & Hocc & Hlow).
  split.
  - intros Hnone p c Hc. rewrite Hval in Hnone.
    destruct (num_eq _ PosInf) eqn:E; [|done]. apply num_eq_eq in E.
    destruct (is_NaN c) eqn:Hcn; [by destruct c|].
    rewrite E in Hlow. apply (Hlow p c); [by apply elem_of_row_major|done].
  - intros Hall. rewrite Hval.
    destruct (num_eq _ PosInf) eqn:E; [done|]. exfalso.
    destruct (scan_matrix_attained matrix) as [H|H]; [rewrite H in E; discriminate|].
    destruct (snd (scan_matrix matrix)) as [|p ps] eqn:Eps; [done|].
    assert (Hp : p ∈ occurrences (fst (scan_matrix matrix)) matrix).
    { unfold occurrences. rewrite <- Hocc. by left. }
    apply elem_of_occurrences in Hp as [Hcell _].
    pose proof (Hall p _ Hcell) as Hge.
    by rewrite (not_below_infinity _ Hnan Hge) in E.
Qed.

Lemma StronglySorted_filter {A : Type} (R : A → A → Prop) (P : A → Prop)
    `{!∀ x, Decision (P x)} (l : list A) :
  StronglySorted R l → StronglySorted R (filter P l).
Proof.
  induction 1 as [|x l Hl IH Hx]; [constructor|].
  rewrite filter_cons. destruct (decide (P x)); [|done].
  constructor; [done|]. rewrite Forall_forall in Hx. apply Forall_forall.
  intros y [_ Hy]%list_elem_of_filter. by apply Hx.
Qed.

Lemma StronglySorted_fmap_fst {A B : Type} (R : A → A → Prop) (l : list (A * B)) :
  StronglySorted (λ x y, R (fst x) (fst y)) l → StronglySorted R (fst <$> l).
Proof.
  induction 1 as [|x l Hl IH Hx]; [constructor|].
  simpl. constructor; [done|]. by apply Forall_fmap.
Qed.

Lemma StronglySorted_NoDup {A : Type} (R : A → A → Prop) (l : list A) :
  (∀ x, ¬ R x x) → StronglySorted R l → NoDup l.
Proof.
  intros Hirr. induction 1 as [|x l Hl IH Hx]; constructor; [|done].
  intros Hin. rewrite Forall_forall in Hx. by apply (Hirr x), Hx.
Qed.

Lemma row_cells_sorted (r : nat) (row : list jsval) (c0 : nat) :
  StronglySorted (λ x y, pos_lt (fst x) (fst y))
    (imap (λ c v, (mkPos r (c0 + c), v)) row)
  ∧ Forall (λ x, rowIndex (fst x) = r ∧ (c0 ≤ colIndex (fst x))%nat)
      (imap (λ c v, (mkPos r (c0 + c), v)) row).
Proof.
  revert c0. induction row as [|v row IH]; intros c0; [by split; constructor|].
  rewrite imap_cons.
  destruct (IH (S c0)) as [Hs Hf].
  assert (Hext : imap ((λ c v, (mkPos r (c0 + c), v)) ∘ S) row
                 = imap (λ c v, (mkPos r (S c0 + c), v)) row).
  { apply imap_ext. intros c x _. simpl. do 2 f_equal. lia. }
  rewrite Hext. split.
  - constructor; [done|]. eapply Forall_impl; [exact Hf|].
    intros [p x] [Hr Hc]. right. simpl in *. lia.
  - constructor; [simpl; lia|]. eapply Forall_impl; [exact Hf|].
    intros [p x] [Hr Hc]. simpl in *. lia.
Qed.

Lemma rows_sorted (matrix : list rowval) (r0 : nat) :
  StronglySorted (λ x y, pos_lt (fst x) (fst y))
    (mjoin (imap (λ r row, imap (λ c v, (mkPos (r0 + r) c, v)) (row_or_empty row)) matrix))
  ∧ Forall (λ x, (r0 ≤ rowIndex (fst x))%nat)
      (mjoin (imap (λ r row, imap (λ c v, (mkPos (r0 + r) c, v)) (row_or_empty row)) matrix)).
Proof.
  revert r0. induction matrix as [|row matrix IH]; intros r0; [by split; constructor|].
  rewrite imap_cons.
  destruct (IH (S r0)) as [Hs Hf].
  assert (Hext : imap ((λ r row, imap (λ c v, (mkPos (r0 + r) c, v)) (row_or_empty row)) ∘ S)
                   matrix
                 = imap (λ r row, imap (λ c v, (mkPos (S r0 + r) c, v)) (row_or_empty row))
                     matrix).
  { apply imap_ext. intros r x _. simpl. apply imap_ext. intros c v _. do 2 f_equal. lia. }
  rewrite Hext. cbn [mjoin list_join].
  destruct (row_cells_sorted (r0 + 0) (row_or_empty row) 0) as [Hrow Hrowf].
  split.
  - apply StronglySorted_app_2; [|done|done].
    intros x1 x2 Hx1 Hx2. rewrite Forall_forall in Hrowf, Hf.
    destruct (Hrowf x1 Hx1) as [Hr1 _]. pose proof (Hf x2 Hx2). left. lia.
  - apply Forall_app. split; [|eapply Forall_impl; [exact Hf|]; simpl; intros; lia].
    eapply Forall_impl; [exact Hrowf|]. simpl. intros ? [? _]. lia.
Qed.

Lemma row_major_sorted (matrix : list rowval) :
  StronglySorted (λ x y, pos_lt (fst x) (fst y)) (row_major matrix).
Proof. exact (proj1 (rows_sorted matrix 0)). Qed.

Lemma pos_lt_irrefl (p : Position) : ¬ pos_lt p p.
Proof. unfold pos_lt. lia. Qed.

(** X8. On every grid the returned positions are in strictly increasing
    row-major order, hence pairwise distinct, and every one of them points
    at a cell of the grid that holds a number other than NaN; all of them
    hold the same number. *)
Theorem findGlobalMin_positions_ordered (matrix : list rowval) :
  StronglySorted pos_lt (positions (findGlobalMin matrix))
  ∧ NoDup (positions (findGlobalMin matrix))
  ∧ ∃ m, is_NaN m = false
         ∧ ∀ p, p ∈ positions (findGlobalMin matrix) → cell_at matrix p = Some (JNum m).
Proof.
  rewrite findGlobalMin_positions.
  assert (Hs : StronglySorted pos_lt (occurrences (fst (scan_matrix matrix)) matrix)).
  { apply StronglySorted_fmap_fst, StronglySorted_filter, row_major_sorted. }
  split; [done|]. split; [by eapply StronglySorted_NoDup; [apply pos_lt_irrefl|]|].
  exists (fst (scan_matrix matrix)).
  split; [by destruct (scan_matrix_invariant matrix)|].
  intros p Hp. by apply elem_of_occurrences in Hp as [? _].
Qed.

Lemma rowsWithMin_positions (matrix : list rowval) (r : nat) :
  r ∈ rowsWithMin (findGlobalMin matrix)
  ↔ ∃ c, mkPos r c ∈ positions (findGlobalMin matrix).
Proof.
  assert (Hrows : rowsWithMin (findGlobalMin matrix)
                  = list_to_set (rowIndex <$> positions (findGlobalMin matrix))).
  { unfold findGlobalMin. by destruct (scan_matrix matrix). }
  rewrite Hrows, elem_of_list_to_set, list_elem_of_fmap. split.
  - intros ([r' c] & -> & Hin). by exists c.
  - intros [c Hc]. by exists (mkPos r c).
Qed.

(** X9. When a minimum is reported, the set of marked rows holds exactly
    the indices of the rows that contain a cell equal to it. *)
Theorem findGlobalMin_rowsWithMin (matrix : list rowval) (m : number) (r : nat) :
  value (findGlobalMin matrix) = Some m →
  r ∈ rowsWithMin (findGlobalMin matrix)
  ↔ ∃ c, cell_at matrix (mkPos r c) = Some (JNum m).
Proof.
  intros Hv. apply findGlobalMin_value_Some in Hv as [Hm _].
  destruct (scan_matrix_invariant matrix) as (Hnan & _ & _). rewrite Hm in Hnan.
  rewrite rowsWithMin_positions, findGlobalMin_positions, Hm. split.
  - intros [c [Hc _]%elem_of_occurrences]. by exists c.
  - intros [c Hc]. exists c. by apply elem_of_occurrences.
Qed.

Lemma findGlobalMin_rowsWithMin_witness :
  let grid := [RArr [JNum (int 5); JNum (int 1)]; RArr [JNum (int 1); JNum (int 3)]] in
  1%nat ∈ rowsWithMin (findGlobalMin grid)
  ↔ ∃ c, cell_at grid (mkPos 1 c) = Some (JNum (int 1)).
Proof.
  intros grid. apply (findGlobalMin_rowsWithMin grid (int 1) 1). reflexivity.
Defined.

(** ** The grid generator: draws, symmetry, reachability *)

Lemma advance_0 (w : World) : advance 0 w = w.
Proof. by destruct w. Qed.

Lemma advance_advance (j k : nat) (w : World) :
  advance j (advance k w) = advance (j + k) w.
Proof. unfold advance. simpl. f_equal. lia. Qed.

Lemma randInt_run (min max : number) (w : World) :
  randInt min max w = (Ok (randInt_of min max (rng w (drawn w))), advance 1 w).
Proof. unfold randInt, randInt_of. by destruct (num_gt min max). Qed.

Lemma map_calls_draws {A : Type} (f : M A) (k : nat) (g : (nat → Qc) → nat → A) :
  (∀ w, f w = (Ok (g (rng w) (drawn w)), advance k w)) →
  ∀ n w, map_calls n f w
         = (Ok ((λ i, g (rng w) (drawn w + i * k)%nat) <$> seq 0 n), advance (n * k) w).
Proof.
  intros Hf. induction n as [|n IH]; intros w.
  - simpl. by rewrite advance_0.
  - cbn [map_calls]. unfold mbind, M_bind at 1. rewrite Hf.
    unfold mbind, M_bind at 1. rewrite IH, advance_advance.
    unfold mret, M_ret. f_equal; [|f_equal; lia].
    f_equal. cbn [seq fmap list_fmap]. f_equal; [f_equal; lia|].
    rewrite <- fmap_S_seq, <- list_fmap_compose.
    apply list_fmap_ext. intros _ i _. simpl. f_equal. lia.
Qed.

Lemma map_calls_ext {A : Type} (f g : M A) :
  (∀ w, f w = g w) → ∀ n w, map_calls n f w = map_calls n g w.
Proof.
  intros Hfg. induction n as [|n IH]; intros w; [done|].
  cbn [map_calls]. unfold mbind, M_bind at 1 3. rewrite Hfg.
  destruct (g w) as [[a| |] w1]; [|done..].
  unfold mbind, M_bind. by rewrite IH.
Qed.

Lemma Array_from_ext {A : Type} (len : number) (f g : M A) (w : World) :
  (∀ w, f w = g w) → Array_from len f w = Array_from len g w.
Proof.
  intros Hfg. unfold Array_from. destruct (_ <=? _); [done|]. by apply map_calls_ext.
Qed.

Lemma generate_row_run (c : Z) (min max : number) (w : World) :
  0 ≤ c < 2 ^ 32 →
  (cells ← Array_from (int c) (randInt min max); mret (RArr (JNum <$> cells))) w
  = (Ok (RArr ((λ j, JNum (randInt_of min max (rng w (drawn w + j)%nat)))
               <$> seq 0 (Z.to_nat c))),
     advance (Z.to_nat c) w).
Proof.
  intros Hc. rewrite Array_from_fits by done. unfold mbind, M_bind.
  rewrite (map_calls_draws (randInt min max) 1 (λ rng d, randInt_of min max (rng d)))
    by apply randInt_run.
  rewrite Nat.mul_1_r. unfold mret, M_ret. do 3 f_equal.
  rewrite <- list_fmap_compose. apply list_fmap_ext. intros _ j _. simpl.
  do 3 f_equal. lia.
Qed.

Lemma generateMatrix_run (r c : Z) (min max : number) (w : World) :
  0 < r < 2 ^ 32 → 0 < c < 2 ^ 32 →
  generateMatrix (int r) (int c) min max w
  = (Ok (generated_grid (Z.to_nat r) (Z.to_nat c) min max w),
     advance (Z.to_nat r * Z.to_nat c) w).
Proof.
  intros Hr Hc. unfold generateMatrix.
  rewrite (proj2 (dimensions_guard (int r) (int c)))
    by (split; eexists; (split; [|reflexivity]); lia).
  rewrite Array_from_fits by lia.
  apply (map_calls_draws _ (Z.to_nat c)
           (λ rng d, RArr ((λ j, JNum (randInt_of min max (rng (d + j)%nat)))
                           <$> seq 0 (Z.to_nat c)))).
  intros w0. apply generate_row_run. lia.
Qed.

Lemma generated_grid_cell (r c : nat) (min max : number) (w : World) (i j : nat) :
  cell_at (generated_grid r c min max w) (mkPos i j)
  = if decide (i < r ∧ j < c)%nat
    then Some (JNum (randInt_of min max (rng w (drawn w + i * c + j)%nat)))
    else None.
Proof.
  unfold cell_at, row_at, generated_grid. simpl.
  rewrite list_lookup_fmap.
  destruct (decide (i < r)%nat) as [Hi|Hi].
  - rewrite lookup_seq_lt by done. simpl. rewrite list_lookup_fmap.
    destruct (decide (j < c)%nat) as [Hj|Hj].
    + rewrite lookup_seq_lt by done. simpl. by rewrite decide_True.
    + rewrite lookup_seq_ge by lia. simpl. rewrite decide_False; [done|]. lia.
  - rewrite lookup_seq_ge by lia. simpl. rewrite decide_False; [done|]. lia.
Qed.

(** X10. For positive integer dimensions below [2 ^ 32], the lengths an
    array can have, the call consumes exactly [rows * cols] draws and
    changes nothing else in the world, and the cell in row [i] and column
    [j] is what [randInt] makes of draw number [i * cols + j]: the grid is
    filled in row-major order, one draw per cell. *)
Theorem generateMatrix_draws (r c : Z) (min max : number) (w : World) :
  0 < r < 2 ^ 32 → 0 < c < 2 ^ 32 →
  ∃ grid w',
    generateMatrix (int r) (int c) min max w = (Ok grid, w')
    ∧ drawn w' = (Z.to_nat r * Z.to_nat c + drawn w)%nat
    ∧ rng w' = rng w ∧ console w' = console w ∧ isTTY w' = isTTY w
    ∧ ∀ i j, (i < Z.to_nat r)%nat → (j < Z.to_nat c)%nat →
        cell_at grid (mkPos i j)
        = Some (JNum (randInt_of min max (rng w (drawn w + i * Z.to_nat c + j)%nat))).
Proof.
  intros Hr Hc. eexists _, _. split; [by apply generateMatrix_run|].
  repeat split. intros i j Hi Hj.
  rewrite generated_grid_cell. by rewrite decide_True.
Qed.

Lemma generateMatrix_draws_witness :
  ∃ grid w',
    generateMatrix (int 2) (int 3) (int 0) (int 9) half_world = (Ok grid, w')
    ∧ drawn w' = (Z.to_nat 2 * Z.to_nat 3 + drawn half_world)%nat
    ∧ rng w' = rng half_world ∧ console w' = console half_world
    ∧ isTTY w' = isTTY half_world
    ∧ ∀ i j, (i < Z.to_nat 2)%nat → (j < Z.to_nat 3)%nat →
        cell_at grid (mkPos i j)
        = Some (JNum (randInt_of (int 0) (int 9)
                        (rng half_world (drawn half_world + i * Z.to_nat 3 + j)%nat))).
Proof. apply (generateMatrix_draws 2 3 (int 0) (int 9) half_world); lia. Defined.

Lemma Qc_ltb_asym (x y : Qc) : Qc_ltb x y = true → Qc_ltb y x = false.
Proof.
  intros H%Qc_ltb_lt. apply not_true_is_false. rewrite Qc_ltb_lt.
  intros H'. by apply (irreflexivity (<)%Qc x), (Qclt_trans _ y).
Qed.

Lemma Qc_ltb_total (x y : Qc) : Qc_ltb x y = false → Qc_ltb y x = false → x = y.
Proof.
  intros Hxy%not_true_iff_false Hyx%not_true_iff_false.
  rewrite Qc_ltb_lt in Hxy, Hyx.
  apply Qcle_antisym; by apply Qcnot_lt_le.
Qed.

Lemma randInt_of_comm (a b : number) (r : Qc) : randInt_of a b r = randInt_of b a r.
Proof.
  unfold randInt_of, num_gt.
  destruct a as [x| | |], b as [y| | |]; try reflexivity.
  cbn [num_lt].
  destruct (Qc_ltb y x) eqn:Hyx, (Qc_ltb x y) eqn:Hxy; try reflexivity.
  - by rewrite (Qc_ltb_asym _ _ Hyx) in Hxy.
  - by rewrite (Qc_ltb_total _ _ Hxy Hyx).
Qed.

(** X11. The two bounds can be given in either order: the call behaves
    the same, on every input and in every world. *)
Theorem generateMatrix_bounds_swap (rows cols a b : number) (w : World) :
  generateMatrix rows cols a b w = generateMatrix rows cols b a w.
Proof.
  unfold generateMatrix.
  destruct (negb (Number_isInteger rows) || negb (Number_isInteger cols)
            || num_le rows (int 0) || num_le cols (int 0)) eqn:Hguard; [done|].
  apply Array_from_ext. intros w1. unfold mbind, M_bind.
  rewrite (Array_from_ext cols (randInt a b) (randInt b a)); [done|].
  intros w2. by rewrite !randInt_run, randInt_of_comm.
Qed.

Lemma randInt_of_range (a b : Z) (r : Qc) :
  safe_bounds a b → is_double r → (0 ≤ r)%Qc → (r < 1)%Qc →
  ∃ z, randInt_of (int a) (int b) r = int z ∧ Z.min a b ≤ z ≤ Z.max a b.
Proof.
  intros Hs Hd H0 H1. destruct (Z.le_gt_cases a b) as [Hab|Hba].
  - unfold randInt_of, num_gt. rewrite num_lt_int, (proj2 (Z.ltb_ge b a)) by done.
    destruct (randInt_value a b r) as (z & Hz & Hrange); [done..|].
    exists z. split; [done|lia].
  - unfold randInt_of, num_gt. rewrite num_lt_int, (proj2 (Z.ltb_lt b a)) by done.
    destruct (randInt_value b a r) as (z & Hz & Hrange);
      [lia|by apply safe_bounds_sym|done..|].
    exists z. split; [done|lia].
Qed.

Lemma round_half_even_comp (x y : Q) : (x == y)%Q → round_half_even x = round_half_even y.
Proof.
  intros H. unfold round_half_even. rewrite (Qfloor_comp x y H).
  assert (Hc : (x - inject_Z (Qfloor y) ?= 1 # 2)%Q = (y - inject_Z (Qfloor y) ?= 1 # 2)%Q)
    by (by rewrite H).
  by rewrite Hc.
Qed.

Lemma round_half_even_ge (y : Q) (K : Z) : (inject_Z K <= y)%Q → K ≤ round_half_even y.
Proof.
  intros H. assert (Hf : K ≤ Qfloor y).
  { rewrite <- (Qfloor_Z K). by apply Qfloor_resp_le. }
  unfold round_half_even. destruct (_ ?= _)%Q; [destruct (Z.even _)| |]; lia.
Qed.

Lemma scale2_down_ge (M k j : Z) :
  0 ≤ j → k * 2 ^ j ≤ M → (inject_Z k <= scale2 (inject_Z M) (- j))%Q.
Proof.
  intros Hj HM. pose proof (pow2_pos j Hj) as Hp.
  assert (HMQ : (inject_Z k * inject_Z (2 ^ j) <= inject_Z M)%Q)
    by (by rewrite <- inject_Z_mult, <- Zle_Qle).
  unfold scale2. destruct (Z.leb_spec 0 (- j)) as [H0|H0].
  - replace j with 0 in * by lia. change (- 0) with 0. simpl in *.
    by rewrite Qmult_1_r in *.
  - rewrite Z.opp_involutive. apply Qle_shift_div_l; [by rewrite <- (Zlt_Qlt 0)|done].
Qed.

(** Rounding does not go below an integer that the number is not below. *)
Lemma round_pos_above (x v : Q) (k : Z) :
  (0 < x)%Q → (x < inject_Z (2 ^ 53))%Q → (inject_Z k <= x)%Q →
  round_pos x = Some v → (inject_Z k <= v)%Q.
Proof.
  intros Hx Hx53 Hk. unfold round_pos.
  assert (He : ilog2 x < 53) by (by apply ilog2_lt).
  set (qe := Z.max (ilog2 x - 52) (-1074)).
  set (j := - qe). assert (Hj : 0 ≤ j) by (unfold j, qe; lia).
  pose proof (pow2_pos j Hj) as Hp.
  replace (- qe) with j by done. rewrite (scale2_up _ j) by done.
  replace qe with (- j) by (unfold j; lia).
  destruct (Qle_bool _ _); [done|]. intros [= <-].
  apply scale2_down_ge; [done|]. apply round_half_even_ge.
  rewrite inject_Z_mult. apply Qmult_le_compat_r; [done|].
  rewrite <- (Zle_Qle 0). lia.
Qed.

(** A multiple of [2 ^ -53] below 1 is a double. *)
Lemma round_pos_frac53 (x : Q) (m : Z) :
  0 < m < 2 ^ 53 → (x * inject_Z (2 ^ 53) == inject_Z m)%Q →
  ∃ v, round_pos x = Some v ∧ (v == x)%Q.
Proof.
  intros [Hm0 Hm] Hx.
  assert (H53 : (0 < inject_Z (2 ^ 53))%Q) by done.
  assert (Hpos : (0 < x)%Q).
  { apply (Qmult_lt_r _ _ (inject_Z (2 ^ 53))); [done|].
    rewrite Qmult_0_l, Hx, <- (Zlt_Qlt 0). done. }
  assert (Hlt1 : (x < 1)%Q).
  { apply (Qmult_lt_r _ _ (inject_Z (2 ^ 53))); [done|].
    rewrite Qmult_1_l, Hx, <- Zlt_Qlt. done. }
  destruct (ilog2_below_1 x Hpos Hlt1) as [He _].
  unfold round_pos.
  set (qe := Z.max (ilog2 x - 52) (-1074)).
  set (j := - qe). assert (Hj : 53 ≤ j) by (unfold j, qe; lia).
  pose proof (pow2_pos j ltac:(lia)) as Hp.
  pose proof (pow2_pos (j - 53) ltac:(lia)) as Hp'.
  replace (- qe) with j by done. rewrite (scale2_up _ j) by lia.
  replace qe with (- j) by (unfold j; lia).
  assert (Hpow : 2 ^ j = 2 ^ 53 * 2 ^ (j - 53))
    by (rewrite <- Z.pow_add_r by lia; f_equal; lia).
  assert (Hint : (x * inject_Z (2 ^ j) == inject_Z (m * 2 ^ (j - 53)))%Q).
  { rewrite Hpow, !inject_Z_mult, Qmult_assoc, Hx. reflexivity. }
  rewrite (round_half_even_comp _ _ Hint), round_half_even_int.
  assert (Hv : (scale2 (inject_Z (m * 2 ^ (j - 53))) (- j) == x)%Q).
  { unfold scale2. rewrite (proj2 (Z.leb_gt 0 (- j))) by lia.
    rewrite Z.opp_involutive, <- Hint. field.
    intros Hz. rewrite (Zlt_Qlt 0), Hz in Hp. by apply Qlt_irrefl in Hp. }
  destruct (Qle_bool _ _) eqn:Hover.
  - apply Qle_bool_iff in Hover. rewrite Hv in Hover.
    exfalso. apply (Qlt_irrefl x). eapply Qlt_le_trans; [exact Hlt1|].
    eapply Qle_trans; [|exact Hover]. by rewrite <- (Zle_Qle 1).
  - eexists. split; [reflexivity|exact Hv].
Qed.

(** For a count [n] of at most [2 ^ 52] values, every one of [0 .. n - 1]
    is the floor of the rounded product of [n] and some double of the unit
    interval. *)
Lemma floor_scaled_draw_hits (n k : Z) :
  1 ≤ n ≤ 2 ^ 52 → 0 ≤ k < n →
  ∃ r : Qc, is_double r ∧ (0 ≤ r)%Qc ∧ (r < 1)%Qc
            ∧ Math_floor (num_mul (Fin r) (int n)) = int k.
Proof.
  intros Hn Hk.
  set (m := (k * 2 ^ 53 + n - 1) / n).
  assert (Hdiv : m * n ≤ k * 2 ^ 53 + n - 1 < m * n + n).
  { pose proof (Z.div_mod (k * 2 ^ 53 + n - 1) n ltac:(lia)) as Hdm.
    pose proof (Z.mod_pos_bound (k * 2 ^ 53 + n - 1) n ltac:(lia)) as Hmod.
    fold m in Hdm. lia. }
  clearbody m.
  change (2 ^ 53) with 9007199254740992 in *.
  change (2 ^ 52) with 4503599627370496 in *.
  assert (Hm : 0 ≤ m < 9007199254740992) by nia.
  assert (Hlow : k * 9007199254740992 ≤ m * n) by lia.
  assert (Hup : m * n ≤ (k + 1) * 9007199254740991) by nia.
  set (r := Q2Qc (m # 9007199254740992)).
  assert (Hr : (r * inject_Z 9007199254740992 == inject_Z m)%Q).
  { unfold r. simpl. rewrite Qred_correct. unfold Qeq, Qmult, inject_Z. simpl. lia. }
  assert (Hr0 : (0 ≤ r)%Qc).
  { unfold r, Qcle. simpl. rewrite !Qred_correct. unfold Qle. simpl. lia. }
  assert (Hr1 : (r < 1)%Qc).
  { unfold r, Qclt. simpl. rewrite !Qred_correct. unfold Qlt. simpl. lia. }
  exists r. split; [|split; [done|split; [done|]]].
  - unfold is_double. destruct (Z.eq_dec m 0) as [->|Hm0].
    + by vm_compute.
    + destruct (round_pos_frac53 r m ltac:(lia) Hr) as (v & Hv & Hvr).
      rewrite (round64_pos r v); [|by (apply Qle_lt_or_eq in Hr0 as [?|E];
        [done|exfalso; rewrite <- E, Qmult_0_l in Hr; apply Hm0;
         symmetry in Hr; unfold Qeq in Hr; simpl in Hr; lia])|done].
      simpl. apply Qeq_bool_iff. simpl. by rewrite Qred_correct.
  - unfold int at 1. cbn [num_mul].
    set (x := this (r * Qc_of_Z n)%Qc).
    assert (Hx : (x == r * inject_Z n)%Q) by (unfold x; simpl; apply Qred_correct).
    assert (Hx53 : (x * inject_Z 9007199254740992 == inject_Z (m * n))%Q).
    { rewrite Hx, inject_Z_mult, <- Hr. ring. }
    assert (H53 : (0 < inject_Z 9007199254740992)%Q) by done.
    destruct (Z.eq_dec m 0) as [Hm0|Hm0].
    + assert (k = 0) as -> by lia.
      assert (Hq : Qnum x = 0).
      { rewrite Hm0 in Hx53. simpl in Hx53. unfold Qeq in Hx53. simpl in Hx53. lia. }
      unfold round64. by rewrite Hq.
    + assert (Hpos : (0 < x)%Q).
      { apply (Qmult_lt_r _ _ (inject_Z 9007199254740992)); [done|].
        rewrite Qmult_0_l, Hx53, <- (Zlt_Qlt 0). nia. }
      destruct (round_pos_below x (k + 1) Hpos) as (v & Hv & Hv0 & Hvk).
      { change (2 ^ 53) with 9007199254740992. lia. }
      { change (2 ^ 53) with 9007199254740992. rewrite Hx53.
        change (9007199254740992 - 1) with 9007199254740991.
        by rewrite <- inject_Z_mult, <- Zle_Qle. }
      assert (Hvk' : (inject_Z k <= v)%Q).
      { apply (round_pos_above x v k Hpos); [| |done].
        - apply (Qmult_lt_r _ _ (inject_Z 9007199254740992)); [done|].
          rewrite Hx53, <- inject_Z_mult, <- Zlt_Qlt.
          change (2 ^ 53) with 9007199254740992. nia.
        - apply (Qmult_le_r _ _ (inject_Z 9007199254740992)); [done|].
          by rewrite Hx53, <- inject_Z_mult, <- Zle_Qle. }
      rewrite (round64_pos x v Hpos Hv). cbn [Math_floor]. f_equal.
      assert (Hfl : Qfloor (Q2Qc v) = Qfloor v) by (simpl; by rewrite Qred_correct).
      rewrite Hfl.
      assert (Hge : k ≤ Qfloor v).
      { rewrite <- (Qfloor_Z k). by apply Qfloor_resp_le. }
      assert (Hlt : Qfloor v < k + 1).
      { rewrite Zlt_Qlt. eapply Qle_lt_trans; [apply Qfloor_le|done]. }
      f_equal. lia.
Qed.

Lemma randInt_of_hits (lo hi z : Z) :
  lo ≤ hi → safe_bounds lo hi → hi - lo < 2 ^ 52 → lo ≤ z ≤ hi →
  ∃ r : Qc, is_double r ∧ (0 ≤ r)%Qc ∧ (r < 1)%Qc
            ∧ randInt_of (int lo) (int hi) r = int z.
Proof.
  intros Hle (Hlo & Hhi & Hspan) H52 Hz.
  destruct (floor_scaled_draw_hits (hi - lo + 1) (z - lo)) as (r & Hd & H0 & H1 & Hfl);
    [lia|lia|].
  exists r. split; [done|]. split; [done|]. split; [done|].
  unfold randInt_of, num_gt. rewrite num_lt_int, (proj2 (Z.ltb_ge hi lo)) by done.
  rewrite num_sub_int, num_add_int by lia. rewrite Hfl, num_add_int by lia.
  f_equal. lia.
Qed.

(** X12. For integer bounds of magnitude below [2 ^ 53] that are less than
    [2 ^ 52] apart, given in either order, every integer between them, both
    included, is returned for some draw that is a double of the unit
    interval: the range is covered, not only respected. *)
Theorem randInt_covers_range (a b z : Z) :
  safe_bounds a b → Z.abs (b - a) < 2 ^ 52 → Z.min a b ≤ z ≤ Z.max a b →
  ∃ r : Qc, is_double r ∧ (0 ≤ r)%Qc ∧ (r < 1)%Qc
            ∧ ∀ w, rng w (drawn w) = r →
                   randInt (int a) (int b) w = (Ok (int z), advance 1 w).
Proof.
  intros Hs H52 Hz.
  destruct (Z.le_gt_cases a b) as [Hab|Hba].
  - destruct (randInt_of_hits a b z) as (r & Hd & H0 & H1 & Hr); [done|done|lia|lia|].
    exists r. split; [done|]. split; [done|]. split; [done|].
    intros w Hw. by rewrite randInt_run, Hw, Hr.
  - destruct (randInt_of_hits b a z) as (r & Hd & H0 & H1 & Hr);
      [lia|by apply safe_bounds_sym|lia|lia|].
    exists r. split; [done|]. split; [done|]. split; [done|].
    intros w Hw. by rewrite randInt_run, Hw, randInt_of_comm, Hr.
Qed.

Lemma randInt_covers_range_witness :
  ∃ r : Qc, is_double r ∧ (0 ≤ r)%Qc ∧ (r < 1)%Qc
            ∧ ∀ w, rng w (drawn w) = r →
                   randInt (int 100) (int (-100)) w = (Ok (int 100), advance 1 w).
Proof.
  apply (randInt_covers_range 100 (-100) 100).
  - unfold safe_bounds. lia.
  - lia.
  - lia.
Defined.

(** ** Generating a grid and locating its minimum *)

Lemma findGlobalMin_of_candidate (matrix : list rowval) (p : Position) (c : number) :
  cell_at matrix p = Some (JNum c) → num_lt c PosInf = true →
  ∃ m q, value (findGlobalMin matrix) = Some m
         ∧ q ∈ positions (findGlobalMin matrix)
         ∧ cell_at matrix q = Some (JNum m).
Proof.
  intros Hc Hlt.
  destruct (findGlobalMin_fields matrix) as [Hval Hpos].
  destruct (scan_matrix_invariant matrix) as (Hnan & Hocc & Hlow).
  assert (Hcn : is_NaN c = false) by (by destruct c).
  destruct (num_eq (fst (scan_matrix matrix)) PosInf) eqn:E.
  { apply num_eq_eq in E. rewrite E in Hlow.
    rewrite (Hlow p c) in Hlt; [done|by apply elem_of_row_major|done]. }
  exists (fst (scan_matrix matrix)).
  destruct (scan_matrix_attained matrix) as [H|H]; [rewrite H in E; discriminate|].
  destruct (snd (scan_matrix matrix)) as [|q qs] eqn:Eqs; [done|].
  exists q. split; [done|]. rewrite Hpos. split; [by left|].
  assert (Hq : q ∈ occurrences (fst (scan_matrix matrix)) matrix).
  { unfold occurrences. rewrite <- Hocc. by left. }
  by apply elem_of_occurrences in Hq as [? _].
Qed.

(** X13. The grid generated for positive integer dimensions below
    [2 ^ 32] and integer bounds on which the arithmetic of [randInt] is
    exact, from draws that are doubles in the unit interval, always has a
    global minimum: [findGlobalMin] reports an integer between the two
    bounds and at least one position. *)
Theorem generated_grid_has_minimum (r c a b : Z) (w : World) :
  0 < r < 2 ^ 32 → 0 < c < 2 ^ 32 → safe_bounds a b → unit_draws w →
  ∃ grid w' z,
    generateMatrix (int r) (int c) (int a) (int b) w = (Ok grid, w')
    ∧ value (findGlobalMin grid) = Some (int z)
    ∧ Z.min a b ≤ z ≤ Z.max a b
    ∧ positions (findGlobalMin grid) ≠ [].
Proof.
  intros Hr Hc Hs Hw.
  set (grid := generated_grid (Z.to_nat r) (Z.to_nat c) (int a) (int b) w).
  assert (Hcell : ∀ p v, cell_at grid p = Some v →
            ∃ z, v = JNum (int z) ∧ Z.min a b ≤ z ≤ Z.max a b).
  { intros [i j] v. unfold grid. rewrite generated_grid_cell.
    destruct (decide _); [|done]. intros [= <-].
    destruct (Hw (drawn w + i * Z.to_nat c + j)%nat) as (Hd & H0 & H1).
    destruct (randInt_of_range a b _ Hs Hd H0 H1) as (z & -> & Hz). by exists z. }
  assert (H00 : is_Some (cell_at grid (mkPos 0 0))).
  { unfold grid. rewrite generated_grid_cell, decide_True by lia. done. }
  destruct H00 as [v0 Hv0]. destruct (Hcell _ _ Hv0) as (z0 & -> & _).
  destruct (findGlobalMin_of_candidate grid _ _ Hv0) as (m & q & Hval & Hq & Hqm); [done|].
  destruct (Hcell _ _ Hqm) as (z & [= ->] & Hz).
  exists grid, (advance (Z.to_nat r * Z.to_nat c) w), z.
  split; [by apply generateMatrix_run|]. split; [done|]. split; [done|].
  intros Hnil. rewrite Hnil in Hq. by apply elem_of_nil in Hq.
Qed.

Lemma generated_grid_has_minimum_witness :
  ∃ grid w' z,
    generateMatrix (int 10) (int 10) (int (-100)) (int 100) half_world = (Ok grid, w')
    ∧ value (findGlobalMin grid) = Some (int z)
    ∧ Z.min (-100) 100 ≤ z ≤ Z.max (-100) 100
    ∧ positions (findGlobalMin grid) ≠ [].
Proof.
  apply (generated_grid_has_minimum 10 10 (-100) 100 half_world); [lia|lia| |].
  - unfold safe_bounds. lia.
  - intros k. repeat split; by vm_compute.
Defined.

Lemma randInt_of_NaN (a b : number) (r : Qc) :
  is_NaN a = true ∨ is_NaN b = true → randInt_of a b r = NaN.
Proof. intros [H|H]; destruct a, b; done. Qed.

(** X22. When one of the two bounds is NaN, every cell of the generated
    grid is NaN, and [findGlobalMin] finds no minimum in it: the value is
    [null] and there are no positions. *)
Theorem generated_grid_NaN_bound (r c : Z) (a b : number) (w : World) :
  0 < r < 2 ^ 32 → 0 < c < 2 ^ 32 → is_NaN a = true ∨ is_NaN b = true →
  ∃ grid w',
    generateMatrix (int r) (int c) a b w = (Ok grid, w')
    ∧ (∀ i j, (i < Z.to_nat r)%nat → (j < Z.to_nat c)%nat →
         cell_at grid (mkPos i j) = Some (JNum NaN))
    ∧ value (findGlobalMin grid) = None
    ∧ positions (findGlobalMin grid) = [].
Proof.
  intros Hr Hc Hnan.
  set (grid := generated_grid (Z.to_nat r) (Z.to_nat c) a b w).
  assert (Hcell : ∀ p v, cell_at grid p = Some v → v = JNum NaN).
  { intros [i j] v. unfold grid. rewrite generated_grid_cell.
    destruct (decide _); [|done]. intros [= <-]. by rewrite randInt_of_NaN. }
  exists grid, (advance (Z.to_nat r * Z.to_nat c) w).
  split; [by apply generateMatrix_run|]. split.
  - intros i j Hi Hj. unfold grid. rewrite generated_grid_cell, decide_True by done.
    by rewrite randInt_of_NaN.
  - destruct (findGlobalMin_fields grid) as [-> ->].
    rewrite scan_matrix_row_major, foldl_visit_no_candidate; [done|].
    intros [p v] Hin. apply elem_of_row_major in Hin.
    by rewrite (Hcell p v Hin).
Qed.

Lemma generated_grid_NaN_bound_witness :
  ∃ grid w',
    generateMatrix (int 2) (int 3) NaN (int 9) half_world = (Ok grid, w')
    ∧ (∀ i j, (i < Z.to_nat 2)%nat → (j < Z.to_nat 3)%nat →
         cell_at grid (mkPos i j) = Some (JNum NaN))
    ∧ value (findGlobalMin grid) = None
    ∧ positions (findGlobalMin grid) = [].
Proof.
  apply (generated_grid_NaN_bound 2 3 NaN (int 9) half_world); [lia|lia|by left].
Defined.

(** ** The renderer: what is logged for a grid with rows *)

Lemma log_all_logged (line : string) (lines : list string) (w : World) :
  log_all lines (logged line w) = log_all (line :: lines) w.
Proof. unfold log_all, logged. simpl. f_equal. by rewrite <- app_assoc. Qed.

Lemma log_all_nil (w : World) : log_all [] w = w.
Proof. destruct w. unfold log_all. simpl. by rewrite app_nil_r. Qed.

Lemma log_all_app (l1 l2 : list string) (w : World) :
  log_all l2 (log_all l1 w) = log_all (l1 ++ l2) w.
Proof. unfold log_all. simpl. f_equal. by rewrite <- app_assoc. Qed.

Lemma for_rangeM_logs (body : nat → M unit) (line : nat → string) :
  (∀ k w, body k w = (Ok tt, logged (line k) w)) →
  ∀ n w, for_rangeM n body w = (Ok tt, log_all (line <$> seq 0 n) w).
Proof.
  intros Hbody n. unfold for_rangeM. generalize 0%nat as start.
  induction n as [|n IH]; intros start w.
  - simpl. unfold mret, M_ret. by rewrite log_all_nil.
  - cbn [seq foldr fmap list_fmap]. unfold mbind, M_bind at 1.
    rewrite Hbody, IH. by rewrite log_all_logged.
Qed.

Lemma print_row_run (toStr : Qc → string) (rows : list rowval) (uc : bool)
    (k : nat) (w : World) :
  print_row toStr rows (max_list ((λ row, length (row_or_empty row)) <$> rows))
    (computeColWidth toStr rows) (value (findGlobalMin rows))
    (rowsWithMin (findGlobalMin rows)) uc k w
  = (Ok tt, logged (row_line toStr rows uc k) w).
Proof.
  unfold print_row. rewrite minReplacements_array.
  unfold mbind, M_bind, lift_fuel, console_log, logged, row_line, row_line_body.
  do 4 f_equal.
  by destruct (length (omap number_of _) =? 0)%nat.
Qed.

Lemma prettyPrintMatrix_run (toStr : Qc → string) (rows : list rowval)
    (options : PrettyPrintOptions) (w : World) :
  rows ≠ [] →
  prettyPrintMatrix toStr (MArr rows) options w
  = (Ok tt, log_all (table_lines toStr rows (default (isTTY w) (useColors options))) w).
Proof.
  intros Hrows. unfold prettyPrintMatrix.
  unfold mbind at 1, M_bind at 1, get_isTTY.
  destruct rows as [|row0 rows']; [done|]. set (rows := row0 :: rows') in *.
  change (length rows =? 0)%nat with false. cbv iota.
  set (uc := default (isTTY w) (useColors options)).
  unfold mbind at 1, M_bind at 1, console_log at 1.
  unfold mbind at 1, M_bind at 1, console_log at 1.
  unfold mbind at 1, M_bind at 1.
  rewrite (for_rangeM_logs _ (row_line toStr rows uc)) by (intros; apply print_row_run).
  unfold mbind at 1, M_bind at 1, console_log at 1.
  unfold table_lines, trailer_line. fold (table_header toStr rows).
  destruct (value (findGlobalMin rows)) as [m|]; [destruct uc|];
    unfold mbind, M_bind, console_log, log_all, logged; simpl;
    do 2 f_equal; rewrite <- !app_assoc; reflexivity.
Qed.

Lemma js_length_app (a b : string) :
  js_length (a +:+ b) = (js_length a + js_length b)%nat.
Proof. induction a as [|ch a IH]; [done|]. simpl. rewrite IH. lia. Qed.

Lemma js_length_repeat (pad : string) (n : nat) :
  js_length (js_repeat pad n) = (n * js_length pad)%nat.
Proof. induction n as [|n IH]; [done|]. simpl. by rewrite js_length_app, IH. Qed.

Lemma js_length_padStart (s : string) (width : nat) :
  js_length (padStart s width) = Nat.max width (js_length s).
Proof.
  unfold padStart. rewrite js_length_app, js_length_repeat.
  change (js_length " ") with 1%nat. lia.
Qed.

(** X14. For a grid with at least one row the renderer returns normally
    and only appends to the console: the header (after a line break), a
    separator, one line per row, the separator again, the summary and an
    empty line, that is [rows + 5] entries.  The separator consists of
    dashes, as many as the header has characters. *)
Theorem prettyPrintMatrix_table_shape (toStr : Qc → string) (rows : list rowval)
    (options : PrettyPrintOptions) (w : World) :
  rows ≠ [] →
  ∃ header body trailer,
    prettyPrintMatrix toStr (MArr rows) options w
    = (Ok tt,
       log_all ([NEWLINE +:+ header; js_repeat "-" (js_length header)]
                ++ body
                ++ [js_repeat "-" (js_length header); trailer; ""]) w)
    ∧ length body = length rows
    ∧ js_length (js_repeat "-" (js_length header)) = js_length header.
Proof.
  intros Hrows.
  exists (table_header toStr rows),
         (row_line toStr rows (default (isTTY w) (useColors options))
          <$> seq 0 (length rows)),
         (trailer_line toStr rows (default (isTTY w) (useColors options))).
  split; [by apply prettyPrintMatrix_run|]. split.
  - by rewrite length_fmap, length_seq.
  - rewrite js_length_repeat. change (js_length "-") with 1%nat. lia.
Qed.

Lemma prettyPrintMatrix_table_shape_witness :
  ∃ header body trailer,
    prettyPrintMatrix (λ _, "") (MArr [RArr [JNum (int 1)]; RNullish])
      {| useColors := None |} half_world
    = (Ok tt,
       log_all ([NEWLINE +:+ header; js_repeat "-" (js_length header)]
                ++ body
                ++ [js_repeat "-" (js_length header); trailer; ""]) half_world)
    ∧ length body = length [RArr [JNum (int 1)]; RNullish]
    ∧ js_length (js_repeat "-" (js_length header)) = js_length header.
Proof.
  apply (prettyPrintMatrix_table_shape (λ _, "") [RArr [JNum (int 1)]; RNullish]
           {| useColors := None |} half_world).
  done.
Defined.

(** X15. When the grid has a global minimum, the line logged for row [k]
    begins with the marker [*] if that row holds a cell equal to the
    minimum, and with a blank otherwise. *)
Theorem prettyPrintMatrix_row_marker (toStr : Qc → string) (rows : list rowval)
    (options : PrettyPrintOptions) (w : World) (m : number) (k : nat) :
  value (findGlobalMin rows) = Some m → (k < length rows)%nat →
  ∃ marker body,
    console (snd (prettyPrintMatrix toStr (MArr rows) options w))
      !! (length (console w) + 2 + k)%nat = Some (marker +:+ body)
    ∧ (marker = "*" ∨ marker = " ")
    ∧ (marker = "*" ↔ ∃ c, cell_at rows (mkPos k c) = Some (JNum m)).
Proof.
  intros Hv Hk.
  assert (Hrows : rows ≠ []) by (intros ->; simpl in Hk; lia).
  rewrite prettyPrintMatrix_run by done. cbn [snd log_all console].
  set (uc := default (isTTY w) (useColors options)).
  exists (if bool_decide (k ∈ rowsWithMin (findGlobalMin rows)) then "*" else " "),
         (row_line_body toStr rows uc k).
  split.
  - rewrite <- Nat.add_assoc, lookup_app_r by lia.
    replace (length (console w) + (2 + k) - length (console w))%nat with (2 + k)%nat by lia.
    unfold table_lines. rewrite lookup_app_r by (simpl; lia).
    replace (2 + k - length [NEWLINE +:+ table_header toStr rows;
                             js_repeat "-" (js_length (table_header toStr rows))])%nat
      with k by (simpl; lia).
    rewrite lookup_app_l by (rewrite length_fmap, length_seq; lia).
    rewrite list_lookup_fmap, lookup_seq_lt by done. done.
  - apply findGlobalMin_value_Some in Hv as [Hm _].
    destruct (scan_matrix_invariant rows) as (Hnan & _ & _). rewrite Hm in Hnan.
    assert (Hiff : k ∈ rowsWithMin (findGlobalMin rows)
                   ↔ ∃ c, cell_at rows (mkPos k c) = Some (JNum m)).
    { rewrite rowsWithMin_positions, findGlobalMin_positions, Hm. split.
      - intros [c [Hc _]%elem_of_occurrences]. by exists c.
      - intros [c Hc]. exists c. by apply elem_of_occurrences. }
    case_bool_decide as Hin; (split; [auto|]); rewrite <- Hiff; split; done.
Qed.

Lemma prettyPrintMatrix_row_marker_witness :
  ∃ marker body,
    console (snd (prettyPrintMatrix (λ _, "")
                    (MArr [RArr [JNum (int 5); JNum (int 1)]; RArr [JNum (int 3)]])
                    {| useColors := Some false |} half_world))
      !! (length (console half_world) + 2 + 0)%nat = Some (marker +:+ body)
    ∧ (marker = "*" ∨ marker = " ")
    ∧ (marker = "*"
       ↔ ∃ c, cell_at [RArr [JNum (int 5); JNum (int 1)]; RArr [JNum (int 3)]] (mkPos 0 c)
              = Some (JNum (int 1))).
Proof.
  apply (prettyPrintMatrix_row_marker (λ _, "")
           [RArr [JNum (int 5); JNum (int 1)]; RArr [JNum (int 3)]]
           {| useColors := Some false |} half_world (int 1) 0).
  - reflexivity.
  - simpl. lia.
Defined.

(** ** Column width and cell formatting *)

Lemma widest_cell_fold (toStr : Qc → string) (cells : list jsval) (acc : nat) :
  (acc ≤ foldl (λ acc' cell,
                  if (acc' <? js_length (String_of toStr cell))%nat
                  then js_length (String_of toStr cell) else acc')
               acc cells)%nat
  ∧ ∀ v, v ∈ cells →
         (js_length (String_of toStr v)
          ≤ foldl (λ acc' cell,
                     if (acc' <? js_length (String_of toStr cell))%nat
                     then js_length (String_of toStr cell) else acc')
                  acc cells)%nat.
Proof.
  revert acc. induction cells as [|cell cells IH]; intros acc; cbn [foldl].
  - split; [done|]. intros v Hv. by apply elem_of_nil in Hv.
  - destruct (Nat.ltb_spec acc (js_length (String_of toStr cell))) as [Hlt|Hge].
    + destruct (IH (js_length (String_of toStr cell))) as [Hacc Hcells].
      split; [lia|]. intros v [->|Hv]%elem_of_cons; [lia|by apply Hcells].
    + destruct (IH acc) as [Hacc Hcells].
      split; [lia|]. intros v [->|Hv]%elem_of_cons; [lia|by apply Hcells].
Qed.

Lemma widest_row_fold (toStr : Qc → string) (matrix : list rowval) (acc : nat) :
  (acc ≤ foldl (λ acc row,
                  match row with
                  | RNullish => acc
                  | RArr cells =>
                      foldl (λ acc' cell,
                               if (acc' <? js_length (String_of toStr cell))%nat
                               then js_length (String_of toStr cell) else acc')
                            acc cells
                  end)
               acc matrix)%nat
  ∧ ∀ cells v, RArr cells ∈ matrix → v ∈ cells →
      (js_length (String_of toStr v)
       ≤ foldl (λ acc row,
                  match row with
                  | RNullish => acc
                  | RArr cells =>
                      foldl (λ acc' cell,
                               if (acc' <? js_length (String_of toStr cell))%nat
                               then js_length (String_of toStr cell) else acc')
                            acc cells
                  end)
               acc matrix)%nat.
Proof.
  revert acc. induction matrix as [|row matrix IH]; intros acc; cbn [foldl].
  - split; [done|]. intros cells v Hin. by apply elem_of_nil in Hin.
  - destruct row as [cells0|].
    + destruct (widest_cell_fold toStr cells0 acc) as [Hacc0 Hcells0].
      match goal with |- context [foldl _ ?a matrix] =>
        destruct (IH a) as [Hacc Hrest] end.
      split; [lia|]. intros cells v [[= ->]|Hin]%elem_of_cons Hv.
      * pose proof (Hcells0 v Hv). lia.
      * by apply (Hrest cells).
    + destruct (IH acc) as [Hacc Hrest]. split; [done|].
      intros cells v [?|Hin]%elem_of_cons Hv; [done|]. by apply (Hrest cells).
Qed.

Lemma computeColWidth_fits (toStr : Qc → string) (matrix : list rowval) :
  (5 ≤ computeColWidth toStr matrix)%nat
  ∧ ∀ cells v, RArr cells ∈ matrix → v ∈ cells →
               (js_length (String_of toStr v) < computeColWidth toStr matrix)%nat.
Proof.
  unfold computeColWidth. cbv zeta.
  destruct (widest_row_fold toStr matrix 1) as [_ Hcells].
  split; [lia|]. intros cells v Hrow Hv. pose proof (Hcells cells v Hrow Hv). lia.
Qed.

Lemma widest_cell_fold_attained (toStr : Qc → string) (cells : list jsval) (acc : nat) :
  foldl (λ acc' cell,
           if (acc' <? js_length (String_of toStr cell))%nat
           then js_length (String_of toStr cell) else acc')
        acc cells = acc
  ∨ ∃ v, v ∈ cells
         ∧ js_length (String_of toStr v)
           = foldl (λ acc' cell,
                      if (acc' <? js_length (String_of toStr cell))%nat
                      then js_length (String_of toStr cell) else acc')
                   acc cells.
Proof.
  revert acc. induction cells as [|cell cells IH]; intros acc; cbn [foldl]; [by left|].
  destruct (Nat.ltb_spec acc (js_length (String_of toStr cell))) as [Hlt|Hge].
  - right. destruct (IH (js_length (String_of toStr cell))) as [->|(v & Hv & Hlen)].
    + exists cell. split; [by left|done].
    + exists v. split; [by right|done].
  - destruct (IH acc) as [->|(v & Hv & Hlen)]; [by left|].
    right. exists v. split; [by right|done].
Qed.

Lemma widest_row_fold_attained (toStr : Qc → string) (matrix : list rowval) (acc : nat) :
  foldl (λ acc row,
           match row with
           | RNullish => acc
           | RArr cells =>
               foldl (λ acc' cell,
                        if (acc' <? js_length (String_of toStr cell))%nat
                        then js_length (String_of toStr cell) else acc')
                     acc cells
           end)
        acc matrix = acc
  ∨ ∃ cells v, RArr cells ∈ matrix ∧ v ∈ cells
      ∧ js_length (String_of toStr v)
        = foldl (λ acc row,
                   match row with
                   | RNullish => acc
                   | RArr cells =>
                       foldl (λ acc' cell,
                                if (acc' <? js_length (String_of toStr cell))%nat
                                then js_length (String_of toStr cell) else acc')
                             acc cells
                   end)
                acc matrix.
Proof.
  revert acc. induction matrix as [|row matrix IH]; intros acc; cbn [foldl]; [by left|].
  destruct row as [cells0|].
  - match goal with |- context [foldl _ ?a matrix] =>
      destruct (IH a) as [Heq|(cells & v & Hrow & Hv & Hlen)] end.
    + rewrite Heq.
      destruct (widest_cell_fold_attained toStr cells0 acc) as [->|(v & Hv & Hlen)];
        [by left|].
      right. exists cells0, v. split; [by left|done].
    + right. exists cells, v. split; [by right|done].
  - destruct (IH acc) as [->|(cells & v & Hrow & Hv & Hlen)]; [by left|].
    right. exists cells, v. split; [by right|done].
Qed.

(** X16. The column width is at least 5 and exceeds the length of the
    text of every cell of every row, so a cell always fits its column
    with a blank in front; and it is no wider than that: it is 5, or one
    more than the length of the text of some cell. *)
Theorem computeColWidth_bounds (toStr : Qc → string) (matrix : list rowval) :
  (5 ≤ computeColWidth toStr matrix)%nat
  ∧ (∀ cells v, RArr cells ∈ matrix → v ∈ cells →
                (js_length (String_of toStr v) < computeColWidth toStr matrix)%nat)
  ∧ (computeColWidth toStr matrix = 5%nat
     ∨ ∃ cells v, RArr cells ∈ matrix ∧ v ∈ cells
                  ∧ computeColWidth toStr matrix = S (js_length (String_of toStr v))).
Proof.
  destruct (computeColWidth_fits toStr matrix) as [H5 Hfit].
  split; [done|]. split; [done|].
  unfold computeColWidth in *. cbv zeta in *.
  destruct (widest_row_fold_attained toStr matrix 1) as [Heq|(cells & v & Hrow & Hv & Hlen)].
  - left. rewrite Heq. reflexivity.
  - destruct (Nat.le_gt_cases (js_length (String_of toStr v)) 4) as [Hle|Hgt].
    + left. rewrite <- Hlen. lia.
    + right. exists cells, v. split; [done|]. split; [done|]. rewrite <- Hlen. lia.
Qed.

(** X17. Formatted for the column width of its grid, a cell of the grid
    and the filler of a missing cell take exactly that many characters;
    highlighting with colours adds the three escape sequences around the
    text (13 characters, none of them visible) and changes nothing else. *)
Theorem formatCell_width (toStr : Qc → string) (matrix : list rowval) (v : jsval)
    (highlight useColors : bool) :
  v = JStr EMPTY_CELL ∨ (∃ cells, RArr cells ∈ matrix ∧ v ∈ cells) →
  js_length (formatCell toStr v (computeColWidth toStr matrix) highlight useColors)
  = (computeColWidth toStr matrix + if highlight && useColors then 13 else 0)%nat
  ∧ formatCell toStr v (computeColWidth toStr matrix) true true
    = yellow COLORS +:+ bold COLORS
      +:+ formatCell toStr v (computeColWidth toStr matrix) false false
      +:+ reset COLORS.
Proof.
  intros Hv. split; [|done].
  destruct (computeColWidth_fits toStr matrix) as [H5 Hfit].
  assert (Hlen : (js_length (String_of toStr v) < computeColWidth toStr matrix)%nat).
  { destruct Hv as [->|(cells & Hrow & Hv)]; [|by apply (Hfit cells)].
    change (js_length (String_of toStr (JStr EMPTY_CELL))) with 1%nat. lia. }
  unfold formatCell. destruct (highlight && useColors).
  - rewrite !js_length_app, js_length_padStart.
    change (js_length (yellow COLORS)) with 5%nat.
    change (js_length (bold COLORS)) with 4%nat.
    change (js_length (reset COLORS)) with 4%nat. lia.
  - rewrite js_length_padStart. lia.
Qed.

Lemma formatCell_width_witness :
  js_length (formatCell (λ _, "") (JNum (int (-12345)))
               (computeColWidth (λ _, "") [RArr [JNum (int 7); JNum (int (-12345))]])
               true true)
  = (computeColWidth (λ _, "") [RArr [JNum (int 7); JNum (int (-12345))]]
     + if true && true then 13 else 0)%nat
  ∧ formatCell (λ _, "") (JNum (int (-12345)))
      (computeColWidth (λ _, "") [RArr [JNum (int 7); JNum (int (-12345))]]) true true
    = yellow COLORS +:+ bold COLORS
      +:+ formatCell (λ _, "") (JNum (int (-12345)))
            (computeColWidth (λ _, "") [RArr [JNum (int 7); JNum (int (-12345))]])
            false false
      +:+ reset COLORS.
Proof.
  apply (formatCell_width (λ _, "") [RArr [JNum (int 7); JNum (int (-12345))]]
           (JNum (int (-12345))) true true).
  right. exists [JNum (int 7); JNum (int (-12345))]. split.
  - by left.
  - right. by left.
Defined.

(** ** The program *)

Lemma generated_grid_length (r c : nat) (min max : number) (w : World) :
  length (generated_grid r c min max w) = r.
Proof. unfold generated_grid. by rewrite length_fmap, length_seq. Qed.

(** X18. In every world the program runs to completion without an
    exception: it consumes 100 draws, one per cell of the 10 by 10 grid,
    and appends 15 entries to the console. *)
Theorem main_runs (toStr : Qc → string) (w : World) :
  ∃ w', main toStr w = (Ok tt, w')
        ∧ drawn w' = (100 + drawn w)%nat
        ∧ length (console w') = (length (console w) + 15)%nat
        ∧ ∃ lines, console w' = console w ++ lines.
Proof.
  unfold main, DEFAULT_ROWS, DEFAULT_COLS. unfold mbind, M_bind.
  rewrite generateMatrix_run by lia.
  set (grid := generated_grid _ _ _ _ _).
  assert (Hlen : length grid = 10%nat) by apply generated_grid_length.
  rewrite prettyPrintMatrix_run by (intros H; by rewrite H in Hlen).
  eexists. split; [reflexivity|]. cbn [log_all advance drawn console].
  split; [done|]. split; [|by eexists].
  rewrite length_app. unfold table_lines.
  rewrite !length_app, length_fmap, length_seq, Hlen. simpl. lia.
Qed.

(** ** The sign-run analyzer: the result is the least number of replacements *)

Lemma total_span (s : Z) (signs : list Z) :
  s ≠ 0 → total signs = (span s signs / 3 + total (drop (span s signs) signs))%nat.
Proof.
  intros Hs. destruct signs as [|x rest]; [done|]. cbn [span].
  destruct (Z.eqb_spec x s) as [->|Hx]; [|done].
  rewrite total_cons, (proj2 (Z.eqb_neq s 0)) by done. done.
Qed.

Lemma total_triple (s : Z) (rest : list Z) :
  s ≠ 0 → total (s :: s :: s :: rest) = S (total rest).
Proof.
  intros Hs. rewrite total_cons, (proj2 (Z.eqb_neq s 0)) by done.
  cbn [span]. rewrite !Z.eqb_refl. cbn [drop].
  rewrite (total_span s rest Hs).
  pose proof (Nat.div_mod_eq (S (S (S (span s rest)))) 3).
  pose proof (Nat.mod_upper_bound (S (S (S (span s rest)))) 3).
  pose proof (Nat.div_mod_eq (span s rest) 3).
  pose proof (Nat.mod_upper_bound (span s rest) 3). lia.
Qed.

Lemma total_no_triple (a : Z) (rest : list Z) :
  starts_triple (a :: rest) = false → total (a :: rest) = total rest.
Proof.
  intros Hno. destruct (Z.eqb_spec a 0) as [->|Ha]; [apply total_cons_neutral|].
  rewrite total_cons, (proj2 (Z.eqb_neq a 0)) by done.
  destruct rest as [|b rest]; [done|]. cbn [span].
  destruct (Z.eqb_spec b a) as [->|Hb]; [|done].
  cbn [drop]. rewrite (total_cons a rest), (proj2 (Z.eqb_neq a 0)) by done.
  destruct rest as [|c rest]; [done|]. cbn [span].
  destruct (Z.eqb_spec c a) as [->|Hc]; [|done].
  simpl in Hno. rewrite Z.eqb_refl, (proj2 (Z.eqb_neq a 0)) in Hno by done. done.
Qed.

Lemma starts_triple_inv (signs : list Z) :
  starts_triple signs = true → ∃ s rest, s ≠ 0 ∧ signs = s :: s :: s :: rest.
Proof.
  destruct signs as [|a [|b [|c rest]]]; try done. simpl.
  intros [[Ha Hab]%andb_true_iff Hbc]%andb_true_iff.
  apply Z.eqb_eq in Hab as ->, Hbc as ->. apply negb_true_iff, Z.eqb_neq in Ha.
  by exists c, rest.
Qed.

Lemma has_triple_unfold (a : Z) (rest : list Z) :
  has_triple (a :: rest) = starts_triple (a :: rest) || has_triple rest.
Proof. by destruct rest as [|b [|c rest]]. Qed.

Lemma sign_changes_le_changes (row row' : list jsval) :
  (sign_changes (signOf <$> row) (signOf <$> row') ≤ changes row row')%nat.
Proof.
  revert row'. induction row as [|a row IH]; intros [|a' row'];
    cbn [fmap list_fmap sign_changes changes]; try lia.
  specialize (IH row'). case_bool_decide as Haa.
  - subst. rewrite Z.eqb_refl. lia.
  - destruct (signOf a =? signOf a'); lia.
Qed.

Lemma total_le_sign_changes (n : nat) :
  ∀ signs signs' : list Z,
    (length signs ≤ n)%nat → length signs' = length signs →
    has_triple signs' = false →
    (total signs ≤ sign_changes signs signs')%nat.
Proof.
  induction n as [|n IH]; intros signs signs' Hn Hlen Hno.
  { destruct signs; [|simpl in Hn; lia]. by rewrite total_nil. }
  destruct signs as [|a rest]; [by rewrite total_nil; lia|].
  destruct signs' as [|a' rest']; [done|].
  rewrite has_triple_unfold in Hno. apply orb_false_iff in Hno as [Hstart Hrest].
  destruct (starts_triple (a :: rest)) eqn:Htriple.
  - apply starts_triple_inv in Htriple as (s & t & Hs & [= -> ->]).
    destruct rest' as [|y [|z t']]; try done.
    rewrite total_triple by done.
    assert (Ht : (total t ≤ sign_changes t t')%nat).
    { apply IH; [simpl in Hn; lia|simpl in Hlen; lia|].
      rewrite has_triple_unfold in Hrest. apply orb_false_iff in Hrest as [_ Hrest].
      rewrite has_triple_unfold in Hrest. by apply orb_false_iff in Hrest as [_ Hrest]. }
    cbn [sign_changes].
    destruct (Z.eqb_spec s a') as [<-|]; [|lia].
    destruct (Z.eqb_spec s y) as [<-|]; [|lia].
    destruct (Z.eqb_spec s z) as [<-|]; [|lia].
    simpl in Hstart. rewrite Z.eqb_refl, (proj2 (Z.eqb_neq s 0)) in Hstart by done. done.
  - rewrite total_no_triple by done. cbn [sign_changes].
    assert (Ht : (total rest ≤ sign_changes rest rest')%nat).
    { apply IH; [simpl in Hn; lia|simpl in Hlen; lia|done]. }
    lia.
Qed.

(** X19. No smaller number of replacements will do: a row of the same
    length that has no triple left differs from the given row in at least
    as many cells as the function returns for the given row. *)
Theorem minReplacements_lower_bound (row row' : list jsval) :
  length row' = length row →
  minReplacementsToAvoidTriples (RArr row') = Some 0%nat →
  ∃ n, minReplacementsToAvoidTriples (RArr row) = Some n ∧ (n ≤ changes row row')%nat.
Proof.
  rewrite !minReplacements_array, !replacements_by_runs_total.
  intros Hlen [= Hzero]. eexists. split; [done|].
  apply (total_zero_iff (length (signOf <$> row'))) in Hzero; [|done].
  etrans; [|apply sign_changes_le_changes].
  apply (total_le_sign_changes (length (signOf <$> row))); [done| |done].
  by rewrite !length_fmap.
Qed.

Lemma minReplacements_lower_bound_witness :
  ∃ n, minReplacementsToAvoidTriples
         (RArr [JNum (int 1); JNum (int 2); JNum (int 3); JNum (int 4)]) = Some n
       ∧ (n ≤ changes [JNum (int 1); JNum (int 2); JNum (int 3); JNum (int 4)]
                      [JNum (int 1); JNum (int (-2)); JNum (int 3); JNum (int 4)])%nat.
Proof.
  apply (minReplacements_lower_bound
           [JNum (int 1); JNum (int 2); JNum (int 3); JNum (int 4)]
           [JNum (int 1); JNum (int (-2)); JNum (int 3); JNum (int 4)]).
  - reflexivity.
  - by vm_compute.
Defined.

Lemma break_triples_head (a : jsval) (rest : list jsval) :
  ∃ t', break_triples (a :: rest) = a :: t'.
Proof.
  destruct rest as [|b [|c t]]; simpl; try by eexists.
  destruct (negb _ && _ && _); by eexists.
Qed.

Lemma break_triples_head2 (b c : jsval) (t : list jsval) :
  ∃ t', break_triples (b :: c :: t) = b :: c :: t'.
Proof.
  destruct t as [|d u].
  - by exists [].
  - change (break_triples (b :: c :: d :: u))
      with (if starts_triple [signOf b; signOf c; signOf d]
            then b :: c :: JNum (int 0) :: break_triples u
            else b :: break_triples (c :: d :: u)).
    destruct (starts_triple _); [by eexists|].
    destruct (break_triples_head c (d :: u)) as [t' ->]. by eexists.
Qed.

Lemma signOf_zero : signOf (JNum (int 0)) = 0.
Proof. reflexivity. Qed.

Lemma changes_cons_same (a : jsval) (rest rest' : list jsval) :
  changes (a :: rest) (a :: rest') = changes rest rest'.
Proof. cbn [changes]. by rewrite bool_decide_true. Qed.

Lemma break_triples_props (n : nat) :
  ∀ row : list jsval, (length row ≤ n)%nat →
    length (break_triples row) = length row
    ∧ has_triple (signOf <$> break_triples row) = false
    ∧ changes row (break_triples row) = total (signOf <$> row).
Proof.
  induction n as [|n IH]; intros row Hn.
  { destruct row; [done|simpl in Hn; lia]. }
  destruct row as [|a [|b [|c t]]].
  - done.
  - cbn [break_triples changes fmap list_fmap]. rewrite bool_decide_true by done.
    split; [done|]. split; [done|].
    by rewrite total_no_triple, total_nil by done.
  - cbn [break_triples changes fmap list_fmap]. rewrite !bool_decide_true by done.
    split; [done|]. split; [done|].
    by rewrite !total_no_triple, total_nil by done.
  - change (break_triples (a :: b :: c :: t))
      with (if starts_triple [signOf a; signOf b; signOf c]
            then a :: b :: JNum (int 0) :: break_triples t
            else a :: break_triples (b :: c :: t)).
    destruct (starts_triple [signOf a; signOf b; signOf c]) eqn:Htriple.
    + destruct (IH t) as (Hlen & Hno & Hch); [simpl in Hn; lia|].
      pose proof Htriple as (s & r & Hs & [= Ha Hb Hc _])%starts_triple_inv.
      split; [simpl; by rewrite Hlen|]. split.
      * assert (Hb0 : (signOf b =? 0) = false) by (rewrite Hb; by apply Z.eqb_neq).
        cbn [fmap list_fmap]. rewrite signOf_zero.
        rewrite has_triple_unfold, (has_triple_unfold (signOf b)), has_triple_neutral, Hno.
        cbn [starts_triple]. rewrite Hb0, andb_false_r.
        destruct (signOf <$> break_triples t); [done|].
        done.
      * rewrite !changes_cons_same. cbn [changes fmap list_fmap].
        rewrite bool_decide_false.
        2:{ intros ->. rewrite signOf_zero in Hc. congruence. }
        rewrite Hch, Ha, Hb, Hc, total_triple by done. lia.
    + destruct (IH (b :: c :: t)) as (Hlen & Hno & Hch); [simpl in Hn |- *; lia|].
      destruct (break_triples_head2 b c t) as [t' Ht'].
      split; [simpl in *; by rewrite Hlen|]. split.
      * cbn [fmap list_fmap]. rewrite has_triple_unfold. fold (fmap signOf (break_triples (b :: c :: t))).
        rewrite Hno, orb_false_r, Ht'. exact Htriple.
      * rewrite changes_cons_same, Hch. cbn [fmap list_fmap].
        symmetry. apply total_no_triple. exact Htriple.
Qed.

(** X20. The returned number of replacements is enough: writing 0 into
    the third cell of every triple met from the left changes exactly that
    many cells, keeps the length, and leaves a row without triples, for
    which the function returns 0. *)
Theorem minReplacements_achieved (row : list jsval) :
  ∃ n, minReplacementsToAvoidTriples (RArr row) = Some n
       ∧ length (break_triples row) = length row
       ∧ changes row (break_triples row) = n
       ∧ minReplacementsToAvoidTriples (RArr (break_triples row)) = Some 0%nat.
Proof.
  destruct (break_triples_props (length row) row) as (Hlen & Hno & Hch); [done|].
  exists (total (signOf <$> row)).
  rewrite !minReplacements_array, !replacements_by_runs_total.
  split; [done|]. split; [done|]. split; [done|]. f_equal.
  by apply (total_zero_iff (length (signOf <$> break_triples row))).
Qed.

Lemma Qcopp_lt_compat (p q : Qc) : (p < q)%Qc → (- q < - p)%Qc.
Proof.
  intros H. apply (Qcplus_lt_mono_l p q (- p + - q)%Qc) in H.
  replace (- p + - q + p)%Qc with (- q)%Qc in H by ring.
  by replace (- p + - q + q)%Qc with (- p)%Qc in H by ring.
Qed.

Lemma Qc_ltb_opp_r (x : Qc) : Qc_ltb (Qc_of_Z 0) (- x)%Qc = Qc_ltb x (Qc_of_Z 0).
Proof.
  apply eq_true_iff_eq. rewrite !Qc_ltb_lt. split; intros H.
  - apply Qcopp_lt_compat in H. by rewrite Qcopp_involutive in H.
  - by apply Qcopp_lt_compat in H.
Qed.

Lemma Qc_ltb_opp_l (x : Qc) : Qc_ltb (- x)%Qc (Qc_of_Z 0) = Qc_ltb (Qc_of_Z 0) x.
Proof.
  apply eq_true_iff_eq. rewrite !Qc_ltb_lt. split; intros H.
  - apply Qcopp_lt_compat in H. by rewrite Qcopp_involutive in H.
  - by apply Qcopp_lt_compat in H.
Qed.

Lemma signOf_negate (v : jsval) : signOf (negate v) = - signOf v.
Proof.
  destruct v as [[x| | |]| | |]; try reflexivity.
  unfold signOf, negate, value_gt0, value_lt0, num_gt, num_neg, int. cbn [typeof_number
    Number_isNaN is_NaN negb orb num_lt].
  rewrite Qc_ltb_opp_r, Qc_ltb_opp_l.
  destruct (Qc_ltb x (Qc_of_Z 0)) eqn:Hneg, (Qc_ltb (Qc_of_Z 0) x) eqn:Hpos; try reflexivity.
  by rewrite (Qc_ltb_asym _ _ Hneg) in Hpos.
Qed.

Lemma starts_triple_opp (signs : list Z) :
  starts_triple (Z.opp <$> signs) = starts_triple signs.
Proof.
  destruct signs as [|a [|b [|c rest]]]; try reflexivity. cbn [fmap list_fmap starts_triple].
  f_equal; [f_equal; [f_equal|]|].
  - destruct (Z.eqb_spec (- a) 0), (Z.eqb_spec a 0); try done; lia.
  - destruct (Z.eqb_spec (- a) (- b)), (Z.eqb_spec a b); try done; lia.
  - destruct (Z.eqb_spec (- b) (- c)), (Z.eqb_spec b c); try done; lia.
Qed.

Lemma total_opp (n : nat) :
  ∀ signs : list Z, (length signs ≤ n)%nat → total (Z.opp <$> signs) = total signs.
Proof.
  induction n as [|n IH]; intros [|a rest] Hn; try done; try (simpl in Hn; lia).
  destruct (starts_triple (a :: rest)) eqn:Htriple.
  - apply starts_triple_inv in Htriple as (s & t & Hs & [= -> ->]).
    cbn [fmap list_fmap]. rewrite !total_triple by lia.
    f_equal. apply IH. simpl in Hn. lia.
  - rewrite (total_no_triple a rest Htriple). cbn [fmap list_fmap].
    rewrite total_no_triple.
    + apply IH. simpl in Hn. lia.
    + rewrite <- Htriple. apply (starts_triple_opp (a :: rest)).
Qed.

(** X21. Negating every number of the row, which turns every sign into
    the opposite one, leaves the result unchanged. *)
Theorem minReplacements_negate (row : list jsval) :
  minReplacementsToAvoidTriples (RArr (negate <$> row))
  = minReplacementsToAvoidTriples (RArr row).
Proof.
  rewrite !minReplacements_array, !replacements_by_runs_total. f_equal.
  rewrite <- (total_opp (length (signOf <$> row)) (signOf <$> row)) by done.
  f_equal. rewrite <- !list_fmap_compose.
  apply list_fmap_ext. intros _ v _. apply signOf_negate.
Qed.
